(** * ParseOracle.py: organising a Scryfall bulk export into a folder tree

    A shallow embedding of [src/ParseOracle.py] and the properties of its
    classifier, sanitizer, loader and writer.

    - Python [str] values are sequences of Unicode code points ([pystr]).
    - The records are the values [json.load] yields ([json]).  A [float]
      is held as the text [repr] gives for it; the function that takes a
      number of the input text to that text is a parameter ([float_repr]).
    - Python exceptions are values of [exn]; fallible code lives in [res].
    - The file system and the console are an explicit [world]. *)

From Stdlib Require Import NArith ZArith List Lia String Ascii.
From Stdlib Require Import DecimalFacts DecimalPos.
From stdpp Require Import base tactics option list numbers sorting gmap sets.

Set Warnings "-clear-no-such-hyp".
Open Scope N_scope.

(** ** Python strings *)

(** A code point. *)
Abbreviation char := N (only parsing).

(** A Python [str]. *)
Abbreviation pystr := (list N) (only parsing).

(** An ASCII literal of the source as a [pystr]. *)
Definition lit (s : string) : pystr :=
  (λ a, N_of_ascii a) <$> list_ascii_of_string s.
Global Arguments lit : simpl never.

(** [s.startswith(p)] *)
Fixpoint startswith (p s : pystr) : bool :=
  match p, s with
  | [], _ => true
  | _ :: _, [] => false
  | a :: p', b :: s' => if decide (a = b) then startswith p' s' else false
  end.

(** [s.endswith(p)] *)
Definition endswith (p s : pystr) : bool := startswith (reverse p) (reverse s).

(** [s.find(sub)]: the lowest index at which [sub] occurs, [None] for -1. *)
Fixpoint find (sub s : pystr) : option nat :=
  if startswith sub s then Some 0%nat
  else match s with
       | [] => None
       | _ :: s' => S <$> find sub s'
       end.

(** [sub in s] on two strings. *)
Definition contains (sub s : pystr) : bool :=
  match find sub s with Some _ => true | None => false end.

(** [sub] occurs in [s] as a contiguous run of characters. *)
Definition occurs_in (sub s : pystr) : Prop :=
  ∃ pre post, s = pre ++ sub ++ post.

(** [sep.join(parts)] *)
Fixpoint str_join (sep : pystr) (parts : list pystr) : pystr :=
  match parts with
  | [] => []
  | [p] => p
  | p :: rest => p ++ sep ++ str_join sep rest
  end.

(** [s.replace(old, new)] for a one-character [old]. *)
Definition str_replace1 (old : char) (new : pystr) (s : pystr) : pystr :=
  c ← s; if decide (c = old) then new else [c].

(** The loop of [str.split]: cut at each occurrence of [sep], left to right,
    resuming the search after the occurrence.  [fuel] bounds the number of
    cuts; [length s] is always enough for a non-empty separator
    (see [split_loop_fuel] and [str_split_unfold]). *)
Fixpoint split_loop (fuel : nat) (sep s : pystr) : list pystr :=
  match find sep s with
  | None => [s]
  | Some i =>
      match fuel with
      | O => [s]
      | S fuel' => take i s :: split_loop fuel' sep (drop (i + length sep) s)
      end
  end.

(** Python's comparison of two strings: by code point, the first difference
    decides, a proper prefix is smaller. *)
Fixpoint str_cmp (s t : pystr) : comparison :=
  match s, t with
  | [], [] => Eq
  | [], _ :: _ => Lt
  | _ :: _, [] => Gt
  | a :: s', b :: t' =>
      match N.compare a b with
      | Eq => str_cmp s' t'
      | c => c
      end
  end.

Definition str_le (s t : pystr) : Prop := str_cmp s t ≠ Gt.

Global Instance str_le_dec s t : Decision (str_le s t).
Proof. unfold str_le. apply _. Defined.

(** ** Exceptions and fallible computations *)

Inductive exn : Set :=
  | TypeError
  | AttributeError
  | IndexError
  | ValueError
  | JSONDecodeError
  | UnicodeEncodeError
  | IsADirectoryError
  | NotADirectoryError
  | FileExistsError
  | FileNotFoundError
  | NaNNotModelled
  | PathNotModelled
  | OutOfFuel.

Global Instance exn_eq_dec : EqDecision exn.
Proof. solve_decision. Defined.

Inductive res (A : Type) : Type :=
  | Ok (a : A)
  | Raise (e : exn).
Global Arguments Ok {A} a.
Global Arguments Raise {A} e.

Definition bind {A B} (m : res A) (k : A → res B) : res B :=
  match m with
  | Ok a => k a
  | Raise e => Raise e
  end.

Declare Scope res_scope.
Delimit Scope res_scope with res.
Notation "'do' x <- m ; k" := (bind m (λ x, k))
  (at level 10, x pattern, m at level 100, k at level 200,
   format "'[v' 'do'  x  <-  m ;  '/' k ']'") : res_scope.
Open Scope res_scope.

(** Run [f] on every element, left to right; the first exception wins. *)
Fixpoint for_each {A B} (f : A → res B) (l : list A) : res (list B) :=
  match l with
  | [] => Ok []
  | x :: l' => do y <- f x; do ys <- for_each f l'; Ok (y :: ys)
  end.

(** [[x for x in l if p(x)]] with a test that may raise. *)
Fixpoint filter_each {A} (p : A → res bool) (l : list A) : res (list A) :=
  match l with
  | [] => Ok []
  | x :: l' =>
      do b <- p x; do ys <- filter_each p l'; Ok (if b then x :: ys else ys)
  end.

(** [s.split(sep)]; an empty separator is a [ValueError]. *)
Definition str_split (sep s : pystr) : res (list pystr) :=
  match sep with
  | [] => Raise ValueError
  | _ => Ok (split_loop (length s) sep s)
  end.

(** ** JSON values, as [json.load] builds them *)

(** [JFloat r] is the float whose [repr] is the text [r]: two floats are
    equal when their texts are ([0.0 == -0.0] apart, and [nan], which equals
    nothing and is left out). *)

#[warnings="-register-all"]
Inductive json : Type :=
  | JNull
  | JBool (b : bool)
  | JInt (n : Z)
  | JFloat (r : pystr)
  | JStr (s : pystr)
  | JArr (l : list json)
  | JObj (kvs : list (pystr * json)).

(** A [dict] keeps its keys in insertion order; a key occurs once. *)
Fixpoint dict_lookup (k : pystr) (kvs : list (pystr * json)) : option json :=
  match kvs with
  | [] => None
  | (k', v) :: rest => if decide (k' = k) then Some v else dict_lookup k rest
  end.

(** [d[k] = v]: overwrite in place, or append. *)
Fixpoint dict_set (k : pystr) (v : json) (kvs : list (pystr * json))
  : list (pystr * json) :=
  match kvs with
  | [] => [(k, v)]
  | (k', v') :: rest =>
      if decide (k' = k) then (k, v) :: rest else (k', v') :: dict_set k v rest
  end.

(** Truth value of an object in a condition. *)
Definition truthy (v : json) : bool :=
  match v with
  | JNull => false
  | JBool b => b
  | JInt n => negb (Z.eqb n 0)
  | JFloat r => negb (bool_decide (r ∈ [lit "0.0"; lit "-0.0"]))
  | JStr s => match s with [] => false | _ => true end
  | JArr l => match l with [] => false | _ => true end
  | JObj kvs => match kvs with [] => false | _ => true end
  end.

(** [iter(v)]: a list yields its items, a string its characters, a dict its
    keys; nothing else is iterable. *)
Definition py_iter (v : json) : res (list json) :=
  match v with
  | JArr l => Ok l
  | JStr s => Ok ((λ c, JStr [c]) <$> s)
  | JObj kvs => Ok ((λ kv, JStr kv.1) <$> kvs)
  | _ => Raise TypeError
  end.

(** [v.get(key, default)]: only a dict has the method. *)
Definition py_get (key : pystr) (dflt : json) (v : json) : res json :=
  match v with
  | JObj kvs => Ok (default dflt (dict_lookup key kvs))
  | _ => Raise AttributeError
  end.

(** [key in d] on a dict. *)
Definition dict_has (key : pystr) (kvs : list (pystr * json)) : bool :=
  bool_decide (is_Some (dict_lookup key kvs)).

(** [s in v] for a string [s]: a substring test on a string, a membership
    test on a list or on the keys of a dict, a [TypeError] otherwise. *)
Definition py_contains (s : pystr) (v : json) : res bool :=
  match v with
  | JStr t => Ok (contains s t)
  | JArr l =>
      Ok (existsb (λ x, match x with JStr t => bool_decide (t = s) | _ => false end) l)
  | JObj kvs => Ok (dict_has s kvs)
  | _ => Raise TypeError
  end.

(** [x == y] on the values a set can hold; [True == 1] and [False == 0].
    A float is compared with floats only; a set that holds a number never
    gets past [join_sorted]. *)
Definition py_eqb (x y : json) : bool :=
  match x, y with
  | JNull, JNull => true
  | JStr a, JStr b => bool_decide (a = b)
  | JFloat a, JFloat b => bool_decide (a = b)
  | JBool a, JBool b => bool_decide (a = b)
  | JInt a, JInt b => bool_decide (a = b)
  | JBool a, JInt b | JInt b, JBool a => bool_decide (Z.b2z a = b)
  | _, _ => false
  end.

(** [hash(x)]: lists and dicts are unhashable. *)
Definition py_hashable (x : json) : res json :=
  match x with
  | JArr _ | JObj _ => Raise TypeError
  | _ => Ok x
  end.

(** [set.add]: an element equal to one already present is dropped. *)
Definition set_add (acc : list json) (x : json) : list json :=
  if existsb (py_eqb x) acc then acc else acc ++ [x].

(** [list(set(items))] for hashable [items].  A set iterates in an order of
    its own; every use below sorts the result (see [py_sorted_perm]). *)
Definition py_set (items : list json) : list json := foldl set_add [] items.

(** [sorted(strs)] on strings. *)
Definition py_sorted (strs : list pystr) : list pystr := merge_sort str_le strs.

Definition as_str (x : json) : res pystr :=
  match x with
  | JStr s => Ok s
  | _ => Raise TypeError
  end.

(** [sep.join(sorted(v))]: [v] is iterated; the items are compared by
    [sorted] and then joined, which needs every item to be a string. *)
Definition join_sorted (v : json) : res pystr :=
  do items <- py_iter v;
  do strs <- for_each as_str items;
  Ok (str_join [] (py_sorted strs)).

(** ** The program *)

(** The character class of the pattern of [sanitize_name]:
    backslash, slash, star, question mark, colon, double quote,
    less-than, greater-than, bar. *)
Definition illegal_chars : list char := [92; 47; 42; 63; 58; 34; 60; 62; 124].

(** [re.sub(pattern, repl, s)] for a pattern that is one character class:
    scanning left to right, each character in the class is a match and is
    replaced by [repl]; the others are copied. *)
Fixpoint re_sub_class (cls : list char) (repl s : pystr) : pystr :=
  match s with
  | [] => []
  | c :: s' =>
      if bool_decide (c ∈ cls) then repl ++ re_sub_class cls repl s'
      else c :: re_sub_class cls repl s'
  end.

(** [sanitize_name(name)] on a string. *)
Definition sanitize_name (name : pystr) : pystr :=
  re_sub_class illegal_chars [] name.

(** [sanitize_name(name)] on any value: [re.sub] wants a string. *)
Definition sanitize_name_of (name : json) : res pystr :=
  do s <- as_str name; Ok (sanitize_name s).

(** " — ": space, em-dash (U+2014), space. *)
Definition subtype_sep : pystr := [32; 8212; 32].

Definition super_type_list : list pystr :=
  [lit "Basic"; lit "Legendary"; lit "Snow"; lit "World"; lit "Ongoing"; lit "Elite"].

(** The generator of line 23, consumed by [set]: the colors of every face,
    face after face. *)
Definition face_colors (card_faces : json) : res (list json) :=
  do faces <- py_iter card_faces;
  do per_face <- for_each (λ face,
       do cols <- py_get (lit "colors") (JArr []) face;
       do cs <- py_iter cols;
       for_each py_hashable cs) faces;
  Ok (concat per_face).

(** Lines 21-25. *)
Definition color_folder (card : json) : res pystr :=
  do colors_list <- py_get (lit "colors") (JArr []) card;
  do colors_list <-
    match card with
    | JObj kvs =>
        if negb (truthy colors_list) && dict_has (lit "card_faces") kvs then
          do cs <- face_colors (default JNull (dict_lookup (lit "card_faces") kvs));
          Ok (JArr (py_set cs))
        else Ok colors_list
    | _ => Ok colors_list
    end;
  if truthy colors_list then join_sorted colors_list
  else Ok (lit "Colorless").

(** Line 29. *)
Definition type_line_of (card : json) : res json :=
  py_get (lit "type_line") (JStr []) card.

(** Lines 29-32. *)
Definition super_type_folder (card : json) : res pystr :=
  do type_line <- type_line_of card;
  do found_supers <- filter_each (λ s, py_contains s type_line) super_type_list;
  Ok (match found_supers with
      | [] => lit "Normal"
      | _ => str_join (lit " ") found_supers
      end).

(** Lines 36-41; only a string has [split]. *)
Definition sub_type_folder (card : json) : res pystr :=
  do type_line <- type_line_of card;
  do has_sep <- py_contains subtype_sep type_line;
  if has_sep then
    match type_line with
    | JStr t =>
        do parts <- str_split subtype_sep t;
        match parts !! 1%nat with
        | Some sub_type_part =>
            Ok (sanitize_name (str_replace1 32 (lit "_") sub_type_part))
        | None => Raise IndexError
        end
    | _ => Raise AttributeError
    end
  else Ok (lit "No_Subtype").

(** [os.path.join] (POSIX): a component that starts with a slash restarts
    the path; otherwise components are joined by one slash. *)
Definition path_join2 (path b : pystr) : pystr :=
  if startswith (lit "/") b then b
  else if bool_decide (path = []) || endswith (lit "/") path then path ++ b
  else path ++ lit "/" ++ b.

Definition os_path_join (a : pystr) (ps : list pystr) : pystr :=
  foldl path_join2 a ps.

(** Lines 45-50. *)
Definition target_dir (output_root : pystr) (card : json) : res pystr :=
  do color <- color_folder card;
  do super <- super_type_folder card;
  do sub <- sub_type_folder card;
  Ok (os_path_join output_root [color; super; sub]).

(** Line 56 and the name of the file, [f"{card_name}.json"]. *)
Definition file_name (card : json) : res pystr :=
  do name <- py_get (lit "name") (JStr (lit "Unknown_Card")) card;
  do card_name <- sanitize_name_of name;
  Ok (card_name ++ lit ".json").

(** Lines 45-57: the path of the file of a record. *)
Definition file_path (output_root : pystr) (card : json) : res pystr :=
  do dir <- target_dir output_root card;
  do name <- file_name card;
  Ok (os_path_join dir [name]).

(** ** The JSON text of a value: [json.dump(card, out_f, indent=4)] *)

(** ['\\u{0:04x}'.format(n)] *)
Definition hex_digit (n : N) : N := if n <? 10 then 48 + n else 87 + n.

Definition u_escape (n : N) : pystr :=
  [92; 117; hex_digit (n / 4096 mod 16); hex_digit (n / 256 mod 16);
   hex_digit (n / 16 mod 16); hex_digit (n mod 16)].

(** The replacement of one character by [encode_basestring_ascii]: the
    printable ASCII characters but the quote and the backslash stand for
    themselves; short escapes for the usual control characters; [\uXXXX]
    for the rest, a surrogate pair above the basic plane. *)
Definition escape_char (c : N) : pystr :=
  if decide (c = 92) then [92; 92]
  else if decide (c = 34) then [92; 34]
  else if (32 <=? c) && (c <=? 126) then [c]
  else if decide (c = 8) then [92; 98]
  else if decide (c = 12) then [92; 102]
  else if decide (c = 10) then [92; 110]
  else if decide (c = 13) then [92; 114]
  else if decide (c = 9) then [92; 116]
  else if c <? 65536 then u_escape c
  else
    let n := c - 65536 in
    let s1 := N.lor 55296 (N.land (N.shiftr n 10) 1023) in
    let s2 := N.lor 56320 (N.land n 1023) in
    u_escape s1 ++ u_escape s2.

Definition encode_str (s : pystr) : pystr :=
  [34] ++ (c ← s; escape_char c) ++ [34].

Definition digit_char (d : N) : N := 48 + d.

Fixpoint uint_chars (u : Decimal.uint) : pystr :=
  match u with
  | Decimal.Nil => []
  | Decimal.D0 u => digit_char 0 :: uint_chars u
  | Decimal.D1 u => digit_char 1 :: uint_chars u
  | Decimal.D2 u => digit_char 2 :: uint_chars u
  | Decimal.D3 u => digit_char 3 :: uint_chars u
  | Decimal.D4 u => digit_char 4 :: uint_chars u
  | Decimal.D5 u => digit_char 5 :: uint_chars u
  | Decimal.D6 u => digit_char 6 :: uint_chars u
  | Decimal.D7 u => digit_char 7 :: uint_chars u
  | Decimal.D8 u => digit_char 8 :: uint_chars u
  | Decimal.D9 u => digit_char 9 :: uint_chars u
  end.

(** [int.__repr__] *)
Definition int_repr (n : Z) : pystr :=
  match n with
  | Z0 => lit "0"
  | Zpos p => uint_chars (Pos.to_uint p)
  | Zneg p => lit "-" ++ uint_chars (Pos.to_uint p)
  end.

(** [int.__repr__] and [int(text)] of CPython 3.11 refuse, with a
    [ValueError], an integer of more than 4300 decimal digits (the default of
    [sys.set_int_max_str_digits]). *)
Definition int_max_str_digits : nat := 4300.

Definition int_str_ok (n : Z) : bool :=
  bool_decide (length (int_repr (Z.abs n)) ≤ int_max_str_digits)%nat.
Global Arguments int_str_ok : simpl never.

(** The text of a float: [float.__repr__], but for the infinities. *)
Definition float_text (r : pystr) : pystr :=
  if decide (r = lit "inf") then lit "Infinity"
  else if decide (r = lit "-inf") then lit "-Infinity"
  else r.

(** ['\n' + ' ' * (4 * level)] *)
Definition newline_indent (level : nat) : pystr :=
  10 :: replicate (4 * level) 32.

(** The text of [v] at nesting depth [level], when every integer of [v] can
    be written ([dump_at] below covers the others).  An empty list or dict is
    written without a line break; the items of a non-empty one each start a
    line, indented four columns deeper, and are separated by a comma. *)
Fixpoint dumps_at (level : nat) (v : json) {struct v} : pystr :=
  match v with
  | JNull => lit "null"
  | JBool true => lit "true"
  | JBool false => lit "false"
  | JInt n => int_repr n
  | JFloat r => float_text r
  | JStr s => encode_str s
  | JArr [] => lit "[]"
  | JArr l =>
      lit "[" ++ newline_indent (S level) ++
      str_join (lit "," ++ newline_indent (S level)) (dumps_at (S level) <$> l) ++
      newline_indent level ++ lit "]"
  | JObj [] => lit "{}"
  | JObj kvs =>
      lit "{" ++ newline_indent (S level) ++
      str_join (lit "," ++ newline_indent (S level))
        ((λ kv, encode_str kv.1 ++ lit ": " ++ dumps_at (S level) kv.2) <$> kvs) ++
      newline_indent level ++ lit "}"
  end.

(** [json.dumps(v, indent=4)], the text [json.dump] writes when it returns. *)
Definition json_dumps (v : json) : pystr := dumps_at 0 v.

Definition is_container (v : json) : bool :=
  match v with
  | JArr _ | JObj _ => true
  | _ => false
  end.

(** The items of a list, as [json.dump] writes them: an item goes out in
    one chunk with [buf], the bracket or the separator before it, unless it
    is a list or a dict itself; an item that raises takes [buf] with it. *)
Definition dump_items (dump : json → pystr * res unit) (sep : pystr)
  : pystr → list json → pystr * res unit :=
  fix items (buf : pystr) (l : list json) {struct l} : pystr * res unit :=
    match l with
    | [] => ([], Ok tt)
    | x :: l' =>
        match dump x with
        | (t, Ok _) => let '(t', r) := items sep l' in (buf ++ t ++ t', r)
        | (t, Raise e) => (if is_container x then buf ++ t else [], Raise e)
        end
    end.

(** The members of a dict: the key and the colon go out before the value. *)
Definition dump_members (dump : json → pystr * res unit) (sep : pystr)
  : pystr → list (pystr * json) → pystr * res unit :=
  fix members (buf : pystr) (kvs : list (pystr * json)) {struct kvs}
    : pystr * res unit :=
    match kvs with
    | [] => ([], Ok tt)
    | kv :: kvs' =>
        match dump kv.2 with
        | (t, Ok _) =>
            let '(t', r) := members sep kvs' in
            (buf ++ encode_str kv.1 ++ lit ": " ++ t ++ t', r)
        | (t, Raise e) => (buf ++ encode_str kv.1 ++ lit ": " ++ t, Raise e)
        end
    end.

(** What [json.dump] writes of [v] at depth [level], and how it ends.  The
    encoder hands out the text in chunks, and an integer that [int.__repr__]
    refuses ends the call with the chunks before it written. *)
Fixpoint dump_at (level : nat) (v : json) {struct v} : pystr * res unit :=
  match v with
  | JInt n =>
      if int_str_ok n then (int_repr n, Ok tt) else ([], Raise ValueError)
  | JArr [] => (lit "[]", Ok tt)
  | JArr l =>
      match dump_items (dump_at (S level)) (lit "," ++ newline_indent (S level))
              (lit "[" ++ newline_indent (S level)) l with
      | (t, Ok _) => (t ++ newline_indent level ++ lit "]", Ok tt)
      | (t, Raise e) => (t, Raise e)
      end
  | JObj [] => (lit "{}", Ok tt)
  | JObj kvs =>
      match dump_members (dump_at (S level)) (lit "," ++ newline_indent (S level))
              (lit "{" ++ newline_indent (S level)) kvs with
      | (t, Ok _) => (t ++ newline_indent level ++ lit "}", Ok tt)
      | (t, Raise e) => (t, Raise e)
      end
  | _ => (dumps_at level v, Ok tt)
  end.

(** [json.dump(v, out_f, indent=4)]: the text that reaches the file, and the
    outcome. *)
Definition json_dump (v : json) : pystr * res unit := dump_at 0 v.

(** ** Reading JSON text: [json.load] *)

Definition is_ws (c : N) : bool := bool_decide (c ∈ [32; 9; 10; 13]).

Fixpoint skip_ws (s : pystr) : pystr :=
  match s with
  | c :: r => if is_ws c then skip_ws r else s
  | [] => []
  end.

Definition hex_val (c : N) : option N :=
  if (48 <=? c) && (c <=? 57) then Some (c - 48)
  else if (97 <=? c) && (c <=? 102) then Some (c - 87)
  else if (65 <=? c) && (c <=? 70) then Some (c - 55)
  else None.

(** The four hexadecimal digits of a [\uXXXX] escape. *)
Definition decode_uXXXX (h1 h2 h3 h4 : N) : res N :=
  match hex_val h1, hex_val h2, hex_val h3, hex_val h4 with
  | Some a, Some b, Some c, Some d => Ok (((a * 16 + b) * 16 + c) * 16 + d)
  | _, _, _, _ => Raise JSONDecodeError
  end.

Definition is_high_surrogate (c : N) : bool := (55296 <=? c) && (c <=? 56319).
Definition is_low_surrogate (c : N) : bool := (56320 <=? c) && (c <=? 57343).

(** The character of a one-letter escape. *)
Definition backslash_char (e : N) : res N :=
  if decide (e = 34) then Ok 34
  else if decide (e = 92) then Ok 92
  else if decide (e = 47) then Ok 47
  else if decide (e = 98) then Ok 8
  else if decide (e = 102) then Ok 12
  else if decide (e = 110) then Ok 10
  else if decide (e = 114) then Ok 13
  else if decide (e = 116) then Ok 9
  else Raise JSONDecodeError.

(** [scanstring], after the opening quote, in strict mode: the characters
    up to the closing quote, escapes decoded, and the text after it.  A high
    surrogate escape directly followed by a low surrogate escape is one
    character. *)
Fixpoint scanstring (acc : pystr) (s : pystr) : res (pystr * pystr) :=
  match s with
  | [] => Raise JSONDecodeError
  | c :: r =>
      if decide (c = 34) then Ok (reverse acc, r)
      else if decide (c = 92) then
        match r with
        | [] => Raise JSONDecodeError
        | e :: r1 =>
            if decide (e = 117) then
              match r1 with
              | h1 :: h2 :: h3 :: h4 :: r2 =>
                  match decode_uXXXX h1 h2 h3 h4 with
                  | Raise e => Raise e
                  | Ok uni =>
                      match r2 with
                      | b :: u :: l1 :: l2 :: l3 :: l4 :: r4 =>
                          if is_high_surrogate uni && bool_decide (b = 92)
                             && bool_decide (u = 117) then
                            match decode_uXXXX l1 l2 l3 l4 with
                            | Raise e => Raise e
                            | Ok uni2 =>
                                if is_low_surrogate uni2 then
                                  scanstring
                                    (65536 + N.lor (N.shiftl (uni - 55296) 10)
                                                   (uni2 - 56320) :: acc) r4
                                else scanstring (uni :: acc) r2
                            end
                          else scanstring (uni :: acc) r2
                      | b :: u :: _ =>
                          if is_high_surrogate uni && bool_decide (b = 92)
                             && bool_decide (u = 117) then Raise JSONDecodeError
                          else scanstring (uni :: acc) r2
                      | _ => scanstring (uni :: acc) r2
                      end
                  end
              | _ => Raise JSONDecodeError
              end
            else
              match backslash_char e with
              | Raise e => Raise e
              | Ok ch => scanstring (ch :: acc) r1
              end
        end
      else if c <? 32 then Raise JSONDecodeError
      else scanstring (c :: acc) r
  end.

Definition is_digit (c : N) : bool := (48 <=? c) && (c <=? 57).

(** [s] does not go on with a digit. *)
Definition no_digit (s : pystr) : Prop :=
  match s with c :: _ => is_digit c = false | [] => True end.

(** The digit [c] put in front of the digits [u]. *)
Definition digit_cons (c : N) (u : Decimal.uint) : Decimal.uint :=
  if decide (c = 48) then Decimal.D0 u
  else if decide (c = 49) then Decimal.D1 u
  else if decide (c = 50) then Decimal.D2 u
  else if decide (c = 51) then Decimal.D3 u
  else if decide (c = 52) then Decimal.D4 u
  else if decide (c = 53) then Decimal.D5 u
  else if decide (c = 54) then Decimal.D6 u
  else if decide (c = 55) then Decimal.D7 u
  else if decide (c = 56) then Decimal.D8 u
  else Decimal.D9 u.

(** The decimal digits at the head of [s], and the text after them. *)
Fixpoint scan_digits (s : pystr) : Decimal.uint * pystr :=
  match s with
  | c :: r =>
      if is_digit c then
        let '(u, r') := scan_digits r in
        (digit_cons c u, r')
      else (Decimal.Nil, s)
  | [] => (Decimal.Nil, [])
  end.

(** The integer part of a number, [0|[1-9]\d*]. *)
Definition scan_int (s : pystr) : option (Decimal.uint * pystr) :=
  match s with
  | c :: r =>
      if decide (c = 48) then Some (Decimal.D0 Decimal.Nil, r)
      else if is_digit c then Some (scan_digits s)
      else None
  | [] => None
  end.

(** The digits at the head of [s], as they are written, and the text after
    them. *)
Fixpoint span_digits (s : pystr) : pystr * pystr :=
  match s with
  | c :: r =>
      if is_digit c then let '(ds, r') := span_digits r in (c :: ds, r')
      else ([], s)
  | [] => ([], [])
  end.

(** A fraction [\.\d+] at the head of [s], if there is one. *)
Definition scan_frac (s : pystr) : pystr * pystr :=
  match s with
  | dot :: r =>
      if bool_decide (dot = 46) then
        match span_digits r with
        | ([], _) => ([], s)
        | (ds, r') => (dot :: ds, r')
        end
      else ([], s)
  | [] => ([], s)
  end.

(** An exponent [[eE][-+]?\d+] at the head of [s], if there is one. *)
Definition scan_exp (s : pystr) : pystr * pystr :=
  match s with
  | e :: r =>
      if bool_decide (e ∈ [101; 69]) then
        let '(sign, r1) :=
          match r with
          | c :: r' => if bool_decide (c ∈ [45; 43]) then ([c], r') else ([], r)
          | [] => ([], r)
          end in
        match span_digits r1 with
        | ([], _) => ([], s)
        | (ds, r2) => (e :: sign ++ ds, r2)
        end
      else ([], s)
  | [] => ([], s)
  end.

(** What [match_number] finds: an integer, or the text of a number with a
    fraction or an exponent. *)
Inductive number_token : Type :=
  | IntTok (n : Z)
  | FloatTok (text : list N).

Definition scan_number_token (s : pystr) : option (number_token * pystr) :=
  let '(neg, s1) := match s with
                    | c :: r => if decide (c = 45) then (true, r) else (false, s)
                    | [] => (false, s)
                    end in
  match scan_int s1 with
  | Some (u, r) =>
      let '(frac, r1) := scan_frac r in
      let '(exp, r2) := scan_exp r1 in
      match frac ++ exp with
      | [] =>
          let n := Z.of_N (N.of_uint u) in
          Some (IntTok (if neg then (- n)%Z else n), r)
      | tail =>
          Some (FloatTok ((if neg then [45] else []) ++ uint_chars u ++ tail), r2)
      end
  | None => None
  end.

(** The text of a [float] in the input. *)
Definition float_literal (t : pystr) : Prop :=
  ∃ s r, scan_number_token s = Some (FloatTok t, r).

Section Scanner.
(** [repr(float(t))] for the text [t] of a number: the shortest text that
    denotes the float nearest to [t] ("inf" beyond the range). *)
Variable float_repr : list N → list N.

(** A number, or one of [Infinity], [-Infinity], [NaN].  An integer of more
    than 4300 digits is a [ValueError] of [int(text)].  [NaN] is not JSON
    and loads as a value that equals nothing, itself included; a text with
    it is outside this embedding, [NaNNotModelled] marks it. *)
Definition scan_number (s : pystr) : res (json * pystr) :=
  match scan_number_token s with
  | Some (IntTok n, r) =>
      if int_str_ok n then Ok (JInt n, r) else Raise ValueError
  | Some (FloatTok t, r) => Ok (JFloat (float_repr t), r)
  | None =>
      if startswith (lit "NaN") s then Raise NaNNotModelled
      else if startswith (lit "Infinity") s then Ok (JFloat (lit "inf"), drop 8 s)
      else if startswith (lit "-Infinity") s then Ok (JFloat (lit "-inf"), drop 9 s)
      else Raise JSONDecodeError
  end.

(** [dict(pairs)]: a later pair with a known key replaces the value. *)
Definition dict_of_pairs (pairs : list (pystr * json)) : list (pystr * json) :=
  foldl (λ d kv, dict_set kv.1 kv.2 d) [] pairs.

(** The scanner.  [fuel] bounds the nesting of the calls; [json_loads] gives
    enough of it for any text (see [scan_fuel_enough] and [json_loads_fuel]). *)
Fixpoint scan_once (fuel : nat) (s : pystr) : res (json * pystr) :=
  match fuel with
  | O => Raise OutOfFuel
  | S fuel =>
      match s with
      | [] => Raise JSONDecodeError
      | c :: r =>
          if decide (c = 34) then
            do (str, r') <- scanstring [] r; Ok (JStr str, r')
          else if decide (c = 123) then
            do (pairs, r') <- parse_object fuel r;
            Ok (JObj (dict_of_pairs pairs), r')
          else if decide (c = 91) then
            do (values, r') <- parse_array fuel r; Ok (JArr values, r')
          else if startswith (lit "null") s then Ok (JNull, drop 4 s)
          else if startswith (lit "true") s then Ok (JBool true, drop 4 s)
          else if startswith (lit "false") s then Ok (JBool false, drop 5 s)
          else scan_number s
      end
  end
with parse_array (fuel : nat) (s : pystr) : res (list json * pystr) :=
  match fuel with
  | O => Raise OutOfFuel
  | S fuel =>
      match skip_ws s with
      | [] => array_items fuel []
      | c :: r => if decide (c = 93) then Ok ([], r) else array_items fuel (c :: r)
      end
  end
with array_items (fuel : nat) (s : pystr) : res (list json * pystr) :=
  match fuel with
  | O => Raise OutOfFuel
  | S fuel =>
      do (value, r) <- scan_once fuel s;
      match skip_ws r with
      | [] => Raise JSONDecodeError
      | c :: r' =>
          if decide (c = 93) then Ok ([value], r')
          else if decide (c = 44) then
            do (values, r'') <- array_items fuel (skip_ws r');
            Ok (value :: values, r'')
          else Raise JSONDecodeError
      end
  end
with parse_object (fuel : nat) (s : pystr) : res (list (pystr * json) * pystr) :=
  match fuel with
  | O => Raise OutOfFuel
  | S fuel =>
      match skip_ws s with
      | [] => Raise JSONDecodeError
      | c :: r =>
          if decide (c = 125) then Ok ([], r)
          else if decide (c = 34) then object_items fuel r
          else Raise JSONDecodeError
      end
  end
with object_items (fuel : nat) (s : pystr) : res (list (pystr * json) * pystr) :=
  match fuel with
  | O => Raise OutOfFuel
  | S fuel =>
      do (key, r) <- scanstring [] s;
      match skip_ws r with
      | [] => Raise JSONDecodeError
      | colon :: r1 =>
          if decide (colon = 58) then
            do (value, r2) <- scan_once fuel (skip_ws r1);
            match skip_ws r2 with
            | [] => Raise JSONDecodeError
            | c :: r3 =>
                if decide (c = 125) then Ok ([(key, value)], r3)
                else if decide (c = 44) then
                  match skip_ws r3 with
                  | [] => Raise JSONDecodeError
                  | q :: r4 =>
                      if decide (q = 34) then
                        do (pairs, r5) <- object_items fuel r4;
                        Ok ((key, value) :: pairs, r5)
                      else Raise JSONDecodeError
                  end
                else Raise JSONDecodeError
            end
          else Raise JSONDecodeError
      end
  end.

(** [json.loads(s)]: no byte order mark, one value, white space around it
    and nothing else. *)
Definition json_loads (s : pystr) : res json :=
  if startswith [65279] s then Raise JSONDecodeError
  else
    do (obj, r) <- scan_once (3 * length s + 3) (skip_ws s);
    match skip_ws r with
    | [] => Ok obj
    | _ => Raise JSONDecodeError
    end.


(** ** The values [json.load] builds *)

(** What follows a value in the text [json.dump] writes: a comma, a line
    break, or the end. *)
Definition delim (rest : list N) : Prop :=
  match rest with
  | [] => True
  | c :: _ => c = 44 ∨ c = 10
  end.

(** The text of a float of a loaded value: an infinity, or a text that is
    read back as itself. *)
Definition canonical (r : pystr) : Prop :=
  r = lit "inf" ∨ r = lit "-inf" ∨
  ∀ rest, delim rest → scan_number (r ++ rest) = Ok (JFloat r, rest).

(** What is known of [repr(float(t))]: for a number [t] of the input it is
    an infinity or the text of a number that is read back as itself. *)
Definition repr_canonical : Prop :=
  ∀ t, float_literal t → canonical (float_repr t).

(** A string of a loaded value: code points up to U+10FFFF, and no high
    surrogate directly before a low one (the scanner joins such a pair into
    one character). *)
Fixpoint str_ok (s : pystr) : Prop :=
  match s with
  | [] => True
  | a :: t =>
      a ≤ 1114111 ∧
      (is_high_surrogate a = true →
       match t with b :: _ => is_low_surrogate b = false | [] => True end) ∧
      str_ok t
  end.

(** Every string and key is [str_ok], every float [canonical], every
    integer has at most 4300 digits; the keys of a dict are distinct. *)
Fixpoint json_wf (v : json) : Prop :=
  match v with
  | JInt n => int_str_ok n = true
  | JFloat r => canonical r
  | JStr s => str_ok s
  | JArr l =>
      (fix all (l : list json) : Prop :=
         match l with
         | [] => True
         | x :: l' => json_wf x ∧ all l'
         end) l
  | JObj kvs =>
      NoDup kvs.*1 ∧
      (fix all (kvs : list (pystr * json)) : Prop :=
         match kvs with
         | [] => True
         | kv :: kvs' => str_ok kv.1 ∧ json_wf kv.2 ∧ all kvs'
         end) kvs
  | _ => True
  end.

(** The text of a file read with [encoding='utf-8']: Unicode scalar values,
    that is code points up to U+10FFFF that are no surrogates. *)
Definition text_ok (s : pystr) : Prop :=
  Forall (λ c, c ≤ 1114111 ∧ is_high_surrogate c = false ∧
               is_low_surrogate c = false) s.

End Scanner.


(** ** The file system and the console *)

(** The files with their text, the directories, and the lines printed so
    far, for a process on a POSIX system.  [files] and [dirs] are keyed by
    path strings.  Directories are made and files written through
    [makedirs] and [write_text], which take a relative path of plain names:
    no empty name, no [.] and no [..].  Two such strings name one file only
    when they are equal (links, and file systems that fold or normalise
    names, left aside), so that the string stands for the file; a path of
    another form ends the operation with [PathNotModelled].  A world is read
    as a file system: what lies above a file or a directory in it is a
    directory in it.  Failures that depend on the machine (a full disk, a
    missing permission, a name too long for the file system) are not
    modelled. *)
Record world : Type := World {
  files : gmap (list N) (list N);
  dirs : gset (list N);
  stdout : list (list N)
}.

(** [os.path.exists(path)] *)
Definition path_exists (path : pystr) (w : world) : bool :=
  bool_decide (is_Some (files w !! path)) || bool_decide (path ∈ dirs w).

(** [print(line)] *)
Definition print (line : pystr) (w : world) : world :=
  World (files w) (dirs w) (stdout w ++ [line]).

(** [open(path, 'r', encoding='utf-8')] and reading it whole. *)
Definition read_text (path : pystr) (w : world) : res pystr :=
  match files w !! path with
  | Some text => Ok text
  | None =>
      if bool_decide (path ∈ dirs w) then Raise IsADirectoryError
      else Raise FileNotFoundError
  end.

(** The names between the slashes of [s]; [cur] is the name under way. *)
Fixpoint split_names (cur s : pystr) : list pystr :=
  match s with
  | [] => [cur]
  | c :: s' =>
      if decide (c = 47) then cur :: split_names [] s'
      else split_names (cur ++ [c]) s'
  end.

(** [path.split('/')] *)
Definition path_names (path : pystr) : list pystr := split_names [] path.

Definition plain_name (n : pystr) : bool :=
  bool_decide (n ≠ [] ∧ n ≠ lit "." ∧ n ≠ lit "..").

(** A relative path of plain names. *)
Definition plain_path (path : pystr) : bool :=
  forallb plain_name (path_names path).

(** The directories above the path [pre ++ s] that end in [s], the nearest
    last. *)
Fixpoint parents_from (pre s : pystr) : list pystr :=
  match s with
  | [] => []
  | c :: s' =>
      (if decide (c = 47) then [pre] else []) ++ parents_from (pre ++ [c]) s'
  end.

(** The directories above [path], the nearest last. *)
Definition parents (path : pystr) : list pystr := parents_from [] path.

(** The file system encoding is UTF-8 with [surrogateescape]: the surrogates
    U+DC80 to U+DCFF stand for bytes, the other surrogates have no
    encoding. *)
Definition encodable (c : N) : bool :=
  negb ((55296 <=? c) && (c <=? 57343)) || (56448 <=? c) && (c <=? 56575).

(** A path on its way to the operating system: it is encoded, and it must
    not hold a null character. *)
Definition fs_encode (path : pystr) : res unit :=
  if negb (forallb encodable path) then Raise UnicodeEncodeError
  else if bool_decide (0 ∈ path) then Raise ValueError
  else Ok tt.

(** [os.makedirs] goes down the path and makes what is missing.  A
    directory that cannot be encoded ends it when its turn comes, the ones
    above it made.  A file in the way ends it: with [FileExistsError] when
    the file is at the path itself, and otherwise where the directory below
    the file is to be made, with the error of its encoding or with
    [NotADirectoryError]. *)
Fixpoint make_each (qs : list pystr) (w : world) : world * res unit :=
  match qs with
  | [] => (w, Ok tt)
  | q :: rest =>
      match fs_encode q with
      | Raise e => (w, Raise e)
      | Ok _ =>
          match files w !! q with
          | Some _ =>
              (w, Raise (match rest with
                         | [] => FileExistsError
                         | q' :: _ =>
                             match fs_encode q' with
                             | Raise e => e
                             | Ok _ => NotADirectoryError
                             end
                         end))
          | None => make_each rest (World (files w) ({[q]} ∪ dirs w) (stdout w))
          end
      end
  end.

(** [path] without the slash at its end, if it has one. *)
Definition strip_slash (path : pystr) : pystr :=
  if endswith (lit "/") path then take (length path - 1) path else path.

(** [os.makedirs(path, exist_ok=True)]; a slash at the end of [path] changes
    nothing. *)
Definition makedirs (path : pystr) (w : world) : world * res unit :=
  let p := strip_slash path in
  if plain_path p then make_each (parents p ++ [p]) w
  else (w, Raise PathNotModelled).

(** The directories above a file to be opened: each must be there. *)
Fixpoint check_dirs (qs : list pystr) (w : world) : res unit :=
  match qs with
  | [] => Ok tt
  | q :: rest =>
      match files w !! q with
      | Some _ => Raise NotADirectoryError
      | None =>
          if bool_decide (q ∈ dirs w) then check_dirs rest w
          else Raise FileNotFoundError
      end
  end.

(** [open(path, 'w', encoding='utf-8')], writing [text], and closing: the
    file is created or overwritten.  A directory at [path] is an
    [IsADirectoryError]. *)
Definition write_text (path text : pystr) (w : world) : world * res unit :=
  if plain_path path then
    match fs_encode path with
    | Raise e => (w, Raise e)
    | Ok _ =>
        match check_dirs (parents path) w with
        | Raise e => (w, Raise e)
        | Ok _ =>
            if bool_decide (path ∈ dirs w) then (w, Raise IsADirectoryError)
            else (World (<[path := text]> (files w)) (dirs w) (stdout w), Ok tt)
        end
    end
  else (w, Raise PathNotModelled).

(** The body of the loop, lines 19-60, for one record.  The directory is
    made before the name of the file is computed, and the file is opened
    before [json.dump] runs: if [json.dump] raises, the file holds what was
    written up to then. *)
Definition process_card (output_root : pystr) (card : json) (w : world)
  : world * res unit :=
  match target_dir output_root card with
  | Raise e => (w, Raise e)
  | Ok dir =>
      match makedirs dir w with
      | (w1, Raise e) => (w1, Raise e)
      | (w1, Ok _) =>
          match file_name card with
          | Raise e => (w1, Raise e)
          | Ok name =>
              let '(text, r) := json_dump card in
              match write_text (os_path_join dir [name]) text w1 with
              | (w2, Raise e) => (w2, Raise e)
              | (w2, Ok _) => (w2, r)
              end
          end
      end
  end.

(** The loop of line 18: record after record; an exception ends the run and
    leaves what was written. *)
Fixpoint process_cards (output_root : pystr) (cards : list json) (w : world)
  : world * res unit :=
  match cards with
  | [] => (w, Ok tt)
  | card :: rest =>
      match process_card output_root card w with
      | (w', Ok _) => process_cards output_root rest w'
      | (w', Raise e) => (w', Raise e)
      end
  end.

Section EntryPoint.
(** [repr(float(t))], see [scan_number]. *)
Variable float_repr : list N → list N.

(** [os.path.abspath], which depends on the working directory of the
    process; only the last message uses it. *)
Variable abspath : list N → list N.

(** [organize_scryfall_data(input_file, output_root)] *)
Definition organize_scryfall_data (input_file output_root : pystr) (w : world)
  : world * res unit :=
  if negb (path_exists input_file w) then
    (print (lit "Error: " ++ input_file ++
            lit " not found. Please ensure it is in the root directory.") w,
     Ok tt)
  else
    let w := print (lit "Reading dataset... this may take a moment.") w in
    match read_text input_file w with
    | Raise e => (w, Raise e)
    | Ok text =>
        match json_loads float_repr text with
        | Raise e => (w, Raise e)
        | Ok cards =>
            match py_iter cards with
            | Raise e => (w, Raise e)
            | Ok items =>
                match process_cards output_root items w with
                | (w', Raise e) => (w', Raise e)
                | (w', Ok _) =>
                    (print (lit "Success! Data organized into: " ++
                            abspath output_root) w', Ok tt)
                end
            end
        end
    end.

(** The call of line 65, with the default arguments. *)
Definition main (w : world) : world * res unit :=
  organize_scryfall_data (lit "oracle-cards.json") (lit "Scryfall_Organized") w.
End EntryPoint.


(** ** What a run does to the file system *)

(** The two operations of the loop body. *)
Inductive op : Type :=
  | MkDir (path : list N)
  | WriteFile (path text : list N).

Definition apply_op (w : world) (o : op) : world * res unit :=
  match o with
  | MkDir path => makedirs path w
  | WriteFile path text => write_text path text w
  end.

(** The operations in order, up to the first that fails. *)
Fixpoint exec (ops : list op) (w : world) : world * res unit :=
  match ops with
  | [] => (w, Ok tt)
  | o :: rest =>
      match apply_op w o with
      | (w', Ok _) => exec rest w'
      | (w', Raise e) => (w', Raise e)
      end
  end.

(** [r] after the operations [ops], if they all succeed. *)
Definition exec_then (ops : list op) (r : res unit) (w : world)
  : world * res unit :=
  match exec ops w with
  | (w', Ok _) => (w', r)
  | (w', Raise e) => (w', Raise e)
  end.

(** The operations a record asks for, and how its step ends when they
    succeed.  They are computed from the record and the output root
    alone. *)
Definition card_ops (output_root : pystr) (card : json) : list op * res unit :=
  match target_dir output_root card with
  | Raise e => ([], Raise e)
  | Ok dir =>
      match file_name card with
      | Raise e => ([MkDir dir], Raise e)
      | Ok name =>
          let '(text, r) := json_dump card in
          ([MkDir dir; WriteFile (os_path_join dir [name]) text], r)
      end
  end.

Fixpoint cards_ops (output_root : pystr) (cards : list json) : list op * res unit :=
  match cards with
  | [] => ([], Ok tt)
  | card :: rest =>
      match card_ops output_root card with
      | (ops, Ok _) =>
          let '(ops', r) := cards_ops output_root rest in (ops ++ ops', r)
      | (ops, Raise e) => (ops, Raise e)
      end
  end.



(** [o] has been done in [w], and doing it again changes nothing but the
    text of the file: the directories it needs are there, and so is its
    file. *)
Definition is_dir (w : world) (q : pystr) : Prop :=
  files w !! q = None ∧ q ∈ dirs w.

Definition done_op (w : world) (o : op) : Prop :=
  match o with
  | MkDir path =>
      let p := strip_slash path in
      plain_path p = true ∧
      Forall (λ q, fs_encode q = Ok tt ∧ is_dir w q) (parents p ++ [p])
  | WriteFile path _ =>
      plain_path path = true ∧ fs_encode path = Ok tt ∧
      Forall (is_dir w) (parents path) ∧
      (path ∉ dirs w) ∧ is_Some (files w !! path)
  end.

(** Two worlds with the same directories and files at the same paths. *)
Definition same_kinds (w v : world) : Prop :=
  dirs w = dirs v ∧ ∀ q, files w !! q = None ↔ files v !! q = None.





(** ** A small run *)

(** An input document with the records of scenarios B and C. *)
Definition plains : json :=
  JObj [(lit "name", JStr (lit "Plains"));
        (lit "cmc", JFloat (lit "0.0"));
        (lit "colors", JArr []);
        (lit "type_line", JStr (lit "Basic Land" ++ [32; 8212; 32] ++ lit "Plains"))].

Definition demo_world : world :=
  World {[ lit "oracle-cards.json" :=
             json_dumps (JArr [plains;
                               JObj [(lit "name", JStr (lit "Fire // Ice"));
                                     (lit "colors", JArr []);
                                     (lit "card_faces",
                                      JArr [JObj [(lit "colors", JArr [JStr (lit "R")])];
                                            JObj [(lit "colors", JArr [JStr (lit "U")])]]);
                                     (lit "type_line", JStr (lit "Instant // Instant"))]]) ]}
        ∅ [].

(** The working directory of the small run. *)
Definition demo_abspath (path : pystr) : pystr := lit "/home/user/" ++ path.

(** The floats of the small runs: a number of the text is taken to be
    written as [repr] writes it. *)
Definition demo_float_repr (t : pystr) : pystr := t.

(** Two records with one name and one type line, as the tokens of the real
    export have them. *)
Definition elemental_flying : json :=
  JObj [(lit "name", JStr (lit "Elemental"));
        (lit "cmc", JFloat (lit "0.0"));
        (lit "oracle_text", JStr (lit "Flying"))].

Definition elemental_haste : json :=
  JObj [(lit "name", JStr (lit "Elemental"));
        (lit "cmc", JFloat (lit "0.0"));
        (lit "oracle_text", JStr (lit "Haste"))].

Definition tokens_world : world :=
  World {[ lit "oracle-cards.json" :=
             json_dumps (JArr [elemental_flying; elemental_haste]) ]} ∅ [].


(** ** Predicates of the properties, and the records of the examples *)

Definition legal_str (s : pystr) : Prop := Forall (λ c, c ∉ illegal_chars) s.

Global Instance legal_str_dec s : Decision (legal_str s).
Proof. unfold legal_str. apply _. Defined.

(** The record of scenario D. *)
Definition kix_card : json := JObj [(lit "name", JStr (lit "Kix <Test>"))].

(** The text between the first occurrence of the separator and the next one
    after it (the end of the line when there is none). *)
Definition second_segment (t : pystr) : option pystr :=
  match find subtype_sep t with
  | None => None
  | Some i =>
      let rest := drop (i + length subtype_sep) t in
      Some (match find subtype_sep rest with
            | None => rest
            | Some j => take j rest
            end)
  end.

(** The claim as the specification words it: everything after the first
    occurrence of the separator, spaces replaced, sanitized. *)
Definition claimed_sub_type_folder (t : pystr) : pystr :=
  match find subtype_sep t with
  | None => lit "No_Subtype"
  | Some i =>
      sanitize_name (str_replace1 32 (lit "_") (drop (i + length subtype_sep) t))
  end.

(** A type line with two separators, as on a two-faced card:
    "Creature — Human // Creature — Werewolf". *)
Definition two_faced_type_line : pystr :=
  lit "Creature" ++ subtype_sep ++ lit "Human // Creature" ++ subtype_sep
    ++ lit "Werewolf".

Definition two_faced_card : json :=
  JObj [(lit "name", JStr (lit "Huntmaster"));
        (lit "type_line", JStr two_faced_type_line)].

(** "Legendary Snow Creature — Basic Elk": the names come out in the order
    of the list, not of the line. *)
Definition snow_elk : json :=
  JObj [(lit "type_line",
         JStr (lit "Legendary Snow Creature" ++ subtype_sep ++ lit "Basic Elk"))].

(** The claim as the specification words it: the letters deduplicated,
    sorted, concatenated. *)
Definition claimed_color_folder (strs : list pystr) : pystr :=
  concat (py_sorted (remove_dups strs)).

(** A record that lists a color twice. *)
Definition twice_red : json :=
  JObj [(lit "name", JStr (lit "Twice Red"));
        (lit "colors", JArr [JStr (lit "R"); JStr (lit "R")])].

(** A face is a dict whose [colors] is the list of strings [cs]; a face
    without the field has none. *)
Definition face_has_colors (face : json) (cs : list pystr) : Prop :=
  ∃ fk, face = JObj fk ∧
    default (JArr []) (dict_lookup (lit "colors") fk) = JArr (JStr <$> cs).

(** Scenario C: "Fire // Ice", colors on the faces only. *)
Definition fire_ice : json :=
  JObj [(lit "name", JStr (lit "Fire // Ice"));
        (lit "colors", JArr []);
        (lit "card_faces",
         JArr [JObj [(lit "colors", JArr [JStr (lit "R")])];
               JObj [(lit "colors", JArr [JStr (lit "U")])]]);
        (lit "type_line", JStr (lit "Instant // Instant"))].

(** The strings a loop over [v] yields: the items of a list that are
    strings, the characters of a string, the keys of a dict. *)
Definition iter_strs (v : json) : list pystr :=
  match v with
  | JArr l => omap (λ x, match x with JStr s => Some s | _ => None end) l
  | JStr s => (λ c, [c]) <$> s
  | JObj kvs => kvs.*1
  | _ => []
  end.

(** The color strings of the faces of a [card_faces] list. *)
Definition face_strs (card_faces : json) : list pystr :=
  match card_faces with
  | JArr faces =>
      concat ((λ face,
                 match face with
                 | JObj fk =>
                     iter_strs (default (JArr []) (dict_lookup (lit "colors") fk))
                 | _ => []
                 end) <$> faces)
  | _ => []
  end.

(** The color strings of a record that make up its color folder: those of
    its own [colors] when that is not empty, otherwise those of the [colors]
    of its faces. *)
Definition folder_colors (kvs : list (pystr * json)) : list pystr :=
  let own := default (JArr []) (dict_lookup (lit "colors") kvs) in
  if truthy own then iter_strs own
  else
    match dict_lookup (lit "card_faces") kvs with
    | Some card_faces => face_strs card_faces
    | None => []
    end.

(** "Fire // Ice" with the texts of its faces: the second holds a colon. *)
Definition fire_ice_texts : json :=
  JObj [(lit "name", JStr (lit "Fire // Ice"));
        (lit "colors", JArr []);
        (lit "card_faces",
         JArr [JObj [(lit "name", JStr (lit "Fire"));
                     (lit "oracle_text", JStr (lit "Fire deals 2 damage."));
                     (lit "colors", JArr [JStr (lit "R")])];
               JObj [(lit "name", JStr (lit "Ice"));
                     (lit "oracle_text", JStr (lit "{T}: Tap target permanent."));
                     (lit "colors", JArr [JStr (lit "U")])]]);
        (lit "type_line", JStr (lit "Instant // Instant"))].

(** A record whose color is written as a hybrid, "W/U". *)
Definition hybrid_card : json :=
  JObj [(lit "name", JStr (lit "Hybrid"));
        (lit "colors", JArr [JStr (lit "W/U")])].

(** What may follow a high surrogate in the text of a string: no escape of a
    low surrogate. *)
Definition no_low_escape (tail : list N) : Prop :=
  startswith [92; 117] tail = false ∨
  ∃ l1 l2 l3 l4 uni2 r,
    tail = 92 :: 117 :: l1 :: l2 :: l3 :: l4 :: r ∧
    decode_uXXXX l1 l2 l3 l4 = Ok uni2 ∧ is_low_surrogate uni2 = false.

Section ScannerPredicates.
Variable float_repr : list N → list N.

(** The scanner reads the text of [v] back, whatever follows it. *)
Definition reads_back (v : json) : Prop :=
  json_wf float_repr v → ∀ level rest fuel,
  delim rest →
  (3 * length (dumps_at level v ++ rest) + 1 ≤ fuel)%nat →
  scan_once float_repr fuel (dumps_at level v ++ rest) = Ok (v, rest).

(** One step of [scanstring]: from the text [s] it takes the character [c]
    and goes on with [s']. *)
Inductive scan_step : list N → N → list N → Prop :=
  | step_plain c r :
      c ≠ 34 → c ≠ 92 → 32 ≤ c → scan_step (c :: r) c r
  | step_short e ch r :
      e ≠ 117 → backslash_char e = Ok ch → scan_step (92 :: e :: r) ch r
  | step_u h1 h2 h3 h4 uni r2 :
      decode_uXXXX h1 h2 h3 h4 = Ok uni →
      (is_high_surrogate uni = true → no_low_escape r2) →
      scan_step (92 :: 117 :: h1 :: h2 :: h3 :: h4 :: r2) uni r2
  | step_pair h1 h2 h3 h4 uni l1 l2 l3 l4 uni2 r4 :
      decode_uXXXX h1 h2 h3 h4 = Ok uni →
      decode_uXXXX l1 l2 l3 l4 = Ok uni2 →
      is_high_surrogate uni = true → is_low_surrogate uni2 = true →
      scan_step (92 :: 117 :: h1 :: h2 :: h3 :: h4 ::
                 92 :: 117 :: l1 :: l2 :: l3 :: l4 :: r4)
                (65536 + N.lor (N.shiftl (uni - 55296) 10) (uni2 - 56320)) r4.

(** [r] is what is left of [s] after reading at least one character. *)
Definition rest_of (r s : list N) : Prop :=
  suffix r s ∧ (length r < length s)%nat.

(** An entry of a loaded dict: a string as key, a loaded value. *)
Definition entry_wf (kv : list N * json) : Prop :=
  str_ok kv.1 ∧ json_wf float_repr kv.2.

(** What the scanner returns with [fuel]: the rest of the text, and a
    well-formed value when the text is that of a file and [repr] gives
    canonical texts. *)
Definition scan_ok (fuel : nat) : Prop :=
  (∀ s v r, scan_once float_repr fuel s = Ok (v, r) →
     rest_of r s ∧
     (repr_canonical float_repr → text_ok s → json_wf float_repr v)) ∧
  (∀ s vs r, parse_array float_repr fuel s = Ok (vs, r) →
     rest_of r s ∧
     (repr_canonical float_repr → text_ok s → Forall (json_wf float_repr) vs)) ∧
  (∀ s vs r, array_items float_repr fuel s = Ok (vs, r) →
     rest_of r s ∧
     (repr_canonical float_repr → text_ok s → Forall (json_wf float_repr) vs)) ∧
  (∀ s ps r, parse_object float_repr fuel s = Ok (ps, r) →
     rest_of r s ∧
     (repr_canonical float_repr → text_ok s → Forall entry_wf ps)) ∧
  (∀ s ps r, object_items float_repr fuel s = Ok (ps, r) →
     rest_of r s ∧
     (repr_canonical float_repr → text_ok s → Forall entry_wf ps)).

(** With [fuel] above three times the length of the text the scanner never
    runs out of it. *)
Definition fuel_enough (fuel : nat) : Prop :=
  (∀ s, (3 * length s + 1 ≤ fuel)%nat →
     scan_once float_repr fuel s ≠ Raise OutOfFuel) ∧
  (∀ s, (3 * length s + 3 ≤ fuel)%nat →
     parse_array float_repr fuel s ≠ Raise OutOfFuel) ∧
  (∀ s, (3 * length s + 2 ≤ fuel)%nat →
     array_items float_repr fuel s ≠ Raise OutOfFuel) ∧
  (∀ s, (3 * length s + 3 ≤ fuel)%nat →
     parse_object float_repr fuel s ≠ Raise OutOfFuel) ∧
  (∀ s, (3 * length s + 2 ≤ fuel)%nat →
     object_items float_repr fuel s ≠ Raise OutOfFuel).

End ScannerPredicates.

(** A text of printable ASCII characters and line feeds. *)
Definition ascii_text (s : pystr) : Prop :=
  Forall (λ c, c = 10 ∨ (32 ≤ c ∧ c ≤ 126)) s.

(** * Properties *)

(** ** Strings *)

Lemma startswith_app p rest : startswith p (p ++ rest) = true.
Proof. induction p as [|a p IH]; simpl; [done|]. by rewrite decide_True. Qed.

Lemma startswith_inv p s : startswith p s = true → s = p ++ drop (length p) s.
Proof.
  revert s. induction p as [|a p IH]; intros [|b s] Hs; simpl in *; try done.
  case_decide; [subst|done]. f_equal. by apply IH.
Qed.

Lemma startswith_occurs p s : startswith p s = true → occurs_in p s.
Proof. intros H. exists [], (drop (length p) s). by apply startswith_inv. Qed.

(** [find] returns the first index at which [sub] occurs. *)
Lemma find_Some sub s i :
  find sub s = Some i →
  s = take i s ++ sub ++ drop (i + length sub) s ∧
  ∀ j, (j < i)%nat → startswith sub (drop j s) = false.
Proof.
  revert i. induction s as [|c s IH]; intros i; simpl.
  - destruct (startswith sub []) eqn:Hp; [|done].
    intros [= <-]. split; [by apply startswith_inv in Hp|lia].
  - destruct (startswith sub (c :: s)) eqn:Hp.
    + intros [= <-]. split; [by apply startswith_inv in Hp|lia].
    + destruct (find sub s) as [k|] eqn:Hf; [|done].
      intros [= <-]. destruct (IH k eq_refl) as [Heq Hmin]. split.
      * simpl. by rewrite <- Heq.
      * intros [|j] Hj; [done|]. simpl. apply Hmin. lia.
Qed.

Lemma find_None sub s : find sub s = None → ¬ occurs_in sub s.
Proof.
  induction s as [|c s IH]; simpl.
  - destruct (startswith sub []) eqn:Hp; [done|].
    intros _ (pre & post & Heq). symmetry in Heq.
    apply app_eq_nil in Heq as [-> Heq]. apply app_eq_nil in Heq as [-> ->].
    done.
  - destruct (startswith sub (c :: s)) eqn:Hp; [done|].
    destruct (find sub s) eqn:Hf; [done|].
    intros _ (pre & post & Heq). destruct pre as [|a pre]; simpl in Heq.
    + rewrite Heq, startswith_app in Hp. done.
    + injection Heq as -> ->. apply IH; [done|]. by exists pre, post.
Qed.

Lemma contains_occurs sub s : contains sub s = true ↔ occurs_in sub s.
Proof.
  unfold contains. destruct (find sub s) as [i|] eqn:Hf.
  - split; [intros _|done]. apply find_Some in Hf as [Heq _].
    by exists (take i s), (drop (i + length sub) s).
  - split; [done|]. intros H. by apply find_None in Hf.
Qed.

Global Instance occurs_in_dec sub s : Decision (occurs_in sub s).
Proof.
  refine (cast_if (decide (contains sub s = true))); by rewrite <- contains_occurs.
Defined.

Lemma startswith_length p s : startswith p s = true → (length p ≤ length s)%nat.
Proof.
  intros H. apply startswith_inv in H. apply (f_equal length) in H.
  rewrite length_app in H. lia.
Qed.

Lemma find_lt sub s i : find sub s = Some i → (i + length sub ≤ length s)%nat.
Proof.
  revert i. induction s as [|c s IH]; intros i; simpl.
  - destruct (startswith sub []) eqn:Hp; [|done].
    intros [= <-]. by apply startswith_length in Hp.
  - destruct (startswith sub (c :: s)) eqn:Hp.
    + intros [= <-]. by apply startswith_length in Hp.
    + destruct (find sub s) as [k|]; [|done]. intros [= <-].
      specialize (IH k eq_refl). simpl. lia.
Qed.

(** Fuel: any bound above the length of the string gives the same cuts. *)
Lemma split_loop_fuel sep s f1 f2 :
  sep ≠ [] → (length s ≤ f1)%nat → (length s ≤ f2)%nat →
  split_loop f1 sep s = split_loop f2 sep s.
Proof.
  intros Hsep. revert s f2. induction f1 as [|f1 IH]; intros s f2 H1 H2.
  - destruct s; [|simpl in H1; lia]. destruct sep as [|a sep]; [done|].
    by destruct f2.
  - simpl. destruct (find sep s) as [i|] eqn:Hf.
    + pose proof (find_lt _ _ _ Hf) as Hi.
      assert (0 < length sep)%nat by (destruct sep; [done|simpl; lia]).
      destruct f2 as [|f2]; [lia|]. simpl. rewrite Hf. f_equal.
      apply IH; rewrite length_drop; lia.
    + destruct f2; simpl; by rewrite Hf.
Qed.

(** The equation of [str.split]: no occurrence, one piece; otherwise the text
    before the first occurrence, then the pieces of the text after it. *)
Lemma str_split_unfold sep s :
  sep ≠ [] →
  str_split sep s =
    match find sep s with
    | None => Ok [s]
    | Some i =>
        do rest <- str_split sep (drop (i + length sep) s);
        Ok (take i s :: rest)
    end.
Proof.
  intros Hsep. unfold str_split. destruct sep as [|a sep]; [done|].
  destruct (find (a :: sep) s) as [i|] eqn:Hf.
  - pose proof (find_lt _ _ _ Hf) as Hi.
    destruct (length s) as [|n] eqn:Hn; [simpl in Hi; lia|].
    cbn [split_loop bind]. rewrite Hf. do 2 f_equal.
    apply split_loop_fuel; [done| |done].
    rewrite length_drop. simpl in *. lia.
  - destruct (length s); cbn [split_loop]; by rewrite Hf.
Qed.

Lemma str_split_nonempty sep s parts :
  str_split sep s = Ok parts → parts ≠ [].
Proof.
  unfold str_split. destruct sep; [done|]. intros [= <-].
  destruct (length s); simpl; destruct (find _ s); done.
Qed.

(** ** The order of [sorted] *)

Lemma str_cmp_eq s t : str_cmp s t = Eq ↔ s = t.
Proof.
  revert t. induction s as [|a s IH]; intros [|b t]; simpl; try done.
  destruct (N.compare_spec a b) as [->|Hlt|Hgt].
  - rewrite IH. split; [by intros ->|by intros [= ->]].
  - split; [done|]. intros [= -> _]. lia.
  - split; [done|]. intros [= -> _]. lia.
Qed.

Lemma str_cmp_opp s t : str_cmp t s = CompOpp (str_cmp s t).
Proof.
  revert t. induction s as [|a s IH]; intros [|b t]; simpl; try done.
  rewrite (N.compare_antisym a b).
  destruct (N.compare a b); simpl; [apply IH|done|done].
Qed.

Lemma str_cmp_lt_trans s t u :
  str_cmp s t = Lt → str_cmp t u = Lt → str_cmp s u = Lt.
Proof.
  revert t u. induction s as [|a s IH]; intros [|b t] [|c u]; simpl; try done.
  destruct (N.compare_spec a b) as [->|Hab|Hab]; [| |done].
  - destruct (N.compare b c); [apply IH|done|done].
  - intros _. destruct (N.compare_spec b c) as [->|Hbc|Hbc]; [| |done].
    + intros _. by apply N.compare_lt_iff in Hab as ->.
    + intros _. assert (a < c) as Hac by lia.
      by apply N.compare_lt_iff in Hac as ->.
Qed.

Global Instance str_le_total : Total str_le.
Proof.
  intros s t. unfold str_le. rewrite (str_cmp_opp s t).
  destruct (str_cmp s t); simpl; auto.
Qed.

Global Instance str_le_trans : Transitive str_le.
Proof.
  intros s t u. unfold str_le. intros Hst Htu.
  destruct (str_cmp s t) eqn:H1; [|clear Hst|done].
  - apply str_cmp_eq in H1 as ->. done.
  - destruct (str_cmp t u) eqn:H2; [|clear Htu|done].
    + apply str_cmp_eq in H2 as ->. by rewrite H1.
    + by rewrite (str_cmp_lt_trans s t u).
Qed.

Global Instance str_le_antisym : AntiSymm (=) str_le.
Proof.
  intros s t. unfold str_le. rewrite (str_cmp_opp s t).
  destruct (str_cmp s t) eqn:H; simpl; [|done..].
  intros _ _. by apply str_cmp_eq.
Qed.

(** [sorted] returns the items in ascending order, each as often as given. *)
Lemma py_sorted_sorted strs : Sorted str_le (py_sorted strs).
Proof. apply Sorted_merge_sort. apply _. Qed.

Lemma py_sorted_perm strs : py_sorted strs ≡ₚ strs.
Proof. apply merge_sort_Permutation. Qed.

(** The order in which the items are given does not matter. *)
Lemma py_sorted_order_irrelevant l1 l2 :
  l1 ≡ₚ l2 → py_sorted l1 = py_sorted l2.
Proof.
  intros H. apply (Sorted_unique str_le); try apply py_sorted_sorted.
  by rewrite !py_sorted_perm.
Qed.

Lemma py_sorted_nil_inv strs : py_sorted strs = [] → strs = [].
Proof.
  intros H. apply Permutation_nil_r. rewrite <- H. symmetry.
  apply py_sorted_perm.
Qed.

(** ** The sanitizer *)

Lemma re_sub_class_delete cls s :
  re_sub_class cls [] s = filter (λ c, c ∉ cls) s.
Proof.
  induction s as [|c s IH]; [done|]. cbn [re_sub_class]. rewrite filter_cons.
  case_bool_decide; case_decide; try done; simpl; by rewrite IH.
Qed.

Lemma sanitize_name_filter s :
  sanitize_name s = filter (λ c, c ∉ illegal_chars) s.
Proof. apply re_sub_class_delete. Qed.

Lemma sanitize_name_legal s : legal_str (sanitize_name s).
Proof.
  rewrite sanitize_name_filter. apply Forall_forall. intros c Hc.
  by apply list_elem_of_filter in Hc as [? _].
Qed.

Lemma sanitize_name_id s : legal_str s → sanitize_name s = s.
Proof.
  rewrite sanitize_name_filter. induction 1 as [|c s Hc Hs IH]; [done|].
  rewrite filter_cons, decide_True by done. by rewrite IH.
Qed.

(** C6. The sanitizer deletes the nine characters of [illegal_chars] and
    nothing else: its result is the input with exactly these characters
    filtered out, the others kept in place and in order.  The record named
    "Kix <Test>" gets the file name "Kix Test.json". *)
Theorem sanitize_name_removes_exactly_illegal :
  (∀ s, sanitize_name s = filter (λ c, c ∉ illegal_chars) s) ∧
  (∀ s c, c ∈ sanitize_name s ↔ c ∈ s ∧ c ∉ illegal_chars) ∧
  file_name kix_card = Ok (lit "Kix Test.json") ∧
  file_path (lit "Scryfall_Organized") kix_card =
    Ok (lit "Scryfall_Organized/Colorless/Normal/No_Subtype/Kix Test.json").
Proof.
  split; [apply sanitize_name_filter|]. split; [|by vm_compute].
  intros s c. rewrite sanitize_name_filter, list_elem_of_filter. tauto.
Qed.

(** ** The sub-type folder *)

Lemma type_line_of_obj kvs :
  type_line_of (JObj kvs) = Ok (default (JStr []) (dict_lookup (lit "type_line") kvs)).
Proof. done. Qed.

Lemma str_split_second t :
  ∃ parts, str_split subtype_sep t = Ok parts ∧
    parts !! 1%nat = second_segment t ∧
    (is_Some (find subtype_sep t) → 2 ≤ length parts)%nat.
Proof.
  unfold second_segment.
  rewrite str_split_unfold by done.
  destruct (find subtype_sep t) as [i|] eqn:Hf.
  - set (rest := drop (i + length subtype_sep) t).
    rewrite (str_split_unfold _ rest) by done.
    destruct (find subtype_sep rest) as [j|] eqn:Hj.
    + destruct (str_split subtype_sep (drop (j + length subtype_sep) rest))
        as [more|] eqn:Hm; [|done].
      eexists. split; [done|]. split; [done|]. simpl. lia.
    + eexists. split; [done|]. split; [done|]. simpl. lia.
  - eexists. split; [done|]. split; [done|]. by intros [? ?].
Qed.

Lemma sub_type_folder_str kvs t :
  default (JStr []) (dict_lookup (lit "type_line") kvs) = JStr t →
  sub_type_folder (JObj kvs) =
    Ok (match second_segment t with
        | None => lit "No_Subtype"
        | Some part => sanitize_name (str_replace1 32 (lit "_") part)
        end).
Proof.
  intros Ht. unfold sub_type_folder. rewrite type_line_of_obj, Ht.
  cbn [bind py_contains]. unfold contains.
  destruct (str_split_second t) as (parts & Hsp & H1 & Hlen).
  unfold second_segment in *.
  destruct (find subtype_sep t) as [i|] eqn:Hf; [|done].
  rewrite Hsp. cbn [bind]. by rewrite H1.
Qed.

(** C1, as stated, fails: with a second separator in the type line the code
    keeps the text up to it, not everything after the first one. *)
Lemma sub_type_folder_not_everything_after :
  sub_type_folder two_faced_card = Ok (lit "Human__Creature") ∧
  claimed_sub_type_folder two_faced_type_line =
    lit "Human__Creature_" ++ [8212] ++ lit "_Werewolf" ∧
  sub_type_folder two_faced_card ≠ Ok (claimed_sub_type_folder two_faced_type_line).
Proof. by vm_compute. Qed.

(** C1, amended. For a record whose type line is the string [t] (the empty
    string when the field is missing): if [t] contains the separator, the
    sub-type folder is the text between its first occurrence and the next
    occurrence after it (the end of [t] when there is no other), with every
    space replaced by an underscore, sanitized; if [t] lacks the separator
    it is "No_Subtype". *)
Theorem sub_type_folder_second_segment (kvs : list (pystr * json)) (t : pystr) :
  default (JStr []) (dict_lookup (lit "type_line") kvs) = JStr t →
  sub_type_folder (JObj kvs) =
    Ok (match find subtype_sep t with
        | None => lit "No_Subtype"
        | Some i =>
            let rest := drop (i + length subtype_sep) t in
            let part := match find subtype_sep rest with
                        | None => rest
                        | Some j => take j rest
                        end in
            sanitize_name ((λ c, if decide (c = 32) then 95 else c) <$> part)
        end).
Proof.
  intros Ht. rewrite (sub_type_folder_str kvs t Ht). unfold second_segment.
  destruct (find subtype_sep t) as [i|]; [|done]. cbn zeta. do 2 f_equal.
  generalize (match find subtype_sep (drop (i + length subtype_sep) t) with
              | Some j => take j (drop (i + length subtype_sep) t)
              | None => drop (i + length subtype_sep) t
              end).
  intros l. unfold str_replace1. induction l as [|c l IH]; [done|].
  cbn. rewrite <- IH. by case_decide.
Qed.

Lemma sub_type_folder_second_segment_witness :
  sub_type_folder two_faced_card = Ok (lit "Human__Creature").
Proof.
  unfold two_faced_card.
  rewrite (sub_type_folder_second_segment _ two_faced_type_line); [|reflexivity].
  vm_compute. reflexivity.
Defined.

(** C10. Whenever the separator occurs in a type line, splitting the line on
    it yields at least two pieces, so the piece at index 1 exists and the
    sub-type folder of a record with that type line is computed from it. *)
Theorem subtype_index_in_bounds (t : pystr) :
  contains subtype_sep t = true →
  ∃ parts part,
    str_split subtype_sep t = Ok parts ∧
    (2 ≤ length parts)%nat ∧
    parts !! 1%nat = Some part ∧
    ∀ kvs, dict_lookup (lit "type_line") kvs = Some (JStr t) →
      sub_type_folder (JObj kvs) =
        Ok (sanitize_name (str_replace1 32 (lit "_") part)).
Proof.
  unfold contains. intros Hc.
  destruct (str_split_second t) as (parts & Hsp & H1 & Hlen).
  destruct (find subtype_sep t) as [i|] eqn:Hf; [|done].
  destruct (second_segment t) as [part|] eqn:Hseg;
    [|unfold second_segment in Hseg; by rewrite Hf in Hseg].
  exists parts, part. split; [done|]. split; [by apply Hlen|]. split; [done|].
  intros kvs Hk. rewrite (sub_type_folder_str kvs t) by (by rewrite Hk).
  by rewrite Hseg.
Qed.

Lemma subtype_index_in_bounds_witness :
  ∃ parts part,
    str_split subtype_sep two_faced_type_line = Ok parts ∧
    (2 ≤ length parts)%nat ∧
    parts !! 1%nat = Some part ∧
    ∀ kvs, dict_lookup (lit "type_line") kvs = Some (JStr two_faced_type_line) →
      sub_type_folder (JObj kvs) =
        Ok (sanitize_name (str_replace1 32 (lit "_") part)).
Proof. apply (subtype_index_in_bounds two_faced_type_line). reflexivity. Defined.

(** No record makes the index fail. *)
Lemma sub_type_folder_no_IndexError card : sub_type_folder card ≠ Raise IndexError.
Proof.
  unfold sub_type_folder, type_line_of.
  destruct card as [| | | | | |kvs]; try done. cbn [py_get bind].
  destruct (default (JStr []) (dict_lookup (lit "type_line") kvs))
    as [| | | |t|l|d]; try done; cbn [py_contains bind].
  - unfold contains. destruct (str_split_second t) as (parts & Hsp & H1 & Hlen).
    destruct (find subtype_sep t) as [i|] eqn:Hf; [|done].
    rewrite Hsp. cbn [bind]. rewrite H1. unfold second_segment. by rewrite Hf.
  - by destruct (existsb _ l).
  - by destruct (dict_has _ d).
Qed.

(** ** The super-type folder *)

Lemma filter_each_contains (t : pystr) (names : list pystr) :
  filter_each (λ s, py_contains s (JStr t)) names =
    Ok (filter (λ s, occurs_in s t) names).
Proof.
  induction names as [|s names IH]; [done|].
  cbn [filter_each]. rewrite IH. cbn [py_contains bind].
  rewrite filter_cons. destruct (contains s t) eqn:Hc.
  - rewrite decide_True; [done|]. by apply contains_occurs.
  - rewrite decide_False; [done|]. rewrite <- contains_occurs. by rewrite Hc.
Qed.

(** C5. For a record whose type line is the string [t] (the empty string
    when the field is missing), the super-type folder is made of the names
    of the fixed list Basic, Legendary, Snow, World, Ongoing, Elite that
    occur in [t], in the order of that list, joined by one space; it is
    "Normal" when none occurs. *)
Theorem super_type_folder_fixed_order (kvs : list (pystr * json)) (t : pystr) :
  default (JStr []) (dict_lookup (lit "type_line") kvs) = JStr t →
  super_type_folder (JObj kvs) =
    Ok (let found :=
          filter (λ s, occurs_in s t)
            [lit "Basic"; lit "Legendary"; lit "Snow"; lit "World";
             lit "Ongoing"; lit "Elite"] in
        match found with
        | [] => lit "Normal"
        | _ => str_join (lit " ") found
        end).
Proof.
  intros Ht. unfold super_type_folder. rewrite type_line_of_obj, Ht.
  cbn [bind]. by rewrite filter_each_contains.
Qed.

Lemma super_type_folder_fixed_order_witness :
  super_type_folder snow_elk = Ok (lit "Basic Legendary Snow") ∧
  super_type_folder (JObj []) = Ok (lit "Normal").
Proof.
  split.
  - unfold snow_elk.
    rewrite (super_type_folder_fixed_order _
      (lit "Legendary Snow Creature" ++ subtype_sep ++ lit "Basic Elk"));
      [|reflexivity].
    vm_compute. reflexivity.
  - rewrite (super_type_folder_fixed_order [] []); [|reflexivity].
    vm_compute. reflexivity.
Defined.

(** ** The color folder *)

Lemma for_each_as_str strs : for_each as_str (JStr <$> strs) = Ok strs.
Proof. induction strs as [|s l IH]; [done|]. cbn. rewrite IH. done. Qed.

Lemma for_each_hashable_str strs :
  for_each py_hashable (JStr <$> strs) = Ok (JStr <$> strs).
Proof. induction strs as [|s l IH]; [done|]. cbn. rewrite IH. done. Qed.

Lemma join_sorted_strs strs :
  join_sorted (JArr (JStr <$> strs)) = Ok (str_join [] (py_sorted strs)).
Proof. unfold join_sorted. cbn [py_iter bind]. by rewrite for_each_as_str. Qed.

Lemma str_join_empty_sep parts : str_join [] parts = concat parts.
Proof.
  induction parts as [|p [|q parts] IH]; [done| |].
  - simpl. by rewrite app_nil_r.
  - change (str_join [] (p :: q :: parts)) with (p ++ str_join [] (q :: parts)).
    by rewrite IH.
Qed.

(** C2, as stated, fails: the record's own list goes through no set. *)
Lemma color_folder_keeps_duplicates :
  color_folder twice_red = Ok (lit "RR") ∧
  claimed_color_folder [lit "R"; lit "R"] = lit "R" ∧
  color_folder twice_red ≠ Ok (claimed_color_folder [lit "R"; lit "R"]).
Proof. by vm_compute. Qed.

(** C2, amended. For a record with a non-empty [colors] list of strings, the
    color folder is the concatenation of these strings in ascending order,
    each as often as the list has it (no deduplication). *)
Theorem color_folder_sorted_concat (kvs : list (pystr * json)) (strs : list pystr) :
  dict_lookup (lit "colors") kvs = Some (JArr (JStr <$> strs)) →
  strs ≠ [] →
  ∃ sorted,
    color_folder (JObj kvs) = Ok (concat sorted) ∧
    Sorted str_le sorted ∧ sorted ≡ₚ strs.
Proof.
  intros Hc Hne. exists (py_sorted strs).
  split; [|split; [apply py_sorted_sorted|apply py_sorted_perm]].
  unfold color_folder. cbn [py_get bind]. rewrite Hc. cbn [from_option id].
  assert (truthy (JArr (JStr <$> strs)) = true) as Ht by (by destruct strs).
  rewrite Ht. cbn [negb andb bind]. rewrite Ht.
  by rewrite join_sorted_strs, str_join_empty_sep.
Qed.

Lemma color_folder_sorted_concat_witness :
  ∃ sorted,
    color_folder (JObj [(lit "colors", JArr (JStr <$> [lit "W"; lit "U"; lit "W"]))])
      = Ok (concat sorted) ∧
    Sorted str_le sorted ∧ sorted ≡ₚ [lit "W"; lit "U"; lit "W"].
Proof.
  apply (color_folder_sorted_concat _ [lit "W"; lit "U"; lit "W"]);
    [reflexivity|discriminate].
Defined.

(** *** The union of the faces' colors *)

Lemma existsb_py_eqb_str x (acc : list pystr) :
  existsb (py_eqb (JStr x)) (JStr <$> acc) = bool_decide (x ∈ acc).
Proof.
  induction acc as [|a acc IH]; [done|]. cbn. rewrite IH.
  repeat case_bool_decide; set_solver.
Qed.

Lemma py_set_loop_strs (acc l : list pystr) :
  NoDup acc →
  ∃ u, foldl set_add (JStr <$> acc) (JStr <$> l) = JStr <$> u ∧
       NoDup u ∧ ∀ x, x ∈ u ↔ x ∈ acc ∨ x ∈ l.
Proof.
  revert acc. induction l as [|a l IH]; intros acc Hnd.
  - exists acc. set_solver.
  - cbn [fmap list_fmap foldl]. unfold set_add at 2.
    rewrite existsb_py_eqb_str. case_bool_decide as Ha.
    + destruct (IH acc Hnd) as (u & Hu & Hnd' & Hin). exists u. set_solver.
    + change ((JStr <$> acc) ++ [JStr a]) with ((JStr <$> acc) ++ (JStr <$> [a])).
      rewrite <- fmap_app.
      destruct (IH (acc ++ [a])) as (u & Hu & Hnd' & Hin).
      { apply NoDup_app. split; [done|]. split; [set_solver|apply NoDup_singleton]. }
      exists u. set_solver.
Qed.

(** On strings a set holds each string once; sorting it gives the sorted
    list of the distinct strings, whatever order the set iterates in. *)
Lemma py_set_sorted (l : list pystr) :
  ∃ u, py_set (JStr <$> l) = JStr <$> u ∧
       py_sorted u = py_sorted (remove_dups l).
Proof.
  destruct (py_set_loop_strs [] l) as (u & Hu & Hnd & Hin); [constructor|].
  exists u. split; [done|]. apply py_sorted_order_irrelevant.
  apply NoDup_Permutation; [done|apply NoDup_remove_dups|].
  intros x. rewrite Hin, elem_of_remove_dups. set_solver.
Qed.

Lemma face_colors_strs faces css :
  Forall2 face_has_colors faces css →
  face_colors (JArr faces) = Ok (JStr <$> concat css).
Proof.
  intros H. unfold face_colors. cbn [py_iter bind].
  enough (for_each (λ face,
            do cols <- py_get (lit "colors") (JArr []) face;
            do cs <- py_iter cols; for_each py_hashable cs) faces
          = Ok ((λ cs, JStr <$> cs) <$> css)) as ->.
  { cbn [bind]. f_equal. clear H. induction css as [|cs css IH]; [done|].
    cbn. rewrite fmap_app. by rewrite <- IH. }
  induction H as [|face cs faces css (fk & -> & Hcs) _ IH]; [done|].
  cbn [for_each py_get bind]. rewrite Hcs. cbn [py_iter bind].
  rewrite for_each_hashable_str. cbn [bind]. rewrite IH. done.
Qed.

(** C4. For a record whose [colors] is empty or absent: with a [card_faces]
    list, the color folder is the concatenation of the distinct colors of
    the faces in ascending order, and "Colorless" when the faces have no
    color; without [card_faces] it is "Colorless". *)
Theorem color_folder_faces_union (kvs : list (pystr * json)) :
  default (JArr []) (dict_lookup (lit "colors") kvs) = JArr [] →
  (∀ faces css,
     dict_lookup (lit "card_faces") kvs = Some (JArr faces) →
     Forall2 face_has_colors faces css →
     color_folder (JObj kvs) =
       Ok (let union := py_sorted (remove_dups (concat css)) in
           match union with
           | [] => lit "Colorless"
           | _ => concat union
           end)) ∧
  (dict_lookup (lit "card_faces") kvs = None →
   color_folder (JObj kvs) = Ok (lit "Colorless")).
Proof.
  intros Hc. unfold color_folder. cbn [py_get bind]. rewrite Hc.
  cbn [truthy negb andb]. unfold dict_has. split.
  - intros faces css Hf Hfaces. rewrite Hf.
    rewrite bool_decide_true by eauto. cbn [from_option id].
    rewrite (face_colors_strs _ _ Hfaces). cbn [bind].
    destruct (py_set_sorted (concat css)) as (u & -> & Hu).
    cbn zeta. rewrite <- Hu.
    destruct u as [|a u]; [done|].
    change (truthy (JArr (JStr <$> a :: u))) with true. cbn iota.
    rewrite join_sorted_strs, str_join_empty_sep.
    destruct (py_sorted (a :: u)) eqn:Hs; [|done].
    by apply py_sorted_nil_inv in Hs.
  - intros Hf. rewrite Hf. rewrite bool_decide_false by (by intros [? ?]).
    done.
Qed.

Lemma color_folder_faces_union_witness :
  color_folder fire_ice = Ok (lit "RU") ∧
  color_folder (JObj [(lit "name", JStr (lit "Ornithopter"))]) = Ok (lit "Colorless").
Proof.
  split.
  - unfold fire_ice.
    match goal with
    | |- color_folder (JObj ?k) = _ =>
        destruct (color_folder_faces_union k eq_refl) as [H _]
    end.
    rewrite (H _ [[lit "R"]; [lit "U"]] eq_refl); [vm_compute; reflexivity|].
    repeat constructor; eexists; (split; reflexivity).
  - match goal with
    | |- color_folder (JObj ?k) = _ =>
        destruct (color_folder_faces_union k eq_refl) as [_ H]
    end.
    exact (H eq_refl).
Defined.

(** ** Illegal characters in the folders the sanitizer does not see *)

Lemma for_each_Forall2 {A B} (f : A → res B) l r :
  for_each f l = Ok r → Forall2 (λ x y, f x = Ok y) l r.
Proof.
  revert r. induction l as [|x l IH]; intros r; [by intros [= <-]; constructor|].
  cbn [for_each]. destruct (f x) as [y|] eqn:Hx; [|done]. cbn [bind].
  destruct (for_each f l) as [ys|]; [|done]. intros [= <-]. constructor; auto.
Qed.

Lemma for_each_as_str_inv items strs :
  for_each as_str items = Ok strs → items = JStr <$> strs.
Proof.
  revert strs. induction items as [|x items IH]; intros strs; [by intros [= <-]|].
  cbn [for_each]. destruct x; try done. cbn [as_str bind].
  destruct (for_each as_str items) as [ys|]; [|done]. intros [= <-].
  cbn. f_equal. by apply IH.
Qed.

Lemma for_each_hashable_inv items r : for_each py_hashable items = Ok r → r = items.
Proof.
  revert r. induction items as [|x items IH]; intros r; [by intros [= <-]|].
  cbn [for_each]. destruct (py_hashable x) as [y|] eqn:Hx; [|done]. cbn [bind].
  destruct (for_each py_hashable items) as [ys|]; [|done]. intros [= <-].
  f_equal; [destruct x; cbn in Hx; congruence|by apply IH].
Qed.

(** A loop that yields strings only yields the strings [iter_strs] lists. *)
Lemma py_iter_strs v strs : py_iter v = Ok (JStr <$> strs) → iter_strs v = strs.
Proof.
  destruct v as [| | | |s|l|kvs]; try done; cbn [py_iter iter_strs]; intros [= H].
  - revert strs H. induction s as [|c s IH]; intros [|a strs]; try done.
    cbn. intros [= <- H]. f_equal. by apply IH.
  - subst l. induction strs as [|a strs IH]; [done|]. cbn. by rewrite IH.
  - revert strs H. induction kvs as [|kv kvs IH]; intros [|a strs]; try done.
    cbn. intros [= <- H]. f_equal. by apply IH.
Qed.

Lemma py_eqb_str_r x b : py_eqb x (JStr b) = true → x = JStr b.
Proof. destruct x; try done. cbn. by intros ->%bool_decide_eq_true. Qed.

(** A set of strings was built from strings. *)
Lemma py_set_loop_all_str items acc strs :
  foldl set_add acc items = JStr <$> strs → ∃ l, items = JStr <$> l.
Proof.
  revert acc. induction items as [|x items IH]; intros acc H; [by exists []|].
  cbn [foldl] in H. destruct (IH _ H) as [l ->].
  enough (∃ a, x = JStr a) as [a ->] by (by exists (a :: l)).
  assert (∀ y, y ∈ set_add acc x → ∃ b, y = JStr b) as Hall.
  { intros y Hy.
    assert (y ∈ foldl set_add (set_add acc x) (JStr <$> l)) as Hin.
    { clear -Hy. revert Hy. generalize (set_add acc x). generalize (JStr <$> l).
      intros l'. induction l' as [|z l' IH]; intros acc' Hy; [done|].
      cbn [foldl]. apply IH. unfold set_add. destruct (existsb _ acc'); set_solver. }
    rewrite H in Hin. apply list_elem_of_fmap in Hin as (b & -> & _). eauto. }
  unfold set_add in Hall. destruct (existsb (py_eqb x) acc) eqn:Hex.
  - apply existsb_exists in Hex as (y & Hy & Heq).
    destruct (Hall y) as [b ->]; [by apply list_elem_of_In|].
    apply py_eqb_str_r in Heq. eauto.
  - apply Hall. set_solver.
Qed.

Lemma fmap_JStr_app_inv (l : list pystr) (xs ys : list json) :
  xs ++ ys = JStr <$> l → ∃ l1 l2, l = l1 ++ l2 ∧ xs = JStr <$> l1 ∧ ys = JStr <$> l2.
Proof.
  intros H. symmetry in H. apply fmap_app_inv in H as (l1 & l2 & H1 & H2 & ->).
  by exists l1, l2.
Qed.

(** When the generator of line 23 yields strings only, they are the color
    strings of the faces. *)
Lemma face_colors_face_strs fv l :
  face_colors fv = Ok (JStr <$> l) → l = face_strs fv.
Proof.
  unfold face_colors. destruct (py_iter fv) as [faces|] eqn:Hit; [|done].
  cbn [bind]. destruct (for_each _ faces) as [per_face|] eqn:Hpf; [|done].
  intros [= Hc].
  assert (l = concat ((λ face,
                 match face with
                 | JObj fk =>
                     iter_strs (default (JArr []) (dict_lookup (lit "colors") fk))
                 | _ => []
                 end) <$> faces)) as Hl.
  { clear Hit. revert per_face l Hpf Hc.
    induction faces as [|face faces IH]; intros per_face l.
    - intros [= <-]. by destruct l.
    - cbn [for_each].
      destruct (py_get (lit "colors") (JArr []) face) as [cols|] eqn:Hg; [|done].
      cbn [bind]. destruct (py_iter cols) as [its|] eqn:Hits; [|done].
      cbn [bind]. destruct (for_each py_hashable its) as [its'|] eqn:Hh; [|done].
      cbn [bind]. destruct (for_each _ faces) as [pfs|] eqn:Hpfs; [|done].
      intros [= <-]. cbn [concat].
      intros (l1 & l2 & -> & H1 & H2)%fmap_JStr_app_inv.
      apply for_each_hashable_inv in Hh as ->. subst its.
      destruct face as [| | | | | |fk]; try done. injection Hg as <-.
      cbn [fmap list_fmap concat]. f_equal.
      + symmetry. by apply py_iter_strs.
      + by apply (IH pfs). }
  destruct fv as [| | | |s|faces'|fkvs]; try done; injection Hit as <-; [|done|].
  - destruct s as [|c s]; [by subst|]. done.
  - destruct fkvs as [|kv fkvs]; [by subst|]. done.
Qed.

Lemma py_set_nil_inv items : py_set items = [] → items = [].
Proof.
  unfold py_set. destruct items as [|x items]; [done|]. cbn [foldl].
  assert (∀ l acc, acc ≠ [] → foldl set_add acc l ≠ []) as H.
  { intros l. induction l as [|y l IH]; intros acc Hacc; [done|].
    cbn [foldl]. apply IH. unfold set_add.
    destruct (existsb _ acc); [done|]. by destruct acc. }
  intros Hnil. by apply H in Hnil.
Qed.

(** The color folder is "Colorless", for a record without color strings, or
    the color strings of the record, sorted and joined. *)
Lemma color_folder_strs kvs s :
  color_folder (JObj kvs) = Ok s →
  (s = lit "Colorless" ∧ folder_colors kvs = []) ∨
  ∃ strs, s = concat (py_sorted strs) ∧ ∀ x, x ∈ strs ↔ x ∈ folder_colors kvs.
Proof.
  unfold color_folder, folder_colors. cbn [py_get bind].
  set (own := default (JArr []) (dict_lookup (lit "colors") kvs)).
  unfold dict_has.
  destruct (truthy own) eqn:Hown; cbn [negb andb].
  - cbn [bind]. rewrite Hown. unfold join_sorted.
    destruct (py_iter own) as [items|] eqn:Hit; [|done]. cbn [bind].
    destruct (for_each as_str items) as [strs|] eqn:Hs; [|done].
    intros [= <-]. right. exists strs. rewrite str_join_empty_sep.
    split; [done|]. apply for_each_as_str_inv in Hs as ->.
    by rewrite (py_iter_strs _ _ Hit).
  - destruct (dict_lookup (lit "card_faces") kvs) as [fv|] eqn:Hf.
    2:{ rewrite bool_decide_false by (by intros [? ?]). cbn [bind].
        rewrite Hown. intros [= <-]. by left. }
    rewrite bool_decide_true by eauto. cbn [from_option id].
    destruct (face_colors fv) as [cs|] eqn:Hfc; [|done]. cbn [bind].
    destruct (truthy (JArr (py_set cs))) eqn:Hset.
    + unfold join_sorted. cbn [py_iter bind].
      destruct (for_each as_str (py_set cs)) as [strs|] eqn:Hs; [|done].
      intros [= <-]. right. exists strs. rewrite str_join_empty_sep.
      split; [done|]. apply for_each_as_str_inv in Hs.
      destruct (py_set_loop_all_str _ _ _ Hs) as [l ->].
      apply face_colors_face_strs in Hfc as <-.
      destruct (py_set_loop_strs [] l) as (u & Hu & _ & Hin); [constructor|].
      unfold py_set in Hs. change (@nil json) with (JStr <$> @nil pystr) in Hs.
      rewrite Hu in Hs.
      assert (u = strs) as <-.
      { clear -Hs. revert strs Hs. induction u as [|a u IH]; intros [|b strs];
          try done. cbn. intros [= -> H]. f_equal. by apply IH. }
      intros x. rewrite Hin. set_solver.
    + intros [= <-]. left. split; [done|].
      assert (py_set cs = []) as Hnil by (by destruct (py_set cs)).
      apply py_set_nil_inv in Hnil as ->.
      by apply (face_colors_face_strs fv []) in Hfc.
Qed.

Lemma filter_each_subset {A} (p : A → res bool) l r x :
  filter_each p l = Ok r → x ∈ r → x ∈ l.
Proof.
  revert r. induction l as [|y l IH]; intros r; [by intros [= <-]|].
  cbn [filter_each]. destruct (p y) as [b|]; [|done]. cbn [bind].
  destruct (filter_each p l) as [ys|]; [|done]. intros [= <-].
  destruct b; set_solver.
Qed.

Lemma str_join_chars sep parts c :
  c ∈ str_join sep parts → c ∈ sep ∨ ∃ p, p ∈ parts ∧ c ∈ p.
Proof.
  induction parts as [|p [|q parts] IH].
  - by intros ?%elem_of_nil.
  - intros H. right. exists p. set_solver.
  - change (str_join sep (p :: q :: parts))
      with (p ++ sep ++ str_join sep (q :: parts)).
    rewrite !elem_of_app. intros [H|[H|H]]; [right; exists p; set_solver|by left|].
    destruct (IH H) as [?|(p' & ? & ?)]; [by left|right; exists p'; set_solver].
Qed.

(** Closed decidable facts, by evaluation. *)
Ltac by_decide := apply (bool_decide_unpack _); vm_compute; exact I.

Lemma super_type_list_legal : Forall legal_str super_type_list.
Proof. by_decide. Qed.

(** The super-type folder is made of fixed names: it never holds an illegal
    character. *)
Lemma super_type_folder_legal card s : super_type_folder card = Ok s → legal_str s.
Proof.
  unfold super_type_folder. destruct (type_line_of card) as [tl|]; [|done].
  cbn [bind]. destruct (filter_each _ super_type_list) as [found|] eqn:Hf; [|done].
  intros [= <-]. destruct found as [|a found].
  - by_decide.
  - apply Forall_forall. intros c [Hc|(p & Hp & Hc)]%str_join_chars.
    + apply list_elem_of_singleton in Hc as ->. by_decide.
    + apply (filter_each_subset _ _ _ _ Hf) in Hp.
      pose proof super_type_list_legal as Hl. rewrite Forall_forall in Hl.
      specialize (Hl p Hp). unfold legal_str in Hl. rewrite Forall_forall in Hl.
      by apply Hl.
Qed.

Lemma legal_str_concat (parts : list pystr) :
  legal_str (concat parts) ↔ Forall legal_str parts.
Proof. unfold legal_str. apply Forall_concat. Qed.

(** C3, as stated, fails: the color folder is the text of the input. *)
Lemma color_folder_not_always_legal :
  color_folder hybrid_card = Ok (lit "W/U") ∧ ¬ legal_str (lit "W/U").
Proof.
  split; [by vm_compute|]. by_decide.
Qed.

(** C3, amended. The super-type folder of a record never contains one of the
    nine illegal characters.  The color folder, which the code builds from
    the color strings unchecked, contains none of them exactly when none of
    the color strings that make it up does: the strings of the record's own
    [colors] when that is not empty, otherwise those of the [colors] of its
    faces.  No other field of the record or of its faces matters. *)
Theorem folders_legal_when_colors_legal (kvs : list (pystr * json)) :
  (∀ s, color_folder (JObj kvs) = Ok s →
        (legal_str s ↔ Forall legal_str (folder_colors kvs))) ∧
  (∀ s, super_type_folder (JObj kvs) = Ok s → legal_str s).
Proof.
  split; [|intros s; apply super_type_folder_legal].
  intros s [[-> ->]|(strs & -> & Hin)]%color_folder_strs.
  - split; [by constructor|]. intros _. by_decide.
  - rewrite legal_str_concat, py_sorted_perm, !Forall_forall.
    split; intros H x Hx; apply H; by apply Hin.
Qed.

Lemma folders_legal_when_colors_legal_witness :
  color_folder fire_ice_texts = Ok (lit "RU") ∧
  legal_str (lit "RU") ∧ legal_str (lit "Normal").
Proof.
  unfold fire_ice_texts.
  match goal with
  | |- color_folder (JObj ?k) = _ ∧ _ =>
      destruct (folders_legal_when_colors_legal k) as [Hc Hs]
  end.
  split; [vm_compute; reflexivity|].
  split; [apply Hc; [vm_compute; reflexivity|by_decide]|].
  apply Hs. vm_compute. reflexivity.
Defined.

(** ** Runs *)

Lemma process_card_ops root card w :
  process_card root card w =
    exec_then (card_ops root card).1 (card_ops root card).2 w.
Proof.
  unfold process_card, card_ops, exec_then.
  destruct (target_dir root card) as [dir|]; [|done].
  destruct (file_name card) as [name|]; cbn [fst snd exec apply_op].
  - destruct (json_dump card) as [text r]. cbn [fst snd exec apply_op].
    destruct (makedirs dir w) as [w1 [[]|e1]]; [|done].
    by destruct (write_text _ text w1) as [w2 [[]|e2]].
  - by destruct (makedirs dir w) as [w1 [[]|e1]].
Qed.

Lemma exec_app ops ops' w :
  exec (ops ++ ops') w =
    match exec ops w with
    | (w', Ok _) => exec ops' w'
    | (w', Raise e) => (w', Raise e)
    end.
Proof.
  revert w. induction ops as [|o ops IH]; intros w; [done|].
  cbn [app exec]. by destruct (apply_op w o) as [w' [[]|e]].
Qed.

(** A run is the operations of its records, in order, up to the first
    exception. *)
Lemma process_cards_ops root cards w :
  process_cards root cards w =
    exec_then (cards_ops root cards).1 (cards_ops root cards).2 w.
Proof.
  revert w. induction cards as [|card rest IH]; intros w; [done|].
  cbn [process_cards cards_ops]. rewrite process_card_ops.
  destruct (card_ops root card) as [ops [[]|e]]; cbn [fst snd]; [|].
  - destruct (cards_ops root rest) as [ops' r] eqn:Hrest. cbn [fst snd] in *.
    unfold exec_then at 2. rewrite exec_app. unfold exec_then at 1.
    destruct (exec ops w) as [w1 [[]|e]]; [|done].
    rewrite IH. done.
  - unfold exec_then. by destruct (exec ops w) as [w1 [[]|e']].
Qed.

(** *** What the operations keep *)

Lemma make_each_keeps qs w w' r :
  make_each qs w = (w', r) →
  files w' = files w ∧ stdout w' = stdout w ∧ dirs w ⊆ dirs w' ∧
  ∀ x, x ∈ dirs w' → x ∈ dirs w ∨ files w !! x = None.
Proof.
  revert w. induction qs as [|q qs IH]; intros w; cbn [make_each].
  - intros [= <- <-]. split_and!; [done..|]. by left.
  - destruct (fs_encode q) as [[]|e].
    2:{ intros [= <- <-]. split_and!; [done..|]. by left. }
    destruct (files w !! q) eqn:Hq.
    { intros [= <- <-]. split_and!; [done..|]. by left. }
    intros (Hf & Ho & Hd & Hnew)%IH. cbn [files dirs stdout] in *.
    split_and!; [done|done|set_solver|].
    intros x [Hx|Hx]%Hnew; [|by right].
    apply elem_of_union in Hx as [->%elem_of_singleton|Hx]; [by right|by left].
Qed.

Lemma makedirs_keeps path w w' r :
  makedirs path w = (w', r) →
  files w' = files w ∧ stdout w' = stdout w ∧ dirs w ⊆ dirs w' ∧
  ∀ x, x ∈ dirs w' → x ∈ dirs w ∨ files w !! x = None.
Proof.
  unfold makedirs. destruct (plain_path _); [apply make_each_keeps|].
  intros [= <- <-]. split_and!; [done..|]. by left.
Qed.

Lemma write_text_keeps path text w w' r :
  write_text path text w = (w', r) →
  dirs w' = dirs w ∧ stdout w' = stdout w ∧
  (files w' = files w ∨ (path ∉ dirs w) ∧ files w' = <[path := text]> (files w)).
Proof.
  unfold write_text. destruct (plain_path path); [|intros [= <- <-]; auto].
  destruct (fs_encode path) as [[]|e]; [|intros [= <- <-]; auto].
  destruct (check_dirs _ w) as [[]|e]; [|intros [= <- <-]; auto].
  case_bool_decide; intros [= <- <-]; auto.
Qed.

Lemma write_text_ok path text w w' :
  write_text path text w = (w', Ok tt) →
  (path ∉ dirs w) ∧ w' = World (<[path := text]> (files w)) (dirs w) (stdout w).
Proof.
  unfold write_text. destruct (plain_path path); [|done].
  destruct (fs_encode path) as [[]|e]; [|done].
  destruct (check_dirs _ w) as [[]|e]; [|done].
  case_bool_decide; [done|]. by intros [= <-].
Qed.

Lemma write_text_raise path text w w' e :
  write_text path text w = (w', Raise e) → w' = w.
Proof.
  unfold write_text. destruct (plain_path path); [|by intros [= <-]].
  destruct (fs_encode path) as [[]|?]; [|by intros [= <-]].
  destruct (check_dirs _ w) as [[]|?]; [|by intros [= <-]].
  case_bool_decide; [by intros [= <-]|done].
Qed.

Lemma apply_op_stdout w o w' r : apply_op w o = (w', r) → stdout w' = stdout w.
Proof.
  destruct o as [p|p t]; cbn [apply_op].
  - by intros (_ & ? & _)%makedirs_keeps.
  - by intros (_ & ? & _)%write_text_keeps.
Qed.

Lemma exec_stdout ops w w' r : exec ops w = (w', r) → stdout w' = stdout w.
Proof.
  revert w. induction ops as [|o ops IH]; intros w; cbn [exec];
    [by intros [= <- <-]|].
  destruct (apply_op w o) as [w1 [[]|e]] eqn:Ho.
  - intros ->%IH. by eapply apply_op_stdout.
  - intros [= <- <-]. by eapply apply_op_stdout.
Qed.

(** A directory stays a directory, and a file that is no directory stays
    one. *)
Lemma is_dir_step w o w' r q : is_dir w q → apply_op w o = (w', r) → is_dir w' q.
Proof.
  intros [Hf Hd]. destruct o as [p|p t]; cbn [apply_op].
  - intros (Hf' & _ & Hd' & _)%makedirs_keeps. split; [by rewrite Hf'|set_solver].
  - intros (Hd' & _ & [Hf'|[Hp Hf']])%write_text_keeps; (split; [|by rewrite Hd']).
    + by rewrite Hf'.
    + rewrite Hf', lookup_insert_ne; [done|]. by intros ->.
Qed.

Lemma is_file_step w o w' r p :
  p ∉ dirs w → is_Some (files w !! p) → apply_op w o = (w', r) →
  (p ∉ dirs w') ∧ is_Some (files w' !! p).
Proof.
  intros Hd [t Hf]. destruct o as [q|q t']; cbn [apply_op].
  - intros (Hf' & _ & _ & Hnew)%makedirs_keeps. rewrite Hf', Hf. split; [|eauto].
    intros [?|?]%Hnew; [done|congruence].
  - intros (Hd' & _ & [Hf'|[_ Hf']])%write_text_keeps; rewrite Hd', Hf';
      (split; [done|]); [by rewrite Hf; eauto|].
    apply lookup_insert_is_Some. destruct (decide (q = p)); eauto.
Qed.

Lemma done_op_step w o o' w' r :
  done_op w o → apply_op w o' = (w', r) → done_op w' o.
Proof.
  intros Hdone Hstep. destruct o as [p|p t]; cbn [done_op] in *.
  - destruct Hdone as [Hp Hall]. split; [done|].
    eapply Forall_impl; [exact Hall|]. intros q [He Hq]. split; [done|].
    by eapply is_dir_step.
  - destruct Hdone as (Hp & He & Hall & Hd & Hf). split_and!; [done..| | |].
    + eapply Forall_impl; [exact Hall|]. intros q Hq. by eapply is_dir_step.
    + by eapply is_file_step.
    + by eapply is_file_step.
Qed.

Lemma done_op_exec w o ops w' r : done_op w o → exec ops w = (w', r) → done_op w' o.
Proof.
  revert w. induction ops as [|o' ops IH]; intros w Hdone; cbn [exec];
    [by intros [= <- <-]|].
  destruct (apply_op w o') as [w1 [[]|e]] eqn:Ho.
  - apply IH. by eapply done_op_step.
  - intros [= <- <-]. by eapply done_op_step.
Qed.

(** *** What an operation leaves *)

Lemma make_each_ok qs w w' :
  make_each qs w = (w', Ok tt) →
  Forall (λ q, fs_encode q = Ok tt ∧ is_dir w' q) qs ∧
  dirs w' = dirs w ∪ list_to_set qs.
Proof.
  revert w. induction qs as [|q qs IH]; intros w; cbn [make_each].
  - intros [= <-]. split; [constructor|set_solver].
  - destruct (fs_encode q) as [[]|e] eqn:He; [|done].
    destruct (files w !! q) eqn:Hq; [done|]. intros Hrest.
    pose proof (make_each_keeps _ _ _ _ Hrest) as (Hf & _ & Hd & _).
    apply IH in Hrest as [Hall Hdirs]. cbn [files dirs] in *. split.
    + constructor; [|done]. split; [done|]. split; [by rewrite Hf|set_solver].
    + rewrite Hdirs. set_solver.
Qed.

Lemma check_dirs_ok qs w : check_dirs qs w = Ok tt ↔ Forall (is_dir w) qs.
Proof.
  induction qs as [|q qs IH]; cbn [check_dirs]; [by split; [constructor|]|].
  rewrite Forall_cons, <- IH. unfold is_dir.
  destruct (files w !! q); [by split; [|intros [[? _] _]]|].
  case_bool_decide; [tauto|]. by split; [|intros [[_ ?] _]].
Qed.

(** An operation that succeeds is done. *)
Lemma apply_op_done w o w' : apply_op w o = (w', Ok tt) → done_op w' o.
Proof.
  destruct o as [p|p t]; cbn [apply_op done_op].
  - unfold makedirs. destruct (plain_path _) eqn:Hp; [|done].
    by intros [Hall _]%make_each_ok.
  - unfold write_text. destruct (plain_path p) eqn:Hp; [|done].
    destruct (fs_encode p) as [[]|e] eqn:He; [|done].
    destruct (check_dirs _ w) as [[]|e] eqn:Hc; [|done].
    case_bool_decide as Hd; [done|]. intros [= <-]. cbn [files dirs].
    split_and!; [done..| |done|by rewrite lookup_insert_eq; eauto].
    apply check_dirs_ok in Hc. eapply Forall_impl; [exact Hc|].
    intros q [Hf Hq]. split; [|done]. cbn [files].
    rewrite lookup_insert_ne; [done|]. by intros ->.
Qed.

Lemma make_each_redo qs v :
  Forall (λ q, fs_encode q = Ok tt ∧ is_dir v q) qs →
  ∃ v', make_each qs v = (v', Ok tt) ∧
        files v' = files v ∧ dirs v' = dirs v ∧ stdout v' = stdout v.
Proof.
  revert v. induction qs as [|q qs IH]; intros v Hall; cbn [make_each]; [by eexists|].
  apply Forall_cons in Hall as [[He [Hf Hd]] Hall]. rewrite He, Hf.
  destruct (IH (World (files v) ({[q]} ∪ dirs v) (stdout v))) as (v' & -> & ? & Hd' & ?).
  { eapply Forall_impl; [exact Hall|]. intros x [? [? ?]]. split; [done|].
    split; [done|]. cbn. set_solver. }
  exists v'. split_and!; [done..| |done]. rewrite Hd'. cbn. set_solver.
Qed.

(** Doing again an operation that is done succeeds, and changes at most the
    text of its file. *)
Lemma done_op_redo v o :
  done_op v o →
  ∃ v', apply_op v o = (v', Ok tt) ∧ dirs v' = dirs v ∧ stdout v' = stdout v ∧
        files v' = match o with
                   | MkDir _ => files v
                   | WriteFile p t => <[p := t]> (files v)
                   end.
Proof.
  destruct o as [p|p t]; cbn [done_op apply_op].
  - intros [Hp Hall]. unfold makedirs. rewrite Hp.
    destruct (make_each_redo _ _ Hall) as (v' & -> & ? & ? & ?). by exists v'.
  - intros (Hp & He & Hall & Hd & Hf). unfold write_text. rewrite Hp, He.
    apply check_dirs_ok in Hall as ->. rewrite bool_decide_false by done.
    by eexists.
Qed.

Lemma same_kinds_sym w v : same_kinds w v → same_kinds v w.
Proof. intros [Hd Hf]. split; [done|]. intros q. by rewrite Hf. Qed.

Lemma same_kinds_trans w v u : same_kinds w v → same_kinds v u → same_kinds w u.
Proof.
  intros [Hd Hf] [Hd' Hf']. split; [congruence|]. intros q. by rewrite Hf, Hf'.
Qed.

Lemma is_dir_kinds w v q : same_kinds w v → is_dir w q → is_dir v q.
Proof. intros [Hd Hf] [? ?]. split; [by apply Hf|by rewrite <- Hd]. Qed.

Lemma done_op_kinds w v o : same_kinds w v → done_op w o → done_op v o.
Proof.
  intros Hk. destruct o as [p|p t]; cbn [done_op].
  - intros [Hp Hall]. split; [done|]. eapply Forall_impl; [exact Hall|].
    intros q [? ?]. split; [done|]. by eapply is_dir_kinds.
  - intros (Hp & He & Hall & Hd & Hf). split_and!; [done..| | |].
    + eapply Forall_impl; [exact Hall|]. intros q ?. by eapply is_dir_kinds.
    + destruct Hk as [<- _]. done.
    + destruct Hk as [_ Hk]. apply not_eq_None_Some. rewrite <- Hk.
      by apply not_eq_None_Some.
Qed.

Lemma check_dirs_kinds qs w v : same_kinds w v → check_dirs qs w = check_dirs qs v.
Proof.
  intros [Hd Hf]. induction qs as [|q qs IH]; [done|]. cbn [check_dirs].
  rewrite IH, Hd. specialize (Hf q).
  destruct (files w !! q), (files v !! q); try done.
  - by pose proof (proj2 Hf eq_refl).
  - by pose proof (proj1 Hf eq_refl).
Qed.

Lemma make_each_fail_again qs w w' e v :
  make_each qs w = (w', Raise e) → same_kinds w' v →
  ∃ v', make_each qs v = (v', Raise e) ∧
        files v' = files v ∧ dirs v' = dirs v ∧ stdout v' = stdout v.
Proof.
  revert w v. induction qs as [|q qs IH]; intros w v; cbn [make_each]; [done|].
  destruct (fs_encode q) as [[]|e'] eqn:He.
  2:{ intros [= <- <-] _. by eexists. }
  destruct (files w !! q) eqn:Hq.
  - intros [= <- <-] [_ Hk]. destruct (files v !! q) eqn:Hv; [by eexists|].
    apply Hk in Hv. congruence.
  - intros Hrest Hk.
    pose proof (make_each_keeps _ _ _ _ Hrest) as (Hf & _ & Hd & _).
    cbn [files dirs] in *.
    assert (files v !! q = None) as ->.
    { destruct Hk as [_ Hk]. apply Hk. by rewrite Hf. }
    assert (q ∈ dirs v) as Hin by (destruct Hk as [<- _]; set_solver).
    destruct (IH _ (World (files v) ({[q]} ∪ dirs v) (stdout v)) Hrest)
      as (v' & -> & ? & Hd' & ?).
    { destruct Hk as [Hkd Hkf]. split; [cbn; set_solver|done]. }
    exists v'. split_and!; [done..| |done]. rewrite Hd'. cbn. set_solver.
Qed.

(** An operation that fails fails again, in the same way and without a
    change, in a world with the directories and the files it left. *)
Lemma apply_op_fail_again w o w' e v :
  apply_op w o = (w', Raise e) → same_kinds w' v →
  ∃ v', apply_op v o = (v', Raise e) ∧
        files v' = files v ∧ dirs v' = dirs v ∧ stdout v' = stdout v.
Proof.
  destruct o as [p|p t]; cbn [apply_op].
  - unfold makedirs. destruct (plain_path _).
    + apply make_each_fail_again.
    + intros [= <- <-] _. by eexists.
  - unfold write_text. destruct (plain_path p); [|intros [= <- <-] _; by eexists].
    destruct (fs_encode p) as [[]|e']; [|intros [= <- <-] _; by eexists].
    destruct (check_dirs _ w) as [[]|e'] eqn:Hc.
    + case_bool_decide as Hd; [|done]. intros [= <- <-] Hk.
      rewrite <- (check_dirs_kinds _ _ _ Hk), Hc.
      destruct Hk as [Hk _]. rewrite <- Hk, bool_decide_true by done. by eexists.
    + intros [= <- <-] Hk. rewrite <- (check_dirs_kinds _ _ _ Hk), Hc. by eexists.
Qed.

(** The operations of a run, done again where the run ended, end the same
    way; each file holds at the end what the run left in it, or what it
    held before when neither run writes it. *)
Lemma exec_again ops w w1 r v :
  exec ops w = (w1, r) → same_kinds w1 v →
  ∃ v', exec ops v = (v', r) ∧ dirs v' = dirs v ∧ stdout v' = stdout v ∧
        ∀ p, files v' !! p = files w1 !! p ∨
             (files v' !! p = files v !! p ∧ files w1 !! p = files w !! p).
Proof.
  revert w v. induction ops as [|o ops IH]; intros w v; cbn [exec].
  { intros [= <- <-] _. exists v. split_and!; [done..|]. by right. }
  destruct (apply_op w o) as [wa [[]|e]] eqn:Ho.
  - intros Hrest Hk.
    assert (done_op v o) as Hdone.
    { eapply done_op_kinds; [exact Hk|]. eapply done_op_exec; [|exact Hrest].
      eapply apply_op_done. exact Ho. }
    destruct (done_op_redo _ _ Hdone) as (va & -> & Hda & Hoa & Hfa).
    destruct (IH wa va Hrest) as (v' & -> & Hd' & Ho' & Hf').
    { eapply same_kinds_trans; [exact Hk|]. split; [done|]. intros q.
      rewrite Hfa. destruct o as [p|p t]; [done|].
      destruct Hdone as (_ & _ & _ & _ & [t' Ht']).
      destruct (decide (p = q)) as [->|Hne].
      - rewrite lookup_insert_eq, Ht'. done.
      - by rewrite lookup_insert_ne. }
    exists v'. split_and!; [done|congruence|congruence|].
    intros p. destruct (Hf' p) as [H|[H1 H2]]; [by left|].
    rewrite H1, H2, Hfa. destruct o as [q|q t]; cbn [apply_op] in Ho.
    + apply makedirs_keeps in Ho as (-> & _). by right.
    + apply write_text_ok in Ho as [_ ->]. cbn [files].
      destruct (decide (q = p)) as [->|Hne].
      * left. by rewrite !lookup_insert_eq.
      * right. by rewrite !lookup_insert_ne.
  - intros [= <- <-] Hk.
    destruct (apply_op_fail_again _ _ _ _ _ Ho Hk) as (v' & -> & Hf & Hd & Hs).
    exists v'. split_and!; [done..|]. intros p. rewrite Hf.
    right. split; [done|]. destruct o as [q|q t]; cbn [apply_op] in Ho.
    + apply makedirs_keeps in Ho as (-> & _). done.
    + by apply write_text_raise in Ho as ->.
Qed.



(** C7. If the input file does not exist, the entry point prints the error
    message and returns normally: no exception, and the files and the
    directories are as they were. *)
Theorem missing_input_reported (float_repr abspath : list N → list N)
    (input_file output_root : list N) (w : world) :
  path_exists input_file w = false →
  ∃ w',
    organize_scryfall_data float_repr abspath input_file output_root w = (w', Ok tt) ∧
    files w' = files w ∧ dirs w' = dirs w ∧
    stdout w' = stdout w ++
      [lit "Error: " ++ input_file ++
       lit " not found. Please ensure it is in the root directory."].
Proof.
  intros Hex. unfold organize_scryfall_data. rewrite Hex. cbn [negb].
  eexists. split; [reflexivity|]. done.
Qed.

Lemma missing_input_reported_witness :
  ∃ w',
    main demo_float_repr demo_abspath (World ∅ ∅ []) = (w', Ok tt) ∧
    files w' = ∅ ∧ dirs w' = ∅ ∧
    stdout w' =
      [lit "Error: oracle-cards.json not found. Please ensure it is in the root directory."].
Proof.
  apply (missing_input_reported _ _ (lit "oracle-cards.json")
           (lit "Scryfall_Organized") (World ∅ ∅ [])).
  reflexivity.
Defined.

Lemma path_exists_same path w w' :
  files w' !! path = files w !! path → dirs w' = dirs w →
  path_exists path w' = path_exists path w.
Proof. unfold path_exists. by intros -> ->. Qed.

Lemma read_text_same path w w' :
  files w' !! path = files w !! path → dirs w' = dirs w →
  read_text path w' = read_text path w.
Proof. unfold read_text. by intros -> ->. Qed.

(** C9. Running the program a second time on the same input document, in
    the file system the first run left, ends the same way and leaves the
    files and the directories as the first run left them.  (The paths and
    the texts written depend on the records alone, [process_cards_ops]; what
    succeeded is done and succeeds again, what failed fails again,
    [exec_again].) *)
Theorem organize_twice_same_tree (float_repr abspath : list N → list N)
    (input_file output_root : list N) (w0 w1 w2 : world) (r1 r2 : res unit) :
  organize_scryfall_data float_repr abspath input_file output_root w0 = (w1, r1) →
  files w1 !! input_file = files w0 !! input_file →
  organize_scryfall_data float_repr abspath input_file output_root w1 = (w2, r2) →
  files w2 = files w1 ∧ dirs w2 = dirs w1 ∧ r2 = r1.
Proof.
  unfold organize_scryfall_data. intros H1 Hsame H2.
  destruct (path_exists input_file w0) eqn:Hex; cbn [negb] in H1.
  2:{ apply pair_equal_spec in H1 as [<- <-].
      rewrite (path_exists_same _ w0) in H2 by done. rewrite Hex in H2.
      cbn [negb] in H2.
      by apply pair_equal_spec in H2 as [<- <-]. }
  set (w0' := print (lit "Reading dataset... this may take a moment.") w0) in *.
  set (w1' := print (lit "Reading dataset... this may take a moment.") w1) in *.
  assert (read_text input_file w0' = read_text input_file w0) as Hr0 by done.
  assert (read_text input_file w1' = read_text input_file w1) as Hr1 by done.
  rewrite Hr0 in H1. rewrite Hr1 in H2.
  destruct (read_text input_file w0) as [text|e] eqn:Hread.
  2:{ apply pair_equal_spec in H1 as [<- <-].
      rewrite (path_exists_same _ w0), Hex in H2 by done. cbn [negb] in H2.
      rewrite (read_text_same _ w0), Hread in H2 by done.
      by apply pair_equal_spec in H2 as [<- <-]. }
  assert (path_exists input_file w1 = true) as Hex1.
  { unfold path_exists. rewrite Hsame. unfold read_text in Hread.
    destruct (files w0 !! input_file) eqn:Hf.
    - by rewrite bool_decide_true by eauto.
    - by destruct (bool_decide _). }
  assert (read_text input_file w1 = Ok text) as Hread1.
  { unfold read_text in *. rewrite Hsame.
    destruct (files w0 !! input_file); [done|]. by destruct (bool_decide _). }
  rewrite Hex1, Hread1 in H2. cbn [negb] in H2.
  destruct (json_loads float_repr text) as [cards|e].
  2:{ apply pair_equal_spec in H1 as [<- <-]. by apply pair_equal_spec in H2 as [<- <-]. }
  destruct (py_iter cards) as [items|e].
  2:{ apply pair_equal_spec in H1 as [<- <-]. by apply pair_equal_spec in H2 as [<- <-]. }
  rewrite process_cards_ops in H1, H2.
  destruct (cards_ops output_root items) as [ops r]. cbn [fst snd] in H1, H2.
  unfold exec_then in H1, H2.
  destruct (exec ops w0') as [wa ra] eqn:Ha.
  assert (files w1 = files wa ∧ dirs w1 = dirs wa) as [Hf Hd].
  { destruct ra as [[]|e]; [destruct r as [[]|e]|];
      by apply pair_equal_spec in H1 as [<- _]. }
  destruct (exec_again _ _ _ _ w1' Ha) as (v' & Hv & Hd' & _ & Hf').
  { split; [done|]. intros q. unfold w1'. cbn [print files]. by rewrite Hf. }
  rewrite Hv in H2.
  assert (files v' = files w1) as Hfiles.
  { apply map_eq. intros q. rewrite Hf. destruct (Hf' q) as [H|[H _]]; [done|].
    rewrite H. unfold w1'. cbn [print files]. by rewrite Hf. }
  destruct ra as [[]|e]; [destruct r as [[]|e]|];
    apply pair_equal_spec in H1 as [_ <-];
    apply pair_equal_spec in H2 as [<- <-]; done.
Qed.

Lemma organize_twice_same_tree_witness :
  let first := main demo_float_repr demo_abspath demo_world in
  let second := main demo_float_repr demo_abspath first.1 in
  files second.1 = files first.1 ∧ dirs second.1 = dirs first.1 ∧
  second.2 = first.2.
Proof.
  cbn zeta.
  apply (organize_twice_same_tree demo_float_repr demo_abspath
           (lit "oracle-cards.json") (lit "Scryfall_Organized") demo_world).
  - apply surjective_pairing.
  - vm_compute. reflexivity.
  - apply surjective_pairing.
Defined.

(** ** Strings in JSON text *)

Lemma hex_val_digit d : d < 16 → hex_val (hex_digit d) = Some d.
Proof.
  intros Hd. unfold hex_digit, hex_val.
  destruct (N.ltb_spec d 10).
  - assert ((48 <=? 48 + d) && (48 + d <=? 57) = true) as ->.
    { apply andb_true_iff. split; apply N.leb_le; lia. }
    f_equal. lia.
  - assert ((48 <=? 87 + d) && (87 + d <=? 57) = false) as ->.
    { apply andb_false_iff. right. apply N.leb_gt. lia. }
    assert ((97 <=? 87 + d) && (87 + d <=? 102) = true) as ->.
    { apply andb_true_iff. split; apply N.leb_le; lia. }
    f_equal. lia.
Qed.

(** Four hexadecimal digits read back give the number written. *)
Lemma decode_u_escape c :
  c < 65536 →
  decode_uXXXX (hex_digit (c / 4096 mod 16)) (hex_digit (c / 256 mod 16))
               (hex_digit (c / 16 mod 16)) (hex_digit (c mod 16)) = Ok c.
Proof.
  intros Hc. unfold decode_uXXXX.
  rewrite !hex_val_digit by (apply N.mod_lt; lia). f_equal.
  replace (c / 4096) with (c / 16 / 16 / 16) by (rewrite !N.Div0.div_div; done).
  replace (c / 256) with (c / 16 / 16) by (rewrite !N.Div0.div_div; done).
  assert (16 ≠ 0) as H16 by done.
  assert (c / 16 / 16 / 16 / 16 = 0) as He
    by (rewrite !N.Div0.div_div; apply N.div_small; done).
  pose proof (N.div_mod c 16 H16) as E0.
  pose proof (N.div_mod (c / 16) 16 H16) as E1.
  pose proof (N.div_mod (c / 16 / 16) 16 H16) as E2.
  pose proof (N.div_mod (c / 16 / 16 / 16) 16 H16) as E3.
  rewrite He in E3.
  set (r0 := c mod 16) in *. set (a := c / 16) in *.
  set (r1 := a mod 16) in *. set (b := a / 16) in *.
  set (r2 := b mod 16) in *. set (d := b / 16) in *.
  set (r3 := d mod 16) in *. lia.
Qed.

Lemma lor_shiftl_add h l k : l < 2 ^ k → N.lor (N.shiftl h k) l = h * 2 ^ k + l.
Proof.
  intros Hl.
  assert (N.land (N.shiftl h k) l = 0) as Hland.
  { apply N.bits_inj; intros i; rewrite N.land_spec, N.bits_0.
    destruct (N.lt_ge_cases i k) as [Hi|Hi]; [by rewrite N.shiftl_spec_low|].
    destruct (N.eq_dec l 0) as [->|Hne]; [by rewrite N.bits_0, andb_false_r|].
    rewrite (N.bits_above_log2 l i), andb_false_r; [done|].
    apply N.log2_lt_pow2; [lia|].
    eapply N.lt_le_trans; [done|]. apply N.pow_le_mono_r; lia. }
  rewrite <- N.lxor_lor, <- N.add_nocarry_lxor, N.shiftl_mul_pow2; done.
Qed.

(** The two halves of a character above the basic plane. *)
Lemma surrogate_halves c :
  65536 ≤ c → c ≤ 1114111 →
  let n := c - 65536 in
  let s1 := N.lor 55296 (N.land (N.shiftr n 10) 1023) in
  let s2 := N.lor 56320 (N.land n 1023) in
  s1 < 65536 ∧ s2 < 65536 ∧
  is_high_surrogate s1 = true ∧ is_low_surrogate s2 = true ∧
  65536 + N.lor (N.shiftl (s1 - 55296) 10) (s2 - 56320) = c.
Proof.
  intros Hlo Hhi n s1 s2.
  assert (N.shiftr n 10 = n / 1024) as Hsr by exact (N.shiftr_div_pow2 n 10).
  assert (∀ x, N.land x 1023 = x mod 1024) as Hland
    by (intros x; exact (N.land_ones x 10)).
  assert (n / 1024 < 1024) as Hq by (apply N.Div0.div_lt_upper_bound; lia).
  assert (n mod 1024 < 1024) as Hr by (apply N.mod_lt; lia).
  assert (s1 = 55296 + n / 1024) as Hs1.
  { subst s1. rewrite Hsr, Hland, (N.mod_small _ _ Hq).
    change 55296 with (N.shiftl 54 10). rewrite lor_shiftl_add by done.
    rewrite N.shiftl_mul_pow2. done. }
  assert (s2 = 56320 + n mod 1024) as Hs2.
  { subst s2. rewrite Hland.
    change 56320 with (N.shiftl 55 10). rewrite lor_shiftl_add by done.
    rewrite N.shiftl_mul_pow2. done. }
  rewrite Hs1, Hs2. unfold is_high_surrogate, is_low_surrogate.
  assert (n = 1024 * (n / 1024) + n mod 1024) as Hn by (by apply N.div_mod).
  assert (c = 65536 + n) as Hc by lia.
  clearbody n. clear Hs1 Hs2 Hsr Hland. subst s1 s2.
  set (q := n / 1024) in *. set (r := n mod 1024) in *. clearbody q r.
  split; [lia|]. split; [lia|].
  split; [apply andb_true_iff; split; apply N.leb_le; lia|].
  split; [apply andb_true_iff; split; apply N.leb_le; lia|].
  replace (55296 + q - 55296) with q by lia.
  replace (56320 + r - 56320) with r by lia.
  rewrite lor_shiftl_add by done. change (2 ^ 10) with 1024. lia.
Qed.

Lemma scanstring_quote acc r : scanstring acc (34 :: r) = Ok (reverse acc, r).
Proof. done. Qed.

Lemma scanstring_plain acc c r :
  c ≠ 34 → c ≠ 92 → 32 ≤ c → scanstring acc (c :: r) = scanstring (c :: acc) r.
Proof.
  intros H1 H2 H3. cbn [scanstring]. rewrite !decide_False by done.
  by destruct (N.ltb_spec c 32); [lia|].
Qed.

Lemma scanstring_short acc e ch r :
  e ≠ 117 → backslash_char e = Ok ch →
  scanstring acc (92 :: e :: r) = scanstring (ch :: acc) r.
Proof.
  intros H1 H2. cbn [scanstring]. rewrite decide_False by done.
  rewrite decide_True by done. rewrite decide_False by done. by rewrite H2.
Qed.

(** One [\uXXXX] escape that is not the first half of a pair. *)
Lemma scanstring_u_single acc h1 h2 h3 h4 uni r2 :
  decode_uXXXX h1 h2 h3 h4 = Ok uni →
  is_high_surrogate uni = false ∨ startswith [92; 117] r2 = false →
  scanstring acc (92 :: 117 :: h1 :: h2 :: h3 :: h4 :: r2) =
    scanstring (uni :: acc) r2.
Proof.
  intros Hd Hno. cbn [scanstring]. rewrite decide_False by done.
  rewrite !decide_True by done. rewrite Hd.
  assert (∀ b u, startswith [92; 117] (b :: u :: drop 2 r2) = false →
    bool_decide (b = 92) && bool_decide (u = 117) = false) as Hsw.
  { intros b u. cbn [startswith]. repeat case_decide; subst; try done;
      rewrite ?bool_decide_false by done; by rewrite ?andb_false_r. }
  destruct r2 as [|b [|u r4]]; [done..|].
  assert (is_high_surrogate uni && bool_decide (b = 92) && bool_decide (u = 117)
          = false) as Hf.
  { destruct Hno as [->|Hno]; [done|]. rewrite <- andb_assoc.
    rewrite (Hsw b u) by done. apply andb_false_r. }
  destruct r4 as [|l1 [|l2 [|l3 [|l4 r4]]]]; by rewrite Hf.
Qed.

(** A [\uXXXX] escape of a high surrogate before an escape that is no low
    surrogate. *)
Lemma scanstring_u_unpaired acc h1 h2 h3 h4 uni l1 l2 l3 l4 uni2 r4 :
  decode_uXXXX h1 h2 h3 h4 = Ok uni →
  decode_uXXXX l1 l2 l3 l4 = Ok uni2 →
  is_low_surrogate uni2 = false →
  scanstring acc (92 :: 117 :: h1 :: h2 :: h3 :: h4 ::
                  92 :: 117 :: l1 :: l2 :: l3 :: l4 :: r4) =
    scanstring (uni :: acc) (92 :: 117 :: l1 :: l2 :: l3 :: l4 :: r4).
Proof.
  intros Hd Hd2 Hlow. cbn [scanstring]. rewrite decide_False by done.
  rewrite !decide_True by done. rewrite Hd.
  rewrite !bool_decide_true by done. rewrite !andb_true_r.
  destruct (is_high_surrogate uni); [|done]. by rewrite Hd2, Hlow.
Qed.

(** A surrogate pair is read as one character. *)
Lemma scanstring_u_pair acc h1 h2 h3 h4 uni l1 l2 l3 l4 uni2 r4 :
  decode_uXXXX h1 h2 h3 h4 = Ok uni →
  decode_uXXXX l1 l2 l3 l4 = Ok uni2 →
  is_high_surrogate uni = true → is_low_surrogate uni2 = true →
  scanstring acc (92 :: 117 :: h1 :: h2 :: h3 :: h4 ::
                  92 :: 117 :: l1 :: l2 :: l3 :: l4 :: r4) =
    scanstring (65536 + N.lor (N.shiftl (uni - 55296) 10) (uni2 - 56320) :: acc) r4.
Proof.
  intros Hd Hd2 Hhigh Hlow. cbn [scanstring]. rewrite decide_False by done.
  rewrite !decide_True by done. rewrite Hd.
  rewrite !bool_decide_true by done. rewrite !andb_true_r.
  by rewrite Hhigh, Hd2, Hlow.
Qed.

Lemma high_not_low c : is_high_surrogate c = true → is_low_surrogate c = false.
Proof.
  unfold is_high_surrogate, is_low_surrogate.
  intros [_ H%N.leb_le]%andb_true_iff. apply andb_false_iff. left.
  apply N.leb_gt. lia.
Qed.

Ltac escape_cases c :=
  unfold escape_char;
  destruct (decide (c = 92)) as [->|?]; [|
  destruct (decide (c = 34)) as [->|?]; [|
  destruct ((32 <=? c) && (c <=? 126)) eqn:?; [|
  destruct (decide (c = 8)) as [->|?]; [|
  destruct (decide (c = 12)) as [->|?]; [|
  destruct (decide (c = 10)) as [->|?]; [|
  destruct (decide (c = 13)) as [->|?]; [|
  destruct (decide (c = 9)) as [->|?]; [|
  destruct (N.ltb_spec c 65536)]]]]]]]].

Lemma escape_char_head b tail :
  b ≤ 1114111 → is_low_surrogate b = false →
  no_low_escape (escape_char b ++ tail).
Proof.
  intros Hb Hlow. escape_cases b; try (by left).
  - left. cbn [app startswith]. case_decide; [subst|]; done.
  - right. do 6 eexists. split; [reflexivity|]. split; [by apply decode_u_escape|done].
  - right. destruct (surrogate_halves b) as (H1 & H2 & Hh & Hl & Hc); [done..|].
    cbn zeta. do 6 eexists. split; [reflexivity|].
    split; [by apply decode_u_escape|]. by apply high_not_low.
Qed.

(** The text of one character reads back as that character. *)
Lemma scanstring_escape_char a acc tail :
  a ≤ 1114111 →
  (is_high_surrogate a = true → no_low_escape tail) →
  scanstring acc (escape_char a ++ tail) = scanstring (a :: acc) tail.
Proof.
  intros Ha Hguard. escape_cases a;
    try (by apply scanstring_short).
  - apply andb_true_iff in Heqb as [?%N.leb_le ?%N.leb_le].
    by apply scanstring_plain.
  - pose proof (decode_u_escape a H) as Hd. cbn [u_escape app].
    destruct (is_high_surrogate a) eqn:Hh.
    + destruct (Hguard eq_refl) as [Hs|(l1 & l2 & l3 & l4 & uni2 & r & -> & Hd2 & Hl)].
      * apply scanstring_u_single; auto.
      * by eapply scanstring_u_unpaired.
    + apply scanstring_u_single; auto.
  - destruct (surrogate_halves a) as (H1 & H2 & Hh & Hl & Hc); [done..|].
    cbn zeta in *. cbn [u_escape app].
    erewrite scanstring_u_pair;
      [|by apply decode_u_escape|by apply decode_u_escape|done..].
    by rewrite Hc.
Qed.

Lemma str_ok_cons a t :
  str_ok (a :: t) ↔
  a ≤ 1114111 ∧
  (is_high_surrogate a = true →
   match t with b :: _ => is_low_surrogate b = false | [] => True end) ∧
  str_ok t.
Proof. done. Qed.

(** [scanstring] reads back what [encode_str] writes. *)
Lemma scanstring_escape s acc rest :
  str_ok s →
  scanstring acc ((s ≫= escape_char) ++ 34 :: rest) = Ok (reverse acc ++ s, rest).
Proof.
  revert acc. induction s as [|a t IH]; intros acc Hok.
  - cbn. by rewrite app_nil_r.
  - apply str_ok_cons in Hok as (Ha & Hnext & Ht).
    change ((a :: t) ≫= escape_char) with (escape_char a ++ (t ≫= escape_char)).
    rewrite <- app_assoc, scanstring_escape_char; [|done|].
    + rewrite IH by done. rewrite reverse_cons, <- app_assoc. done.
    + intros Hh. specialize (Hnext Hh). destruct t as [|b t'].
      * by left.
      * change ((b :: t') ≫= escape_char) with (escape_char b ++ (t' ≫= escape_char)).
        rewrite <- app_assoc. apply escape_char_head; [|done].
        by apply str_ok_cons in Ht as [? _].
Qed.

Lemma scanstring_encode_str s rest :
  str_ok s → ∃ body, encode_str s ++ rest = 34 :: body ∧
                     scanstring [] body = Ok (s, rest).
Proof.
  intros Hok. exists ((s ≫= escape_char) ++ 34 :: rest). split.
  - unfold encode_str. by rewrite <- !app_assoc.
  - by rewrite scanstring_escape.
Qed.

(** ** Numbers in JSON text *)

Lemma delim_no_digit rest :
  delim rest →
  no_digit rest ∧ scan_frac rest = ([], rest) ∧ scan_exp rest = ([], rest).
Proof. destruct rest as [|c r]; [done|]. intros [->| ->]; done. Qed.

Lemma is_digit_elem c :
  is_digit c = true → c ∈ [48; 49; 50; 51; 52; 53; 54; 55; 56; 57].
Proof.
  unfold is_digit. intros [H1 H2]%andb_prop.
  apply N.leb_le in H1, H2.
  assert (c = 48 ∨ c = 49 ∨ c = 50 ∨ c = 51 ∨ c = 52 ∨ c = 53 ∨ c = 54 ∨
          c = 55 ∨ c = 56 ∨ c = 57) as Hc by lia.
  set_solver.
Qed.

Lemma uint_chars_digit_cons c u :
  is_digit c = true → uint_chars (digit_cons c u) = c :: uint_chars u.
Proof.
  intros Hc%is_digit_elem.
  repeat (apply elem_of_cons in Hc as [->|Hc]; [done|]).
  by apply elem_of_nil in Hc.
Qed.

Lemma scan_digits_uint u rest :
  no_digit rest → scan_digits (uint_chars u ++ rest) = (u, rest).
Proof.
  intros Hrest. induction u as [|u IH|u IH|u IH|u IH|u IH|u IH|u IH|u IH|u IH|u IH];
    try (cbn [uint_chars app scan_digits];
         change (is_digit (digit_char _)) with true; cbn iota; by rewrite IH).
  cbn [uint_chars app]. destruct rest as [|c r]; [done|].
  cbn [scan_digits]. unfold no_digit in Hrest. by rewrite Hrest.
Qed.

(** The digits [scan_digits] takes are those [uint_chars] writes. *)
Lemma scan_digits_inv s u r :
  scan_digits s = (u, r) → s = uint_chars u ++ r ∧ no_digit r.
Proof.
  revert u r. induction s as [|c s IH]; intros u r.
  - by intros [= <- <-].
  - cbn [scan_digits]. destruct (is_digit c) eqn:Hc.
    + destruct (scan_digits s) as [u' r'] eqn:Hs. intros [= <- <-].
      destruct (IH _ _ eq_refl) as [Heq Hr]. split; [|done].
      rewrite uint_chars_digit_cons by done. cbn [app]. by rewrite <- Heq.
    + intros [= <- <-]. split; [done|]. exact Hc.
Qed.

Lemma span_digits_app ds rest :
  Forall (λ c, is_digit c = true) ds → no_digit rest →
  span_digits (ds ++ rest) = (ds, rest).
Proof.
  intros Hds Hrest. induction Hds as [|c ds Hc _ IH].
  - destruct rest as [|c r]; [done|]. cbn [app span_digits].
    unfold no_digit in Hrest. by rewrite Hrest.
  - cbn [app span_digits]. by rewrite Hc, IH.
Qed.

Lemma span_digits_inv s ds r :
  span_digits s = (ds, r) →
  s = ds ++ r ∧ Forall (λ c, is_digit c = true) ds ∧ no_digit r.
Proof.
  revert ds r. induction s as [|c s IH]; intros ds r.
  - by intros [= <- <-].
  - cbn [span_digits]. destruct (is_digit c) eqn:Hc.
    + destruct (span_digits s) as [ds' r'] eqn:Hs. intros [= <- <-].
      destruct (IH _ _ eq_refl) as (Heq & Hds & Hr).
      split; [by rewrite Heq at 1|]. split; [by constructor|done].
    + intros [= <- <-]. split; [done|]. split; [constructor|exact Hc].
Qed.

Lemma pos_to_uint_head p u : Pos.to_uint p ≠ Decimal.D0 u.
Proof.
  pose proof (DecimalPos.Unsigned.to_of (Pos.to_uint p)) as H.
  rewrite DecimalPos.Unsigned.of_to in H. cbn [N.to_uint] in H.
  unfold Decimal.unorm in H.
  destruct (Decimal.nzhead (Pos.to_uint p)) eqn:Hnz;
    try (rewrite H, <- Hnz; apply DecimalFacts.nzhead_nonzero).
  exfalso. by apply (DecimalPos.Unsigned.to_uint_nonzero p).
Qed.

Lemma scan_int_pos p rest :
  no_digit rest →
  scan_int (uint_chars (Pos.to_uint p) ++ rest) = Some (Pos.to_uint p, rest).
Proof.
  intros Hrest. pose proof (scan_digits_uint (Pos.to_uint p) rest Hrest) as Hs.
  pose proof (pos_to_uint_head p) as Hhd.
  pose proof (DecimalPos.Unsigned.to_uint_nonnil p) as Hnil.
  destruct (Pos.to_uint p) as [|u|u|u|u|u|u|u|u|u|u]; try done;
    try (by destruct (Hhd u));
    cbn [uint_chars app scan_int] in *;
    change (is_digit (digit_char _)) with true;
    (rewrite decide_False by done); cbn iota; by rewrite Hs.
Qed.

(** The integer part [scan_int] takes is a digit followed by digits, and
    it is taken again from a text that goes on with no digit. *)
Lemma scan_int_inv s u r :
  scan_int s = Some (u, r) →
  s = uint_chars u ++ r ∧
  (∃ c cs, uint_chars u = c :: cs ∧ is_digit c = true) ∧
  ∀ rest, no_digit rest → scan_int (uint_chars u ++ rest) = Some (u, rest).
Proof.
  destruct s as [|c s]; [done|]. cbn [scan_int]. case_decide as Hc.
  - intros [= <- <-]. subst c. split; [done|]. split; [by eexists _, _|done].
  - destruct (is_digit c) eqn:Hd; [|done]. intros [= Hs].
    destruct (scan_digits_inv (c :: s) u r Hs) as [Heq Hr].
    cbn [scan_digits] in Hs. rewrite Hd in Hs.
    destruct (scan_digits s) as [u' r'] eqn:Hs'. injection Hs as <- <-.
    split; [done|]. split.
    { rewrite uint_chars_digit_cons by done. by eexists _, _. }
    intros rest Hrest.
    rewrite <- (scan_digits_uint (digit_cons c u') rest Hrest).
    rewrite uint_chars_digit_cons by done. cbn [app scan_int].
    by rewrite decide_False, Hd.
Qed.

Lemma scan_frac_inv s frac r :
  scan_frac s = (frac, r) →
  s = frac ++ r ∧
  (frac = [] ∨ ∃ ds, frac = 46 :: ds ∧ ds ≠ [] ∧
                     Forall (λ c, is_digit c = true) ds ∧ no_digit r).
Proof.
  unfold scan_frac. destruct s as [|dot s]; [intros [= <- <-]; auto|].
  case_bool_decide as Hdot; [|intros [= <- <-]; auto]. subst dot.
  destruct (span_digits s) as [[|d ds] r'] eqn:Hs; [intros [= <- <-]; auto|].
  intros [= <- <-]. apply span_digits_inv in Hs as (-> & Hds & Hr).
  split; [done|]. right. by exists (d :: ds).
Qed.

Lemma scan_exp_inv s exp r :
  scan_exp s = (exp, r) →
  s = exp ++ r ∧
  (exp = [] ∨ ∃ e sign ds, exp = e :: sign ++ ds ∧ e ∈ [101; 69] ∧
                 (sign = [] ∨ sign = [45] ∨ sign = [43]) ∧ ds ≠ [] ∧
                 Forall (λ c, is_digit c = true) ds ∧ no_digit r).
Proof.
  unfold scan_exp. destruct s as [|e s]; [intros [= <- <-]; auto|].
  case_bool_decide as He; [|intros [= <- <-]; auto].
  destruct (match s with
            | [] => ([], s)
            | c :: r' => if bool_decide (c ∈ [45; 43]) then ([c], r') else ([], s)
            end) as [sign r1] eqn:Hsign.
  assert (s = sign ++ r1 ∧ (sign = [] ∨ sign = [45] ∨ sign = [43]))
    as [-> Hsg].
  { destruct s as [|c s']; [injection Hsign as <- <-; auto|].
    case_bool_decide as Hc; injection Hsign as <- <-; [|auto].
    split; [done|]. set_solver. }
  destruct (span_digits r1) as [[|d ds] r'] eqn:Hs; [intros [= <- <-]; auto|].
  intros [= <- <-]. apply span_digits_inv in Hs as (-> & Hds & Hr).
  split; [cbn [app]; by rewrite <- app_assoc|]. right.
  by exists e, sign, (d :: ds).
Qed.

Lemma scan_frac_app frac rest :
  (∃ ds, frac = 46 :: ds ∧ ds ≠ [] ∧ Forall (λ c, is_digit c = true) ds) →
  no_digit rest → scan_frac (frac ++ rest) = (frac, rest).
Proof.
  intros (ds & -> & Hne & Hds) Hrest. cbn [app scan_frac].
  rewrite bool_decide_eq_true_2, span_digits_app by done. by destruct ds.
Qed.

Lemma scan_exp_app exp rest :
  (∃ e sign ds, exp = e :: sign ++ ds ∧ e ∈ [101; 69] ∧
       (sign = [] ∨ sign = [45] ∨ sign = [43]) ∧ ds ≠ [] ∧
       Forall (λ c, is_digit c = true) ds) →
  no_digit rest → scan_exp (exp ++ rest) = (exp, rest).
Proof.
  intros (e & sign & ds & -> & He & Hsign & Hne & Hds) Hrest.
  cbn [app scan_exp]. rewrite bool_decide_eq_true_2 by done.
  rewrite <- app_assoc.
  destruct Hsign as [->|[->| ->]]; cbn [app].
  - destruct ds as [|d ds]; [done|]. cbn [app].
    rewrite bool_decide_eq_false_2.
    + change (d :: ds ++ rest) with ((d :: ds) ++ rest).
      by rewrite span_digits_app.
    + apply Forall_cons in Hds as [Hd%is_digit_elem _]. intros Hin.
      repeat (apply elem_of_cons in Hd as [->|Hd]; [set_solver|]).
      by apply elem_of_nil in Hd.
  - rewrite bool_decide_eq_true_2 by set_solver.
    rewrite span_digits_app by done. by destruct ds.
  - rewrite bool_decide_eq_true_2 by set_solver.
    rewrite span_digits_app by done. by destruct ds.
Qed.

(** [match_number] reads back what [int_repr] writes. *)
Lemma scan_number_token_int n rest :
  delim rest → scan_number_token (int_repr n ++ rest) = Some (IntTok n, rest).
Proof.
  intros (Hd & Hf & He)%delim_no_digit. destruct n as [|p|p].
  - change (int_repr 0 ++ rest) with (48 :: rest). unfold scan_number_token.
    rewrite decide_False by done. cbn [scan_int].
    rewrite decide_True by done. by rewrite Hf, He.
  - unfold scan_number_token, int_repr.
    assert (∃ c r, uint_chars (Pos.to_uint p) ++ rest = c :: r ∧ c ≠ 45)
      as (c & r & Heq & Hc).
    { pose proof (DecimalPos.Unsigned.to_uint_nonnil p).
      destruct (Pos.to_uint p); try done; eexists _, _; (split; [reflexivity|done]). }
    rewrite Heq, decide_False by done. rewrite <- Heq, scan_int_pos by done.
    rewrite Hf, He. cbn [app].
    by rewrite (DecimalPos.Unsigned.of_to p : N.of_uint _ = _).
  - unfold scan_number_token, int_repr. change (lit "-") with [45].
    cbn [app]. rewrite decide_True by done. rewrite scan_int_pos by done.
    rewrite Hf, He. cbn [app].
    by rewrite (DecimalPos.Unsigned.of_to p : N.of_uint _ = _).
Qed.

(** What the text after the sign gives: the number takes a digit at least,
    and all it takes is in front of the rest. *)
Lemma scan_number_body_inv s1 u r0 frac r1 exp r2 :
  scan_int s1 = Some (u, r0) → scan_frac r0 = (frac, r1) →
  scan_exp r1 = (exp, r2) →
  (∃ c cs, s1 = c :: cs ∧ is_digit c = true) ∧ rest_of r0 s1 ∧ rest_of r2 s1.
Proof.
  intros (-> & (c & cs & Hu & Hc) & _)%scan_int_inv (-> & _)%scan_frac_inv
    (-> & _)%scan_exp_inv.
  rewrite Hu. split; [by eexists _, _|].
  split; (split; [|rewrite !length_app; cbn [length]; lia]).
  - by eexists.
  - exists ((c :: cs) ++ frac ++ exp). by rewrite <- !app_assoc.
Qed.

Lemma scan_number_token_inv s tok r :
  scan_number_token s = Some (tok, r) →
  rest_of r s ∧ ∃ c s', s = c :: s' ∧ (c = 45 ∨ is_digit c = true).
Proof.
  unfold scan_number_token. destruct s as [|c s']; [done|].
  destruct (decide (c = 45)) as [->|Hc].
  - destruct (scan_int s') as [[u r0]|] eqn:Hi; [|done].
    destruct (scan_frac r0) as [frac r1] eqn:Hf.
    destruct (scan_exp r1) as [exp r2] eqn:He.
    destruct (scan_number_body_inv _ _ _ _ _ _ _ Hi Hf He)
      as (_ & [H0 H0'] & [H2 H2']).
    intros Hs. split; [|eexists _, _; eauto].
    destruct (frac ++ exp); injection Hs as _ <-;
      (split; [by apply suffix_cons_r|cbn [length]; lia]).
  - destruct (scan_int (c :: s')) as [[u r0]|] eqn:Hi; [|done].
    destruct (scan_frac r0) as [frac r1] eqn:Hf.
    destruct (scan_exp r1) as [exp r2] eqn:He.
    destruct (scan_number_body_inv _ _ _ _ _ _ _ Hi Hf He)
      as ((c' & cs & [= <- <-] & Hd) & H0 & H2).
    intros Hs. split; [|eexists _, _; eauto].
    by destruct (frac ++ exp); injection Hs as _ <-.
Qed.

(** The text of a float that [match_number] takes is taken again, as a whole,
    from a text that goes on with a delimiter. *)
Lemma scan_number_token_again s t r rest :
  scan_number_token s = Some (FloatTok t, r) → delim rest →
  scan_number_token (t ++ rest) = Some (FloatTok t, rest).
Proof.
  intros Hs (Hd & Hf & He)%delim_no_digit. unfold scan_number_token in Hs.
  destruct (match s with
            | [] => (false, s)
            | c :: r => if decide (c = 45) then (true, r) else (false, s)
            end) as [neg s1].
  destruct (scan_int s1) as [[u r0]|] eqn:Hi; [|done].
  destruct (scan_frac r0) as [frac r1] eqn:Hfr.
  destruct (scan_exp r1) as [exp r2] eqn:Hex.
  destruct (frac ++ exp) as [|x tail] eqn:Htail; [done|].
  injection Hs as <- <-. rewrite <- Htail.
  apply scan_int_inv in Hi as (_ & (c & cs & Hu & Hc) & Hint).
  apply scan_frac_inv in Hfr as (_ & Hfrac).
  apply scan_exp_inv in Hex as (_ & Hexp).
  assert (scan_exp (exp ++ rest) = (exp, rest) ∧ no_digit (exp ++ rest) ∧
          scan_frac (exp ++ rest) = ([], exp ++ rest)) as (He' & Hnd & Hf').
  { destruct Hexp as [->|(e & sign & ds & -> & Hin & Hsign & Hne & Hds & _)];
      [done|].
    split; [apply scan_exp_app; [by exists e, sign, ds|done]|].
    apply elem_of_cons in Hin as [->|Hin]; [done|].
    by apply list_elem_of_singleton in Hin as ->. }
  assert (scan_frac (frac ++ exp ++ rest) = (frac, exp ++ rest) ∧
          no_digit (frac ++ exp ++ rest)) as [Hf'' Hnd'].
  { destruct Hfrac as [->|(ds & -> & Hne & Hds & _)]; [done|].
    split; [apply scan_frac_app; [by exists ds|done]|done]. }
  unfold scan_number_token. rewrite <- !app_assoc. destruct neg.
  - cbn [app]. rewrite decide_True by done. rewrite Hint by done.
    by rewrite Hf'', He', Htail.
  - cbn [app].
    assert (∃ c' r', uint_chars u ++ frac ++ exp ++ rest = c' :: r' ∧ c' ≠ 45)
      as (c' & r' & Heq & Hc').
    { rewrite Hu. eexists _, _. split; [reflexivity|]. by intros ->. }
    rewrite Heq, decide_False by done. rewrite <- Heq, Hint by done.
    by rewrite Hf'', He', Htail.
Qed.

Lemma startswith_drop_rest p s :
  p ≠ [] → startswith p s = true → rest_of (drop (length p) s) s.
Proof.
  intros Hp Hs. pose proof (startswith_inv _ _ Hs) as Heq. split.
  - exists p. done.
  - apply (f_equal length) in Heq. rewrite length_app in Heq.
    destruct p; [done|]. cbn [length] in *. lia.
Qed.

Section Codec.
Variable float_repr : list N → list N.

(** [scan_number] reads back what [int_repr] writes. *)
Lemma scan_number_int_repr n rest :
  int_str_ok n = true → delim rest →
  scan_number float_repr (int_repr n ++ rest) = Ok (JInt n, rest).
Proof.
  intros Hn H. unfold scan_number. by rewrite scan_number_token_int, Hn.
Qed.

Lemma scan_number_inv s v r :
  scan_number float_repr s = Ok (v, r) →
  rest_of r s ∧ ∃ c s', s = c :: s' ∧ (c = 45 ∨ is_digit c = true ∨ c = 73).
Proof.
  unfold scan_number. destruct (scan_number_token s) as [[tok r']|] eqn:Hs.
  - destruct (scan_number_token_inv _ _ _ Hs) as (Hr & c & s' & -> & Hc).
    destruct tok as [n|t]; [destruct (int_str_ok n); [|done]|];
      intros [= _ <-]; (split; [done|]); exists c, s'; naive_solver.
  - destruct (startswith (lit "NaN") s); [done|].
    destruct (startswith (lit "Infinity") s) eqn:H1.
    { intros [= _ <-]. split; [by apply (startswith_drop_rest (lit "Infinity"))|].
      apply startswith_inv in H1 as ->. eexists _, _. split; [reflexivity|auto]. }
    destruct (startswith (lit "-Infinity") s) eqn:H2; [|done].
    intros [= _ <-]. split; [by apply (startswith_drop_rest (lit "-Infinity"))|].
    apply startswith_inv in H2 as ->. eexists _, _. split; [reflexivity|auto].
Qed.

Lemma scan_number_raise s e :
  scan_number float_repr s = Raise e →
  e = NaNNotModelled ∨ e = JSONDecodeError ∨ e = ValueError.
Proof.
  unfold scan_number. destruct (scan_number_token s) as [[[n|t] r]|]; [|done|].
  { destruct (int_str_ok n); [done|]. intros [= <-]; auto. }
  repeat (destruct (startswith _ s); [by (intros [= <-]; auto) || done|]).
  intros [= <-]; auto.
Qed.

(** The text of a canonical float is read back as that float. *)
Lemma scan_number_float_text r rest :
  canonical float_repr r → delim rest →
  scan_number float_repr (float_text r ++ rest) = Ok (JFloat r, rest).
Proof.
  intros Hr Hrest. unfold float_text.
  destruct (decide (r = lit "inf")) as [->|?]; [reflexivity|].
  destruct (decide (r = lit "-inf")) as [->|?]; [reflexivity|].
  destruct Hr as [?|[?|Hr]]; [done..|]. by apply Hr.
Qed.

(** ** Values in JSON text *)

Section json_induction.
Variable P : json → Prop.
Hypothesis Hnull : P JNull.
Hypothesis Hbool : ∀ b, P (JBool b).
Hypothesis Hint : ∀ n, P (JInt n).
Hypothesis Hfloat : ∀ r, P (JFloat r).
Hypothesis Hstr : ∀ s, P (JStr s).
Hypothesis Harr : ∀ l, Forall P l → P (JArr l).
Hypothesis Hobj : ∀ kvs, Forall (λ kv, P kv.2) kvs → P (JObj kvs).

Fixpoint json_nested_ind (v : json) : P v :=
  match v with
  | JNull => Hnull
  | JBool b => Hbool b
  | JInt n => Hint n
  | JFloat r => Hfloat r
  | JStr s => Hstr s
  | JArr l =>
      Harr l ((fix go (l : list json) : Forall P l :=
                 match l with
                 | [] => @List.Forall_nil _ P
                 | x :: l' => @List.Forall_cons _ P x l' (json_nested_ind x) (go l')
                 end) l)
  | JObj kvs =>
      Hobj kvs ((fix go (kvs : list (pystr * json)) : Forall (λ kv, P kv.2) kvs :=
                   match kvs with
                   | [] => @List.Forall_nil _ (λ kv, P kv.2)
                   | kv :: kvs' =>
                       @List.Forall_cons _ (λ kv, P kv.2) kv kvs'
                         (json_nested_ind kv.2) (go kvs')
                   end) kvs)
  end.
End json_induction.

Lemma json_wf_arr l : json_wf float_repr (JArr l) ↔ Forall (json_wf float_repr) l.
Proof.
  induction l as [|x l IH]; [by split; [constructor|]|].
  rewrite Forall_cons, <- IH. done.
Qed.

Lemma json_wf_obj kvs :
  json_wf float_repr (JObj kvs) ↔
  NoDup kvs.*1 ∧ Forall (λ kv, str_ok kv.1 ∧ json_wf float_repr kv.2) kvs.
Proof.
  cbn [json_wf]. apply and_iff_compat_l.
  induction kvs as [|kv kvs IH]; [by split; [constructor|]|].
  rewrite Forall_cons, <- IH. tauto.
Qed.

(** *** What [json.dump] writes *)

Lemma str_join_cons2 sep (p q : pystr) parts :
  str_join sep (p :: q :: parts) = p ++ sep ++ str_join sep (q :: parts).
Proof. done. Qed.

Lemma dump_items_inv dump sep buf l t (f : json → pystr) :
  Forall (λ x, ∀ t, dump x = (t, Ok tt) → t = f x) l →
  dump_items dump sep buf l = (t, Ok tt) → l ≠ [] →
  t = buf ++ str_join sep (f <$> l).
Proof.
  revert buf t. induction l as [|x l IH]; intros buf t Hall; [done|].
  apply Forall_cons in Hall as [Hx Hall]. cbn [dump_items].
  destruct (dump x) as [tx [[]|e]]; [|done].
  destruct (dump_items dump sep sep l) as [t' r] eqn:Hrest.
  intros Heq _. apply pair_equal_spec in Heq as [<- ->].
  rewrite (Hx tx eq_refl).
  destruct l as [|y l].
  - cbn [dump_items] in Hrest. apply pair_equal_spec in Hrest as [<- _].
    cbn [fmap list_fmap str_join]. by rewrite ?app_nil_r.
  - rewrite (IH sep t' Hall Hrest) by done.
    cbn [fmap list_fmap]. by rewrite str_join_cons2.
Qed.

Lemma dump_members_inv dump sep buf kvs t (f : json → pystr) :
  Forall (λ kv, ∀ t, dump kv.2 = (t, Ok tt) → t = f kv.2) kvs →
  dump_members dump sep buf kvs = (t, Ok tt) → kvs ≠ [] →
  t = buf ++ str_join sep ((λ kv, encode_str kv.1 ++ lit ": " ++ f kv.2) <$> kvs).
Proof.
  revert buf t. induction kvs as [|kv kvs IH]; intros buf t Hall; [done|].
  apply Forall_cons in Hall as [Hx Hall]. cbn [dump_members].
  destruct (dump kv.2) as [tx [[]|e]]; [|done].
  destruct (dump_members dump sep sep kvs) as [t' r] eqn:Hrest.
  intros Heq _. apply pair_equal_spec in Heq as [<- ->].
  rewrite (Hx tx eq_refl).
  destruct kvs as [|kv' kvs].
  - cbn [dump_members] in Hrest. apply pair_equal_spec in Hrest as [<- _].
    cbn [fmap list_fmap str_join]. by rewrite ?app_nil_r, <- ?app_assoc.
  - rewrite (IH sep t' Hall Hrest) by done.
    cbn [fmap list_fmap]. rewrite str_join_cons2. by rewrite <- ?app_assoc.
Qed.

(** When [json.dump] returns, the text is [json.dumps]'. *)
Lemma dump_at_inv v : ∀ level t, dump_at level v = (t, Ok tt) → t = dumps_at level v.
Proof.
  induction v as [|b|n|r|s|l IH|kvs IH] using json_nested_ind; intros level t;
    try (by intros [= <-]).
  - cbn [dump_at dumps_at]. destruct (int_str_ok n); [|done]. by intros [= <-].
  - destruct l as [|x l]; [by intros [= <-]|].
    cbn [dump_at dumps_at].
    destruct (dump_items _ _ _ (x :: l)) as [t' [[]|e]] eqn:Hl; [|done].
    intros [= <-].
    rewrite (dump_items_inv _ _ _ _ _ (dumps_at (S level)) (Forall_impl _ _ _ IH
               (λ x H, H (S level))) Hl) by done.
    by rewrite <- !app_assoc.
  - destruct kvs as [|kv kvs]; [by intros [= <-]|].
    cbn [dump_at dumps_at].
    destruct (dump_members _ _ _ (kv :: kvs)) as [t' [[]|e]] eqn:Hl; [|done].
    intros [= <-].
    rewrite (dump_members_inv _ _ _ _ _ (dumps_at (S level))
               (Forall_impl _ _ _ IH (λ x H, H (S level))) Hl) by done.
    by rewrite <- !app_assoc.
Qed.

Lemma dump_items_wf dump sep buf l (f : json → pystr) :
  Forall (λ x, dump x = (f x, Ok tt)) l → l ≠ [] →
  dump_items dump sep buf l = (buf ++ str_join sep (f <$> l), Ok tt).
Proof.
  revert buf. induction l as [|x l IH]; intros buf Hall; [done|]. intros _.
  apply Forall_cons in Hall as [Hx Hall]. cbn [dump_items]. rewrite Hx.
  destruct l as [|y l].
  - cbn. by rewrite !app_nil_r.
  - rewrite (IH sep Hall) by done. cbn [fmap list_fmap].
    by rewrite str_join_cons2.
Qed.

Lemma dump_members_wf dump sep buf kvs (f : json → pystr) :
  Forall (λ kv, dump kv.2 = (f kv.2, Ok tt)) kvs → kvs ≠ [] →
  dump_members dump sep buf kvs =
    (buf ++ str_join sep ((λ kv, encode_str kv.1 ++ lit ": " ++ f kv.2) <$> kvs),
     Ok tt).
Proof.
  revert buf. induction kvs as [|kv kvs IH]; intros buf Hall; [done|]. intros _.
  apply Forall_cons in Hall as [Hx Hall]. cbn [dump_members]. rewrite Hx.
  destruct kvs as [|kv' kvs].
  - cbn [dump_members fmap list_fmap str_join].
    by rewrite ?app_nil_r, <- ?app_assoc.
  - rewrite (IH sep Hall) by done. cbn [fmap list_fmap].
    rewrite str_join_cons2. by rewrite <- !app_assoc.
Qed.

(** [json.dump] returns on every loaded value, with the text of
    [json.dumps]. *)
Lemma dump_at_wf v :
  json_wf float_repr v → ∀ level, dump_at level v = (dumps_at level v, Ok tt).
Proof.
  induction v as [|b|n|r|s|l IH|kvs IH] using json_nested_ind; intros Hwf level;
    try done.
  - cbn [dump_at dumps_at]. cbn in Hwf. by rewrite Hwf.
  - destruct l as [|x l]; [done|]. cbn [dump_at dumps_at].
    apply json_wf_arr in Hwf.
    rewrite (dump_items_wf _ _ _ _ (dumps_at (S level))); [|
      rewrite Forall_forall in IH, Hwf |- *; intros y Hy; by apply IH, Hwf|done].
    by rewrite <- !app_assoc.
  - destruct kvs as [|kv kvs]; [done|]. cbn [dump_at dumps_at].
    apply json_wf_obj in Hwf as [_ Hwf].
    rewrite (dump_members_wf _ _ _ _ (dumps_at (S level))); [|
      rewrite Forall_forall in IH, Hwf |- *; intros y Hy; by apply IH, Hwf|done].
    by rewrite <- !app_assoc.
Qed.

Lemma json_dump_inv v t : json_dump v = (t, Ok tt) → t = json_dumps v.
Proof. apply dump_at_inv. Qed.

Lemma json_dump_wf v : json_wf float_repr v → json_dump v = (json_dumps v, Ok tt).
Proof. intros H. by apply dump_at_wf. Qed.

Lemma scan_once_S fuel s :
  scan_once float_repr (S fuel) s =
    match s with
    | [] => Raise JSONDecodeError
    | c :: r =>
        if decide (c = 34) then
          do (str, r') <- scanstring [] r; Ok (JStr str, r')
        else if decide (c = 123) then
          do (pairs, r') <- parse_object float_repr fuel r;
          Ok (JObj (dict_of_pairs pairs), r')
        else if decide (c = 91) then
          do (values, r') <- parse_array float_repr fuel r; Ok (JArr values, r')
        else if startswith (lit "null") s then Ok (JNull, drop 4 s)
        else if startswith (lit "true") s then Ok (JBool true, drop 4 s)
        else if startswith (lit "false") s then Ok (JBool false, drop 5 s)
        else scan_number float_repr s
    end.
Proof. done. Qed.

(** A number is left to [scan_number]. *)
Lemma scan_once_number fuel s v r :
  scan_number float_repr s = Ok (v, r) →
  scan_once float_repr (S fuel) s = Ok (v, r).
Proof.
  intros Hs. destruct (scan_number_inv _ _ _ Hs) as (_ & c & s' & -> & Hc).
  rewrite scan_once_S.
  destruct Hc as [->|[Hc%is_digit_elem| ->]]; [exact Hs| |exact Hs].
  repeat (apply elem_of_cons in Hc as [->|Hc]; [exact Hs|]).
  by apply elem_of_nil in Hc.
Qed.

Lemma parse_array_S fuel s :
  parse_array float_repr (S fuel) s =
    match skip_ws s with
    | [] => array_items float_repr fuel []
    | c :: r => if decide (c = 93) then Ok ([], r) else array_items float_repr fuel (c :: r)
    end.
Proof. done. Qed.

Lemma array_items_S fuel s :
  array_items float_repr (S fuel) s =
    do (value, r) <- scan_once float_repr fuel s;
    match skip_ws r with
    | [] => Raise JSONDecodeError
    | c :: r' =>
        if decide (c = 93) then Ok ([value], r')
        else if decide (c = 44) then
          do (values, r'') <- array_items float_repr fuel (skip_ws r');
          Ok (value :: values, r'')
        else Raise JSONDecodeError
    end.
Proof. done. Qed.

Lemma parse_object_S fuel s :
  parse_object float_repr (S fuel) s =
    match skip_ws s with
    | [] => Raise JSONDecodeError
    | c :: r =>
        if decide (c = 125) then Ok ([], r)
        else if decide (c = 34) then object_items float_repr fuel r
        else Raise JSONDecodeError
    end.
Proof. done. Qed.

Lemma object_items_S fuel s :
  object_items float_repr (S fuel) s =
    do (key, r) <- scanstring [] s;
    match skip_ws r with
    | [] => Raise JSONDecodeError
    | colon :: r1 =>
        if decide (colon = 58) then
          do (value, r2) <- scan_once float_repr fuel (skip_ws r1);
          match skip_ws r2 with
          | [] => Raise JSONDecodeError
          | c :: r3 =>
              if decide (c = 125) then Ok ([(key, value)], r3)
              else if decide (c = 44) then
                match skip_ws r3 with
                | [] => Raise JSONDecodeError
                | q :: r4 =>
                    if decide (q = 34) then
                      do (pairs, r5) <- object_items float_repr fuel r4;
                      Ok ((key, value) :: pairs, r5)
                    else Raise JSONDecodeError
                end
              else Raise JSONDecodeError
          end
        else Raise JSONDecodeError
    end.
Proof. done. Qed.

Lemma skip_ws_start c r : is_ws c = false → skip_ws (c :: r) = c :: r.
Proof. intros H. cbn [skip_ws]. by rewrite H. Qed.

Lemma skip_ws_newline_indent level s :
  skip_ws (newline_indent level ++ s) = skip_ws s.
Proof.
  unfold newline_indent. cbn [app skip_ws]. change (is_ws 10) with true. cbn iota.
  induction (4 * level)%nat as [|n IH]; [done|].
  cbn [replicate app skip_ws]. change (is_ws 32) with true. by cbn iota.
Qed.

(** The text of a value starts with a character that is no white space and
    no closing bracket. *)
Lemma dumps_at_start level v rest :
  json_wf float_repr v →
  ∃ c r, dumps_at level v ++ rest = c :: r ∧
         is_ws c = false ∧ c ≠ 93 ∧ c ≠ 65279.
Proof.
  destruct v as [|[]|[|p|p]|t|s|[|x l]|[|kv kvs]]; intros Hwf;
    try (eexists _, _; split; [reflexivity|done]).
  - pose proof (DecimalPos.Unsigned.to_uint_nonnil p).
    cbn [dumps_at int_repr]. destruct (Pos.to_uint p); try done;
      (eexists _, _; split; [reflexivity|done]).
  - pose proof (scan_number_float_text t [] Hwf I) as Hs.
    apply scan_number_inv in Hs as (_ & c & r & Heq & Hc).
    rewrite app_nil_r in Heq. cbn [dumps_at]. rewrite Heq.
    exists c, (r ++ rest). split; [done|].
    destruct Hc as [->|[Hc%is_digit_elem| ->]]; [done| |done].
    repeat (apply elem_of_cons in Hc as [->|Hc]; [done|]).
    by apply elem_of_nil in Hc.
Qed.

Lemma skip_ws_dumps_at level v rest :
  json_wf float_repr v →
  skip_ws (dumps_at level v ++ rest) = dumps_at level v ++ rest.
Proof.
  intros Hwf.
  destruct (dumps_at_start level v rest Hwf) as (c & r & -> & Hws & _).
  by apply skip_ws_start.
Qed.

Lemma dict_set_fresh k v d : k ∉ d.*1 → dict_set k v d = d ++ [(k, v)].
Proof.
  induction d as [|[k' v'] d IH]; [done|]. cbn [fmap list_fmap fst dict_set].
  rewrite not_elem_of_cons. intros [Hne Hd]. rewrite decide_False by done.
  by rewrite IH.
Qed.

Lemma dict_of_pairs_loop acc kvs :
  NoDup (acc.*1 ++ kvs.*1) →
  foldl (λ d kv, dict_set kv.1 kv.2 d) acc kvs = acc ++ kvs.
Proof.
  revert acc. induction kvs as [|[k v] kvs IH]; intros acc Hnd.
  - by rewrite app_nil_r.
  - cbn [foldl fst snd]. cbn [fmap list_fmap fst] in Hnd.
    rewrite dict_set_fresh.
    + rewrite IH; [by rewrite <- app_assoc|].
      rewrite fmap_app. cbn [fmap list_fmap fst]. by rewrite <- app_assoc.
    + apply NoDup_app in Hnd as (_ & Hdis & _). intros Hin.
      apply (Hdis k Hin). left.
Qed.

(** A list of pairs with distinct keys is the dict built from it. *)
Lemma dict_of_pairs_nodup kvs : NoDup kvs.*1 → dict_of_pairs kvs = kvs.
Proof. intros H. unfold dict_of_pairs. by rewrite dict_of_pairs_loop. Qed.

Lemma str_join_head sep (d : list N) ds : ∃ tail, str_join sep (d :: ds) = d ++ tail.
Proof. destruct ds; [exists []; by rewrite app_nil_r|by eexists]. Qed.

Ltac len :=
  try lia;
  repeat first
    [ progress (rewrite ?length_app in *)
    | progress (cbn [length app] in *)
    | progress (unfold newline_indent in *) ];
  lia.

Lemma array_items_reads_back level rest l :
  Forall (reads_back float_repr) l → Forall (json_wf float_repr) l →
  ∀ x fuel text, reads_back float_repr x → json_wf float_repr x →
  text = str_join (44 :: newline_indent (S level))
           (dumps_at (S level) <$> (x :: l)) ++
         newline_indent level ++ 93 :: rest →
  (3 * length text + 2 ≤ fuel)%nat →
  array_items float_repr fuel text = Ok (x :: l, rest).
Proof.
  induction 1 as [|y l Hy Hl IH]; intros Hwf x fuel text Hx Hxwf -> Hfuel.
  - cbn [fmap list_fmap str_join] in *. destruct fuel as [|f]; [lia|].
    rewrite array_items_S, Hx; [|done|by right|lia]. cbn [bind].
    rewrite skip_ws_newline_indent, skip_ws_start by done.
    by rewrite decide_True.
  - apply Forall_cons in Hwf as [Hywf Hwf].
    rewrite !fmap_cons, str_join_cons2 in *. rewrite <- !app_assoc in *.
    rewrite <- fmap_cons in *.
    destruct fuel as [|f]; [lia|].
    rewrite array_items_S, Hx; [|done|by left|cbn [app] in *; len]. cbn [bind app].
    rewrite skip_ws_start, decide_False, decide_True by done.
    rewrite skip_ws_newline_indent.
    assert (skip_ws (str_join (44 :: newline_indent (S level))
                       (dumps_at (S level) <$> y :: l) ++
                     newline_indent level ++ 93 :: rest) =
            str_join (44 :: newline_indent (S level))
              (dumps_at (S level) <$> y :: l) ++
            newline_indent level ++ 93 :: rest) as ->.
    { rewrite fmap_cons.
      destruct (str_join_head (44 :: newline_indent (S level))
                  (dumps_at (S level) y) (dumps_at (S level) <$> l)) as [tl ->].
      rewrite <- app_assoc. by apply skip_ws_dumps_at. }
    rewrite (IH Hwf y f _ Hy Hywf eq_refl); [done|]. cbn [app] in Hfuel. len.
Qed.

Lemma str_join_cons_ne sep (x : list N) l :
  l ≠ [] → str_join sep (x :: l) = x ++ sep ++ str_join sep l.
Proof. by destruct l. Qed.

Lemma encode_str_quote s : ∃ b, encode_str s = 34 :: b.
Proof. by eexists. Qed.

Lemma object_items_reads_back level rest kvs :
  Forall (λ kv, reads_back float_repr kv.2) kvs →
  Forall (λ kv, str_ok kv.1 ∧ json_wf float_repr kv.2) kvs →
  ∀ k v fuel body, reads_back float_repr v → str_ok k → json_wf float_repr v →
  34 :: body =
    str_join (44 :: newline_indent (S level))
      ((λ kv, encode_str kv.1 ++ lit ": " ++ dumps_at (S level) kv.2)
         <$> ((k, v) :: kvs)) ++
    newline_indent level ++ 125 :: rest →
  (3 * length body + 2 ≤ fuel)%nat →
  object_items float_repr fuel body = Ok ((k, v) :: kvs, rest).
Proof.
  change (lit ": ") with [58; 32].
  induction 1 as [|[k' v'] kvs Hv' Hkvs IH];
    intros Hwf k v fuel body Hv Hk Hvwf Hbody Hfuel.
  - cbn [fmap list_fmap str_join fst snd] in Hbody.
    rewrite <- !app_assoc in Hbody. cbn [app] in Hbody.
    destruct (scanstring_encode_str k
                (58 :: 32 :: dumps_at (S level) v ++
                 newline_indent level ++ 125 :: rest) Hk) as (b & Hb & Hscan).
    rewrite Hb in Hbody. injection Hbody as ->.
    apply (f_equal length) in Hb.
    destruct fuel as [|f]; [lia|].
    rewrite object_items_S, Hscan. cbn [bind].
    rewrite skip_ws_start, decide_True by done.
    change (skip_ws (32 :: ?s)) with (skip_ws s).
    rewrite skip_ws_dumps_at by done.
    rewrite Hv; [|done|by right|len]. cbn [bind].
    rewrite skip_ws_newline_indent, skip_ws_start by done.
    by rewrite decide_True.
  - apply Forall_cons in Hwf as [[Hk' Hv'wf] Hwf]. cbn [fst snd] in *.
    rewrite fmap_cons, str_join_cons_ne in Hbody by done. cbn [fst snd] in Hbody.
    rewrite <- !app_assoc in Hbody. cbn [app] in Hbody.
    set (more := str_join (44 :: newline_indent (S level))
                   ((λ kv, encode_str kv.1 ++ 58 :: 32 :: dumps_at (S level) kv.2)
                      <$> (k', v') :: kvs) ++
                 newline_indent level ++ 125 :: rest) in *.
    destruct (scanstring_encode_str k
                (58 :: 32 :: dumps_at (S level) v ++
                 44 :: newline_indent (S level) ++ more) Hk) as (b & Hb & Hscan).
    rewrite Hb in Hbody. injection Hbody as ->.
    apply (f_equal length) in Hb.
    assert (∃ body', more = 34 :: body') as [body' Hmore].
    { subst more. rewrite fmap_cons. cbn [fst snd].
      destruct (str_join_head (44 :: newline_indent (S level))
                  (encode_str k' ++ 58 :: 32 :: dumps_at (S level) v')
                  ((λ kv, encode_str kv.1 ++ 58 :: 32 :: dumps_at (S level) kv.2)
                     <$> kvs)) as [tl ->].
      destruct (encode_str_quote k') as [b' ->]. by eexists. }
    destruct fuel as [|f]; [lia|].
    rewrite object_items_S, Hscan. cbn [bind].
    rewrite skip_ws_start, decide_True by done.
    change (skip_ws (32 :: ?s)) with (skip_ws s).
    rewrite skip_ws_dumps_at by done.
    rewrite Hv; [|done|by left|len]. cbn [bind].
    rewrite skip_ws_start, decide_False, decide_True by done.
    rewrite skip_ws_newline_indent, Hmore, skip_ws_start, decide_True by done.
    rewrite (IH Hwf k' v' f body' Hv' Hk' Hv'wf); [done|by rewrite <- Hmore|].
    rewrite Hmore in Hb. len.
Qed.

(** The scanner reads back the text of every well-formed value. *)
Lemma scan_once_dumps_at v : reads_back float_repr v.
Proof.
  induction v as [|b|n|t|s|l IH|kvs IH] using json_nested_ind;
    intros Hwf level rest fuel Hrest Hfuel;
    (destruct fuel as [|f]; [lia|]).
  - done.
  - by destruct b.
  - apply scan_once_number. by apply scan_number_int_repr.
  - apply scan_once_number. by apply scan_number_float_text.
  - destruct (scanstring_encode_str s rest Hwf) as (body & Hb & Hscan).
    cbn [dumps_at]. rewrite Hb, scan_once_S, decide_True by done.
    by rewrite Hscan.
  - apply json_wf_arr in Hwf. destruct l as [|x l].
    + change (dumps_at level (JArr []) ++ rest) with (91 :: 93 :: rest) in *.
      rewrite scan_once_S. rewrite !decide_False, decide_True by done.
      destruct f as [|f]; [cbn [length] in Hfuel; lia|].
      rewrite parse_array_S, skip_ws_start, decide_True by done. done.
    + apply Forall_cons in IH as [Hx IH]. apply Forall_cons in Hwf as [Hxwf Hwf].
      change (dumps_at level (JArr (x :: l)))
        with (91 :: newline_indent (S level) ++
              str_join (44 :: newline_indent (S level))
                (dumps_at (S level) <$> x :: l) ++
              newline_indent level ++ [93]) in *.
      cbn [app] in *. rewrite <- !app_assoc in *. cbn [app] in *.
      rewrite scan_once_S. rewrite !decide_False, decide_True by done.
      destruct f as [|f]; [cbn [length] in Hfuel; lia|].
      rewrite parse_array_S, skip_ws_newline_indent.
      destruct (str_join_head (44 :: newline_indent (S level))
                  (dumps_at (S level) x) (dumps_at (S level) <$> l)) as [tl Htl].
      destruct (dumps_at_start (S level) x
                  (tl ++ newline_indent level ++ 93 :: rest) Hxwf)
        as (c & r & Hcr & Hws & H93 & _).
      rewrite fmap_cons, Htl, <- app_assoc, Hcr.
      rewrite skip_ws_start, decide_False by done.
      rewrite <- Hcr, app_assoc, <- Htl, <- fmap_cons.
      rewrite (array_items_reads_back level rest l IH Hwf x f _ Hx Hxwf eq_refl);
        [done|]. len.
  - apply json_wf_obj in Hwf as [Hnd Hwf]. destruct kvs as [|[k x] kvs].
    + change (dumps_at level (JObj []) ++ rest) with (123 :: 125 :: rest) in *.
      rewrite scan_once_S. rewrite !decide_False, decide_True by done.
      destruct f as [|f]; [cbn [length] in Hfuel; lia|].
      rewrite parse_object_S, skip_ws_start, decide_True by done. done.
    + apply Forall_cons in IH as [Hx IH].
      apply Forall_cons in Hwf as [[Hk Hxwf] Hwf]. cbn [fst snd] in *.
      change (dumps_at level (JObj ((k, x) :: kvs)))
        with (123 :: newline_indent (S level) ++
              str_join (44 :: newline_indent (S level))
                ((λ kv, encode_str kv.1 ++ lit ": " ++ dumps_at (S level) kv.2)
                   <$> (k, x) :: kvs) ++
              newline_indent level ++ [125]) in *.
      cbn [app] in *. rewrite <- !app_assoc in *. cbn [app] in *.
      rewrite scan_once_S. rewrite !decide_False, decide_True by done.
      destruct f as [|f]; [cbn [length] in Hfuel; lia|].
      rewrite parse_object_S, skip_ws_newline_indent.
      assert (∃ body, str_join (44 :: newline_indent (S level))
                ((λ kv, encode_str kv.1 ++ lit ": " ++ dumps_at (S level) kv.2)
                   <$> (k, x) :: kvs) ++
              newline_indent level ++ 125 :: rest = 34 :: body) as [body Hbody].
      { rewrite fmap_cons. cbn [fst snd].
        destruct (str_join_head (44 :: newline_indent (S level))
                    (encode_str k ++ lit ": " ++ dumps_at (S level) x)
                    ((λ kv, encode_str kv.1 ++ lit ": " ++ dumps_at (S level) kv.2)
                       <$> kvs)) as [tl ->].
        destruct (encode_str_quote k) as [b' ->]. by eexists. }
      rewrite Hbody in Hfuel |- *.
      rewrite skip_ws_start, decide_False, decide_True by done.
      rewrite (object_items_reads_back level rest kvs IH Hwf k x f body
                 Hx Hk Hxwf (eq_sym Hbody)); [|len].
      cbn [bind]. by rewrite dict_of_pairs_nodup.
Qed.

(** [json.loads(json.dumps(v, indent=4)) == v] *)
Lemma json_loads_dumps v :
  json_wf float_repr v → json_loads float_repr (json_dumps v) = Ok v.
Proof.
  intros Hwf. unfold json_loads, json_dumps.
  destruct (dumps_at_start 0 v [] Hwf) as (c & r & Hcr & Hws & _ & Hbom).
  rewrite app_nil_r in Hcr.
  assert (startswith [65279] (dumps_at 0 v) = false) as ->.
  { rewrite Hcr. cbn [startswith]. by rewrite decide_False. }
  pose proof (skip_ws_dumps_at 0 v [] Hwf) as Hs. rewrite app_nil_r in Hs.
  rewrite Hs.
  pose proof (scan_once_dumps_at v Hwf 0%nat [] (3 * length (dumps_at 0 v) + 3)%nat I)
    as Hscan.
  rewrite app_nil_r in Hscan. rewrite Hscan by lia. done.
Qed.

(** ** What [json.loads] builds *)

Lemma decode_uXXXX_raise h1 h2 h3 h4 e :
  decode_uXXXX h1 h2 h3 h4 = Raise e → e = JSONDecodeError.
Proof.
  unfold decode_uXXXX.
  destruct (hex_val h1), (hex_val h2), (hex_val h3), (hex_val h4); congruence.
Qed.

Lemma backslash_char_raise c e : backslash_char c = Raise e → e = JSONDecodeError.
Proof. unfold backslash_char. repeat case_decide; congruence. Qed.

(** How a call of [scanstring] goes: it ends at the closing quote, or takes
    one step and goes on, or fails with a [JSONDecodeError]. *)
Lemma scanstring_cases acc s res :
  scanstring acc s = res →
  (∃ r, s = 34 :: r ∧ res = Ok (reverse acc, r)) ∨
  (∃ c s', scan_step s c s' ∧ scanstring (c :: acc) s' = res) ∨
  res = Raise JSONDecodeError.
Proof.
  destruct s as [|c r]; [intros <-; by right; right|]. cbn [scanstring].
  destruct (decide (c = 34)) as [->|Hq]; [intros <-; left; eauto|].
  destruct (decide (c = 92)) as [->|Hb].
  2:{ destruct (N.ltb_spec c 32) as [Hlt|Hge]; [intros <-; by right; right|].
      intros Hgo. right; left.
      exists c, r. split; [by apply step_plain|done]. }
  destruct r as [|e r1]; [intros <-; by right; right|].
  destruct (decide (e = 117)) as [->|Hu].
  2:{ destruct (backslash_char e) as [ch|e'] eqn:Hch.
      - intros H. right; left. exists ch, r1. split; [by apply step_short|done].
      - apply backslash_char_raise in Hch as ->. intros <-. by right; right. }
  destruct r1 as [|h1 [|h2 [|h3 [|h4 r2]]]]; try (intros <-; by right; right).
  destruct (decode_uXXXX h1 h2 h3 h4) as [uni|e'] eqn:Hd.
  2:{ apply decode_uXXXX_raise in Hd as ->. intros <-. by right; right. }
  assert (∀ b u, is_high_surrogate uni && bool_decide (b = 92)
                 && bool_decide (u = 117) = false →
          is_high_surrogate uni = true →
          startswith [92; 117] (b :: u :: drop 2 r2) = false) as Hsw.
  { intros b u Hf Hh. rewrite Hh in Hf. cbn [andb] in Hf. cbn [startswith].
    repeat case_decide; subst; done. }
  destruct r2 as [|b [|u r3]].
  - intros H. right; left. eexists _, _. split; [|done]. apply step_u; [done|by left].
  - intros H. right; left. eexists _, _. split; [|done]. apply step_u; [done|].
    intros _. left. cbn [startswith]. by case_decide.
  - destruct (is_high_surrogate uni && bool_decide (b = 92)
              && bool_decide (u = 117)) eqn:Hpair.
    + apply andb_true_iff in Hpair as [[Hh ->%bool_decide_eq_true]%andb_true_iff
                                       ->%bool_decide_eq_true].
      destruct r3 as [|l1 [|l2 [|l3 [|l4 r4]]]]; try (intros <-; by right; right).
      destruct (decode_uXXXX l1 l2 l3 l4) as [uni2|e'] eqn:Hd2.
      2:{ apply decode_uXXXX_raise in Hd2 as ->. intros <-. by right; right. }
      destruct (is_low_surrogate uni2) eqn:Hl; intros H; right; left.
      * eexists _, _. split; [|done]. by eapply step_pair.
      * eexists _, _. split; [|done]. apply step_u; [done|]. intros _.
        right. by do 6 eexists.
    + assert (scanstring (uni :: acc) (b :: u :: r3) = res →
              ∃ c s', scan_step (92 :: 117 :: h1 :: h2 :: h3 :: h4 :: b :: u :: r3)
                        c s' ∧ scanstring (c :: acc) s' = res) as Hgo.
      { intros H. eexists _, _. split; [|done]. apply step_u; [done|].
        intros Hh. left. by apply (Hsw b u). }
      destruct r3 as [|l1 [|l2 [|l3 [|l4 r4]]]]; intros H; right; left; by apply Hgo.
Qed.

Lemma scanstring_inv acc s res :
  scanstring acc s = Ok res →
  (∃ r, s = 34 :: r ∧ res = (reverse acc, r)) ∨
  ∃ c s', scan_step s c s' ∧ scanstring (c :: acc) s' = Ok res.
Proof.
  intros [(r & -> & [= ->])|[?|?]]%scanstring_cases; [left; eauto|by right|done].
Qed.

Lemma scan_step_suffix s c s' :
  scan_step s c s' → suffix s' s ∧ (length s' < length s)%nat.
Proof.
  destruct 1; (split; [|cbn [length]; lia]).
  - by apply suffix_cons_r.
  - by do 2 apply suffix_cons_r.
  - by do 6 apply suffix_cons_r.
  - by do 12 apply suffix_cons_r.
Qed.

Lemma scanstring_suffix s acc str r :
  scanstring acc s = Ok (str, r) → suffix r s ∧ (length r < length s)%nat.
Proof.
  remember (length s) as n eqn:Hn. revert s acc Hn.
  induction n as [n IH] using lt_wf_ind. intros s acc -> Hs.
  destruct (scanstring_inv _ _ _ Hs) as [(r' & -> & [= _ <-])|(c & s' & Hstep & Hs')].
  - split; [by apply suffix_cons_r|cbn [length]; lia].
  - apply scan_step_suffix in Hstep as [Hsuf Hlen].
    destruct (IH _ Hlen s' (c :: acc) eq_refl Hs') as [Hsuf' Hlen'].
    split; [by etrans|lia].
Qed.

Lemma str_ok_snoc l c :
  str_ok (l ++ [c]) ↔
  str_ok l ∧ c ≤ 1114111 ∧
  (∀ h, last l = Some h → is_high_surrogate h = true → is_low_surrogate c = false).
Proof.
  induction l as [|a l IH].
  - cbn. split; [intros (? & _ & _); split_and!; done|intros (_ & ? & _); done].
  - cbn [app]. rewrite !str_ok_cons, IH. destruct l as [|b l].
    + cbn. split.
      * intros (? & Hc & _ & ? & _). split_and!; try done. by intros h [= <-].
      * intros ((? & _ & _) & ? & Hc). split_and!; try done. intros Hh. by apply (Hc a).
    + cbn [app last]. tauto.
Qed.

Lemma hex_val_lt c d : hex_val c = Some d → d < 16.
Proof.
  unfold hex_val.
  repeat match goal with
         | |- context [?a <=? ?b] => destruct (N.leb_spec a b)
         end; cbn [andb]; intros [= <-]; lia.
Qed.

Lemma decode_uXXXX_lt h1 h2 h3 h4 uni :
  decode_uXXXX h1 h2 h3 h4 = Ok uni → uni < 65536.
Proof.
  unfold decode_uXXXX.
  destruct (hex_val h1) as [a|] eqn:Ha; [|done].
  destruct (hex_val h2) as [b|] eqn:Hb; [|done].
  destruct (hex_val h3) as [c|] eqn:Hc; [|done].
  destruct (hex_val h4) as [d|] eqn:Hd; [|done].
  apply hex_val_lt in Ha, Hb, Hc, Hd. intros [= <-]. lia.
Qed.

Lemma surrogate_bounds c :
  (is_high_surrogate c = true ↔ 55296 ≤ c ≤ 56319) ∧
  (is_low_surrogate c = true ↔ 56320 ≤ c ≤ 57343).
Proof.
  unfold is_high_surrogate, is_low_surrogate.
  rewrite !andb_true_iff, !N.leb_le. done.
Qed.

Lemma not_surrogate c :
  c < 55296 ∨ 57343 < c →
  is_high_surrogate c = false ∧ is_low_surrogate c = false.
Proof.
  intros Hc. destruct (surrogate_bounds c) as [Hh Hl].
  split; apply not_true_is_false; [rewrite Hh|rewrite Hl]; lia.
Qed.

Lemma joined_pair_bounds uni uni2 :
  is_high_surrogate uni = true → is_low_surrogate uni2 = true →
  65536 ≤ 65536 + N.lor (N.shiftl (uni - 55296) 10) (uni2 - 56320) ≤ 1114111.
Proof.
  intros Hh%surrogate_bounds Hl%surrogate_bounds.
  rewrite lor_shiftl_add by (change (2 ^ 10) with 1024; lia).
  change (2 ^ 10) with 1024. lia.
Qed.

(** What one step of [scanstring] adds to the string. *)
Lemma scan_step_char s c s' :
  scan_step s c s' → text_ok s →
  c ≤ 1114111 ∧ text_ok s' ∧
  (is_high_surrogate c = true → no_low_escape s') ∧
  (is_low_surrogate c = true → ¬ no_low_escape s).
Proof.
  intros Hstep Hs. assert (text_ok s') as Hs'.
  { apply scan_step_suffix in Hstep as [[k ->] _]. by apply Forall_app in Hs as [_ ?]. }
  destruct Hstep as [c r H1 H2 H3|e ch r H1 H2|h1 h2 h3 h4 uni r2 Hd Hg
                    |h1 h2 h3 h4 uni l1 l2 l3 l4 uni2 r4 Hd Hd2 Hh Hl].
  - apply Forall_cons in Hs as [(Hc & Hnh & Hnl) _].
    split_and!; [done|done|by rewrite Hnh|by rewrite Hnl].
  - assert (ch ≤ 92) as Hch.
    { unfold backslash_char in H2. repeat case_decide; simplify_eq; lia. }
    destruct (not_surrogate ch) as [Hnh Hnl]; [lia|].
    split_and!; [lia|done|by rewrite Hnh|by rewrite Hnl].
  - pose proof (decode_uXXXX_lt _ _ _ _ _ Hd).
    split_and!; [lia|done|done|].
    intros Hl [Hsw|(? & ? & ? & ? & ? & ? & [= <- <- <- <- <-] & Hd' & Hl')]; [done|].
    congruence.
  - destruct (joined_pair_bounds _ _ Hh Hl) as [Hlo Hhi].
    destruct (not_surrogate (65536 + N.lor (N.shiftl (uni - 55296) 10)
                                         (uni2 - 56320))) as [Hnh Hnl]; [lia|].
    split_and!; [done|done|by rewrite Hnh|by rewrite Hnl].
Qed.

(** The strings [scanstring] returns are [str_ok]. *)
Lemma scanstring_str_ok s acc str r :
  text_ok s → str_ok (reverse acc) →
  (∀ h, last (reverse acc) = Some h → is_high_surrogate h = true →
        no_low_escape s) →
  scanstring acc s = Ok (str, r) → str_ok str.
Proof.
  remember (length s) as n eqn:Hn. revert s acc Hn.
  induction n as [n IH] using lt_wf_ind. intros s acc -> Htext Hacc Hguard Hs.
  destruct (scanstring_inv _ _ _ Hs) as [(r' & -> & [= -> _])|(c & s' & Hstep & Hs')];
    [done|].
  destruct (scan_step_char _ _ _ Hstep Htext) as (Hc & Htext' & Hhigh & Hlow).
  apply scan_step_suffix in Hstep as [_ Hlen].
  apply (IH _ Hlen s' (c :: acc) eq_refl Htext'); [| |done].
  - rewrite reverse_cons. apply str_ok_snoc. split_and!; [done..|].
    intros h Hlast Hh. apply not_true_is_false. intros Hl.
    by apply (Hlow Hl), (Hguard h).
  - rewrite reverse_cons, last_snoc. by intros h [= <-].
Qed.

Lemma rest_of_suffix_l r s s' : suffix r s → rest_of s s' → rest_of r s'.
Proof.
  intros H [H1 H2]. split; [by etrans|]. apply suffix_length in H. lia.
Qed.

Lemma rest_of_suffix_r r s s' : rest_of r s → suffix s s' → rest_of r s'.
Proof.
  intros [H1 H2] H. split; [by etrans|]. apply suffix_length in H. lia.
Qed.

Lemma rest_of_trans r s s' : rest_of r s → rest_of s s' → rest_of r s'.
Proof. intros [H1 H2]. by apply rest_of_suffix_l. Qed.

Lemma text_ok_suffix r s : suffix r s → text_ok s → text_ok r.
Proof. intros [k ->] H. by apply Forall_app in H as [_ ?]. Qed.

Lemma skip_ws_suffix s : suffix (skip_ws s) s.
Proof.
  induction s as [|c s IH]; [done|]. cbn [skip_ws].
  destruct (is_ws c); [by apply suffix_cons_r|done].
Qed.

Lemma scan_number_wf s v r :
  repr_canonical float_repr →
  scan_number float_repr s = Ok (v, r) → json_wf float_repr v.
Proof.
  intros Hrepr Hs. unfold scan_number in Hs.
  destruct (scan_number_token s) as [[[n|t] r']|] eqn:Htok.
  - destruct (int_str_ok n) eqn:Hn; [|done]. by injection Hs as <- _.
  - injection Hs as <- _. apply Hrepr. by exists s, r'.
  - destruct (startswith (lit "NaN") s); [done|].
    destruct (startswith (lit "Infinity") s); [injection Hs as <- _; by left|].
    destruct (startswith (lit "-Infinity") s); [|done].
    injection Hs as <- _. right. by left.
Qed.

Lemma dict_set_wf k v d :
  entry_wf float_repr (k, v) → NoDup d.*1 → Forall (entry_wf float_repr) d →
  NoDup (dict_set k v d).*1 ∧ Forall (entry_wf float_repr) (dict_set k v d) ∧
  ∀ k', k' ∈ (dict_set k v d).*1 ↔ k' = k ∨ k' ∈ d.*1.
Proof.
  intros Hkv. induction d as [|[k0 v0] d IH]; intros Hnd Hd.
  - cbn. split_and!; [apply NoDup_singleton|by constructor|set_solver].
  - cbn [dict_set]. apply Forall_cons in Hd as [H0 Hd].
    cbn [fmap list_fmap fst] in Hnd. apply NoDup_cons in Hnd as [Hk0 Hnd].
    case_decide as Heq.
    + subst k0. cbn [fmap list_fmap fst]. split_and!.
      * by apply NoDup_cons.
      * by constructor.
      * set_solver.
    + destruct (IH Hnd Hd) as (IH1 & IH2 & IH3). cbn [fmap list_fmap fst].
      split_and!.
      * apply NoDup_cons. split; [|done]. rewrite IH3. naive_solver.
      * by constructor.
      * intros k'. rewrite !elem_of_cons, IH3. naive_solver.
Qed.

Lemma dict_of_pairs_wf pairs :
  Forall (entry_wf float_repr) pairs →
  NoDup (dict_of_pairs pairs).*1 ∧
  Forall (entry_wf float_repr) (dict_of_pairs pairs).
Proof.
  unfold dict_of_pairs.
  enough (∀ acc, NoDup acc.*1 → Forall (entry_wf float_repr) acc →
            Forall (entry_wf float_repr) pairs →
            NoDup (foldl (λ d kv, dict_set kv.1 kv.2 d) acc pairs).*1 ∧
            Forall (entry_wf float_repr) (foldl (λ d kv, dict_set kv.1 kv.2 d) acc pairs))
    as H by (intros; apply H; [constructor|constructor|done]).
  induction pairs as [|[k v] pairs IH]; intros acc Hnd Hacc Hp; [done|].
  apply Forall_cons in Hp as [Hkv Hp]. cbn [foldl fst snd].
  destruct (dict_set_wf k v acc Hkv Hnd Hacc) as (H1 & H2 & _).
  by apply IH.
Qed.

Lemma suffix_trans' (a b c : list N) : suffix a b → suffix b c → suffix a c.
Proof. intros. by etrans. Qed.

Lemma skip_ws_eq_suffix s r : skip_ws s = r → suffix r s.
Proof. intros <-. apply skip_ws_suffix. Qed.

Lemma suffix_tail (c : N) r s : suffix (c :: r) s → suffix r s.
Proof. intros H. etrans; [|done]. by apply suffix_cons_r. Qed.

(** Chains of "is what is left of": the known steps are collected, a path
    is searched along them, and the lengths are compared. *)
Ltac note_suffix :=
  repeat match goal with
         | H : skip_ws _ = _ |- _ => apply skip_ws_eq_suffix in H
         | H : rest_of _ _ |- _ => destruct H as [? ?]
         | H : suffix _ _ ∧ _ |- _ => destruct H as [? ?]
         end;
  repeat match goal with
         | |- context [skip_ws ?a] =>
             lazymatch goal with
             | _ : suffix (skip_ws a) a |- _ => fail
             | _ => pose proof (skip_ws_suffix a)
             end
         end.

Ltac suf_chain :=
  match goal with
  | |- suffix ?a ?a => reflexivity
  | H : suffix ?a ?b |- suffix ?a ?c =>
      apply (suffix_trans' a b c H); suf_chain
  | H : suffix (?c :: ?a) ?b |- suffix ?a ?d =>
      apply (suffix_trans' a b d (suffix_tail c a b H)); suf_chain
  | |- suffix ?r (?c :: ?s) => apply suffix_cons_r; suf_chain
  end.

Ltac suf_len :=
  repeat match goal with
         | H : suffix _ _ |- _ => apply suffix_length in H
         end;
  cbn [length] in *; lia.

Ltac suf_len_with H :=
  try destruct H as [? ?]; note_suffix; suf_len.

Ltac suf :=
  note_suffix;
  lazymatch goal with
  | |- rest_of _ _ => split; [suf_chain|suf_len]
  | |- suffix _ _ => suf_chain
  | |- text_ok _ => eapply text_ok_suffix; [|eassumption]; suf_chain
  end.

Lemma scan_ok_all fuel : scan_ok float_repr fuel.
Proof.
  induction fuel as [|f (IHv & IHa & IHai & IHo & IHoi)]; [by repeat split|].
  unfold scan_ok. split_and!.
  - intros s v r. rewrite scan_once_S. destruct s as [|c r0]; [done|].
    destruct (decide (c = 34)) as [->|?].
    { destruct (scanstring [] r0) as [[str r']|] eqn:Hs; [|done].
      cbn [bind]. intros [= <- <-]. pose proof (scanstring_suffix _ _ _ _ Hs) as Hr.
      split; [suf|]. intros Hrepr Ht. cbn [json_wf].
      eapply scanstring_str_ok; [| | |exact Hs]; [|done|done].
      by apply Forall_cons in Ht as [_ ?]. }
    destruct (decide (c = 123)) as [->|?].
    { destruct (parse_object float_repr f r0) as [[ps r']|] eqn:Hp; [|done].
      cbn [bind]. intros [= <- <-]. destruct (IHo _ _ _ Hp) as [Hr Hw].
      split; [suf|]. intros Hrepr Ht. apply json_wf_obj.
      apply dict_of_pairs_wf, Hw; [done|]. by apply Forall_cons in Ht as [_ ?]. }
    destruct (decide (c = 91)) as [->|?].
    { destruct (parse_array float_repr f r0) as [[vs r']|] eqn:Hp; [|done].
      cbn [bind]. intros [= <- <-]. destruct (IHa _ _ _ Hp) as [Hr Hw].
      split; [suf|]. intros Hrepr Ht. apply json_wf_arr.
      apply Hw; [done|]. by apply Forall_cons in Ht as [_ ?]. }
    destruct (startswith (lit "null") (c :: r0)) eqn:Hn.
    { intros [= <- <-]. split; [|done]. by apply (startswith_drop_rest (lit "null")). }
    destruct (startswith (lit "true") (c :: r0)) eqn:Htr.
    { intros [= <- <-]. split; [|done]. by apply (startswith_drop_rest (lit "true")). }
    destruct (startswith (lit "false") (c :: r0)) eqn:Hfa.
    { intros [= <- <-]. split; [|done]. by apply (startswith_drop_rest (lit "false")). }
    intros Hs. split; [by apply scan_number_inv in Hs as [? _]|].
    intros Hrepr _. by eapply scan_number_wf.
  - intros s vs r. rewrite parse_array_S.
    destruct (skip_ws s) as [|c r0] eqn:Hsk.
    { intros Hgo. destruct (IHai _ _ _ Hgo) as [[_ Hlen] _]. cbn [length] in Hlen. lia. }
    case_decide; [subst; intros [= <- <-]; split; [suf|by constructor]|].
    intros Hgo. destruct (IHai _ _ _ Hgo) as [Hr Hw].
    split; [suf|]. intros Hrepr Ht. apply Hw; [done|suf].
  - intros s vs r. rewrite array_items_S.
    destruct (scan_once float_repr f s) as [[value r0]|] eqn:Hv; [|done]. cbn [bind].
    destruct (IHv _ _ _ Hv) as [Hr0 Hw0].
    destruct (skip_ws r0) as [|c r1] eqn:Hsk; [done|].
    case_decide.
    { subst. intros [= <- <-]. split; [suf|]. intros Hrepr Ht.
      constructor; [auto|constructor]. }
    case_decide; [subst|done].
    destruct (array_items float_repr f (skip_ws r1)) as [[values r'']|] eqn:Hi; [|done].
    cbn [bind]. intros [= <- <-]. destruct (IHai _ _ _ Hi) as [Hr Hw].
    assert (suffix (skip_ws r1) s) as Hsuf by suf.
    split; [suf|]. intros Hrepr Ht. constructor; [auto|].
    apply Hw; [done|suf].
  - intros s ps r. rewrite parse_object_S.
    destruct (skip_ws s) as [|c r0] eqn:Hsk; [done|].
    case_decide; [subst; intros [= <- <-]; split; [suf|by constructor]|].
    case_decide; [subst|done].
    intros Hgo. destruct (IHoi _ _ _ Hgo) as [Hr Hw].
    assert (suffix r0 s) as Hsuf by suf.
    split; [suf|]. intros Hrepr Ht. apply Hw; [done|suf].
  - intros s ps r. rewrite object_items_S.
    destruct (scanstring [] s) as [[key r0]|] eqn:Hk; [|done]. cbn [bind].
    pose proof (scanstring_suffix _ _ _ _ Hk) as Hr0.
    destruct (skip_ws r0) as [|colon r1] eqn:Hsk; [done|].
    case_decide; [subst|done].
    destruct (scan_once float_repr f (skip_ws r1)) as [[value r2]|] eqn:Hv; [|done].
    cbn [bind]. destruct (IHv _ _ _ Hv) as [Hr2 Hw2].
    assert (suffix (skip_ws r1) s) as Hsuf1 by suf.
    assert (rest_of r2 s) as Hrest2 by suf.
    assert (repr_canonical float_repr → text_ok s →
            entry_wf float_repr (key, value)) as Hentry.
    { intros Hrepr Ht. split; cbn [fst snd].
      - eapply scanstring_str_ok; [| | |exact Hk]; done.
      - apply Hw2; [done|suf]. }
    destruct (skip_ws r2) as [|c r3] eqn:Hsk2; [done|].
    case_decide.
    { subst. intros [= <- <-]. split; [suf|]. intros Hrepr Ht.
      constructor; [auto|constructor]. }
    case_decide; [subst|done].
    destruct (skip_ws r3) as [|q r4] eqn:Hsk3; [done|].
    case_decide; [subst|done].
    destruct (object_items float_repr f r4) as [[pairs r5]|] eqn:Hi; [|done].
    cbn [bind]. intros [= <- <-]. destruct (IHoi _ _ _ Hi) as [Hr Hw].
    assert (suffix r3 s) as Hsuf3 by suf.
    assert (suffix r4 s) as Hsuf4 by suf.
    split; [suf|]. intros Hrepr Ht. constructor; [auto|].
    apply Hw; [done|suf].
Qed.

(** ** The fuel of the scanner is enough *)

(** [scanstring] fails with a [JSONDecodeError] only. *)
Lemma scanstring_raise s acc e :
  scanstring acc s = Raise e → e = JSONDecodeError.
Proof.
  remember (length s) as n eqn:Hn. revert s acc Hn.
  induction n as [n IH] using lt_wf_ind. intros s acc -> Hs.
  destruct (scanstring_cases _ _ _ Hs) as [(r & _ & [=])|[(c & s' & Hstep & Hs')|[=]]];
    [|done].
  apply scan_step_suffix in Hstep as [_ Hlen]. by eapply (IH _ Hlen s').
Qed.

Lemma bind_no_fuel_error {A B} (m : res A) (k : A → res B) :
  m ≠ Raise OutOfFuel → (∀ a, m = Ok a → k a ≠ Raise OutOfFuel) →
  bind m k ≠ Raise OutOfFuel.
Proof.
  destruct m as [a|e]; cbn [bind]; [eauto|]. intros H _ [= ->]. by apply H.
Qed.

Lemma scan_fuel_enough fuel : fuel_enough float_repr fuel.
Proof.
  induction fuel as [|f (IHv & IHa & IHai & IHo & IHoi)];
    [repeat split; intros; lia|].
  unfold fuel_enough. split_and!; intros s Hfuel.
  - rewrite scan_once_S. destruct s as [|c r0]; [done|]. cbn [length] in Hfuel.
    repeat case_decide.
    + apply bind_no_fuel_error; [|by intros [??]].
      intros ?%scanstring_raise. done.
    + apply bind_no_fuel_error; [apply IHo; lia|by intros [??]].
    + apply bind_no_fuel_error; [apply IHa; lia|by intros [??]].
    + repeat (destruct (startswith _ _); [done|]).
      intros [?|[?|?]]%scan_number_raise; done.
  - rewrite parse_array_S. destruct (skip_ws s) as [|c r0] eqn:Hsk.
    + apply IHai. cbn [length]. lia.
    + case_decide; [done|]. apply IHai.
      apply skip_ws_eq_suffix, suffix_length in Hsk. lia.
  - rewrite array_items_S. apply bind_no_fuel_error; [apply IHv; lia|].
    intros [value r0] Hv. destruct (proj1 (scan_ok_all f) _ _ _ Hv) as [Hr0 _].
    destruct (skip_ws r0) as [|c r1] eqn:Hsk; [done|].
    repeat case_decide; try done.
    apply bind_no_fuel_error; [|by intros [??]]. apply IHai.
    pose proof (skip_ws_suffix r1). suf_len_with Hr0.
  - rewrite parse_object_S. destruct (skip_ws s) as [|c r0] eqn:Hsk; [done|].
    repeat case_decide; try done. apply IHoi.
    apply skip_ws_eq_suffix, suffix_length in Hsk. cbn [length] in Hsk. lia.
  - rewrite object_items_S. apply bind_no_fuel_error.
    { intros ?%scanstring_raise. done. }
    intros [key r0] Hk. apply scanstring_suffix in Hk.
    destruct (skip_ws r0) as [|colon r1] eqn:Hsk; [done|].
    case_decide; [|done].
    pose proof (skip_ws_suffix r1).
    apply bind_no_fuel_error; [apply IHv; suf_len_with Hk|].
    intros [value r2] Hv. destruct (proj1 (scan_ok_all f) _ _ _ Hv) as [Hr2 _].
    destruct (skip_ws r2) as [|c r3] eqn:Hsk2; [done|].
    repeat case_decide; try done.
    destruct (skip_ws r3) as [|q r4] eqn:Hsk3; [done|].
    case_decide; [|done].
    apply bind_no_fuel_error; [|by intros [??]]. apply IHoi.
    suf_len_with Hk.
Qed.

(** [json_loads] is total: it returns a value or raises an exception of
    Python, whatever the text. *)
Lemma json_loads_fuel s : json_loads float_repr s ≠ Raise OutOfFuel.
Proof.
  unfold json_loads. destruct (startswith _ s); [done|].
  apply bind_no_fuel_error.
  - apply (proj1 (scan_fuel_enough _)). pose proof (skip_ws_suffix s) as H.
    apply suffix_length in H. lia.
  - intros [obj r] _. by destruct (skip_ws r).
Qed.

(** ** The records of the input file *)

(** Every value loaded from the text of a file is well-formed. *)
Lemma json_loads_wf text v :
  repr_canonical float_repr → text_ok text →
  json_loads float_repr text = Ok v → json_wf float_repr v.
Proof.
  intros Hrepr Ht. unfold json_loads. destruct (startswith _ text); [done|].
  destruct (scan_once float_repr _ (skip_ws text)) as [[obj r]|] eqn:Hs; [|done].
  cbn [bind]. destruct (skip_ws r); [|done]. intros [= <-].
  apply (proj1 (scan_ok_all _) _ _ _ Hs); [done|]. suf.
Qed.

Lemma str_ok_single c : c ≤ 1114111 → str_ok [c].
Proof. by cbn. Qed.

Lemma str_ok_all_valid s : str_ok s → Forall (λ c, c ≤ 1114111) s.
Proof.
  induction s as [|a s IH]; [by constructor|].
  intros (Ha & _ & Hs)%str_ok_cons. constructor; auto.
Qed.

(** The items a loop gets from a loaded value are loaded values. *)
Lemma py_iter_wf v items :
  json_wf float_repr v → py_iter v = Ok items →
  Forall (json_wf float_repr) items.
Proof.
  destruct v as [| | | |s|l|kvs]; try done; cbn [py_iter]; intros Hwf [= <-].
  - apply str_ok_all_valid in Hwf. apply Forall_fmap.
    eapply Forall_impl; [done|]. intros c Hc. by apply str_ok_single.
  - by apply json_wf_arr.
  - apply json_wf_obj in Hwf as [_ Hwf]. apply Forall_fmap.
    eapply Forall_impl; [done|]. by intros kv [Hk _].
Qed.

End Codec.

(** Every number of a text is canonical when it is taken to be written as
    [repr] writes it. *)
Lemma demo_float_repr_canonical : repr_canonical demo_float_repr.
Proof.
  intros t (s & r & Hs). right. right. intros rest Hrest.
  unfold scan_number, demo_float_repr.
  by rewrite (scan_number_token_again _ _ _ _ Hs Hrest).
Qed.

Lemma process_card_written root card w w' :
  process_card root card w = (w', Ok tt) →
  ∃ path, file_path root card = Ok path ∧
          files w' !! path = Some (json_dumps card).
Proof.
  unfold process_card, file_path.
  destruct (target_dir root card) as [dir|]; [|done].
  destruct (makedirs dir w) as [w1 [[]|]]; [|done].
  destruct (file_name card) as [name|]; [|done].
  destruct (json_dump card) as [text r] eqn:Hd.
  destruct (write_text _ text w1) as [w2 [[]|]] eqn:Hw; [|done].
  intros Heq. apply pair_equal_spec in Heq as [<- ->].
  apply json_dump_inv in Hd as ->. apply write_text_ok in Hw as [_ ->].
  eexists. split; [done|]. apply lookup_insert_eq.
Qed.

(** X25. Right after it is written, the file of a record of the array
    loaded from the input file holds a text that [json.loads] reads back as
    that record, whether or not a later record overwrites it. *)
Theorem written_file_reads_back (float_repr : list N → list N)
    (output_root text : list N) (cards : json)
    (items : list json) (card : json) (w w' : world) :
  repr_canonical float_repr →
  text_ok text →
  json_loads float_repr text = Ok cards →
  py_iter cards = Ok items →
  card ∈ items →
  process_card output_root card w = (w', Ok tt) →
  ∃ path content,
    file_path output_root card = Ok path ∧
    files w' !! path = Some content ∧
    json_loads float_repr content = Ok card.
Proof.
  intros Hrepr Ht Hload Hiter Hcard Hrun.
  destruct (process_card_written _ _ _ _ Hrun) as (path & Hpath & Hfile).
  exists path, (json_dumps card). split_and!; [done..|].
  apply json_loads_dumps.
  pose proof (py_iter_wf _ _ _ (json_loads_wf _ _ _ Hrepr Ht Hload) Hiter)
    as Hall.
  rewrite Forall_forall in Hall. by apply Hall.
Qed.

Lemma written_file_reads_back_witness :
  ∃ path content,
    file_path (lit "Scryfall_Organized") plains = Ok path ∧
    files (process_card (lit "Scryfall_Organized") plains (World ∅ ∅ [])).1
      !! path = Some content ∧
    json_loads demo_float_repr content = Ok plains.
Proof.
  apply (written_file_reads_back demo_float_repr (lit "Scryfall_Organized")
           (json_dumps (JArr [plains; kix_card]))
           (JArr [plains; kix_card]) [plains; kix_card] plains (World ∅ ∅ [])).
  - exact demo_float_repr_canonical.
  - by_decide.
  - vm_compute. reflexivity.
  - reflexivity.
  - left.
  - vm_compute. reflexivity.
Defined.

(** *** The files at the end of a run *)








(** * Further properties *)

(** ** The sanitizer and the folders, once more *)

(** X1. Sanitizing twice is sanitizing once; the sanitizer works character
    by character, so it distributes over concatenation; it never makes a
    string longer. *)
Theorem sanitize_name_idempotent_additive :
  (∀ s, sanitize_name (sanitize_name s) = sanitize_name s) ∧
  (∀ s t, sanitize_name (s ++ t) = sanitize_name s ++ sanitize_name t) ∧
  (∀ s, (length (sanitize_name s) ≤ length s)%nat).
Proof.
  split_and!.
  - intros s. apply sanitize_name_id, sanitize_name_legal.
  - intros s t. by rewrite !sanitize_name_filter, filter_app.
  - intros s. rewrite sanitize_name_filter. apply length_filter.
Qed.

Lemma str_replace1_elem old new s c :
  c ∈ str_replace1 old new s → c ∈ new ∨ (c ∈ s ∧ c ≠ old).
Proof.
  unfold str_replace1. intros (c' & Hc & Hc')%list_elem_of_bind.
  case_decide; [by left|]. apply list_elem_of_singleton in Hc as ->. by right.
Qed.

(** X2. The sub-type folder holds none of the nine illegal characters (a
    slash among them) and no space, whatever the type line: it adds one
    level to the path at most. *)
Theorem sub_type_folder_one_segment (card : json) (s : pystr) :
  sub_type_folder card = Ok s → legal_str s ∧ 32 ∉ s.
Proof.
  unfold sub_type_folder. destruct (type_line_of card) as [tl|]; [|done].
  cbn [bind]. destruct (py_contains subtype_sep tl) as [[]|]; cbn [bind];
    [|intros [= <-]; split; by_decide|done].
  destruct tl as [| | | |t| |]; try done.
  destruct (str_split subtype_sep t) as [parts|]; [|done]. cbn [bind].
  destruct (parts !! 1%nat) as [part|]; [|done]. intros [= <-].
  split; [apply sanitize_name_legal|].
  rewrite sanitize_name_filter. intros [_ Hin]%list_elem_of_filter.
  apply str_replace1_elem in Hin as [Hin|[_ ?]]; [|done].
  revert Hin. by_decide.
Qed.

Lemma sub_type_folder_one_segment_witness :
  legal_str (lit "Elder_Dragon") ∧ 32 ∉ lit "Elder_Dragon".
Proof.
  apply (sub_type_folder_one_segment
           (JObj [(lit "type_line",
                   JStr (lit "Legendary Creature" ++ subtype_sep ++
                         lit "Elder Dragon"))])).
  vm_compute. reflexivity.
Defined.

(** X3. The file name of a record is its sanitized name, or the sanitized
    "Unknown_Card" when the record has no name, followed by ".json"; it
    holds none of the illegal characters, so it is one path segment. *)
Theorem file_name_one_segment (kvs : list (pystr * json)) (name : pystr) :
  file_name (JObj kvs) = Ok name →
  legal_str name ∧
  ∃ s, default (JStr (lit "Unknown_Card")) (dict_lookup (lit "name") kvs) = JStr s ∧
       name = sanitize_name s ++ lit ".json".
Proof.
  unfold file_name, sanitize_name_of. cbn [py_get bind].
  destruct (default _ (dict_lookup (lit "name") kvs)) as [| | | |s| |];
    try done.
  cbn [as_str bind]. intros [= <-]. split; [|by exists s].
  apply Forall_app. split; [apply sanitize_name_legal|by_decide].
Qed.

Lemma file_name_one_segment_witness :
  legal_str (lit "Unknown_Card.json") ∧
  ∃ s, default (JStr (lit "Unknown_Card"))
         (dict_lookup (lit "name") [(lit "colors", JArr [])]) = JStr s ∧
       lit "Unknown_Card.json" = sanitize_name s ++ lit ".json".
Proof.
  apply (file_name_one_segment [(lit "colors", JArr [])]). reflexivity.
Defined.




(** ** Paths *)

Lemma legal_no_slash s : legal_str s → 47 ∉ s.
Proof.
  intros H Hin. unfold legal_str in H. rewrite Forall_forall in H.
  apply (H _ Hin). by_decide.
Qed.

Lemma startswith_slash_elem s : startswith (lit "/") s = true → 47 ∈ s.
Proof. intros ->%startswith_inv. left. Qed.

Lemma path_join2_relative path b :
  startswith (lit "/") b = false → path `prefix_of` path_join2 path b.
Proof.
  intros Hb. unfold path_join2. rewrite Hb.
  destruct (_ || _); by eexists.
Qed.

Lemma path_join2_absolute path b :
  startswith (lit "/") b = true → path_join2 path b = b.
Proof. intros Hb. unfold path_join2. by rewrite Hb. Qed.

Lemma legal_relative s : legal_str s → startswith (lit "/") s = false.
Proof.
  intros H%legal_no_slash. destruct (startswith _ s) eqn:Hs; [|done].
  by apply startswith_slash_elem in Hs.
Qed.

(** X5. Unless the color folder begins with a slash, the file of a record
    is written under the output root: its path begins with the root. *)
Theorem file_path_under_root (root : pystr) (card : json) (c p : pystr) :
  color_folder card = Ok c →
  startswith (lit "/") c = false →
  file_path root card = Ok p →
  root `prefix_of` p.
Proof.
  intros Hc Hrel. unfold file_path, target_dir. rewrite Hc. cbn [bind].
  destruct (super_type_folder card) as [sup|] eqn:Hsup; [|done].
  destruct (sub_type_folder card) as [sub|] eqn:Hsub; [|done]. cbn [bind].
  destruct (file_name card) as [name|] eqn:Hname; [|done]. intros [= <-].
  cbn [os_path_join foldl].
  assert (legal_str name) as Hn.
  { destruct card as [| | | | | |kvs]; try done.
    by apply file_name_one_segment in Hname as [? _]. }
  etrans; [apply (path_join2_relative root c Hrel)|].
  etrans; [apply (path_join2_relative _ sup)|].
  { eapply legal_relative, super_type_folder_legal, Hsup. }
  etrans; [apply (path_join2_relative _ sub)|].
  { by eapply legal_relative, sub_type_folder_one_segment. }
  by apply path_join2_relative, legal_relative.
Qed.

Lemma file_path_under_root_witness :
  lit "Scryfall_Organized" `prefix_of`
    lit "Scryfall_Organized/Colorless/Normal/No_Subtype/Kix Test.json".
Proof.
  apply (file_path_under_root _ kix_card (lit "Colorless")); reflexivity.
Defined.

(** X6. A color folder that begins with a slash takes the file out of the
    output root: the path of the file is the same whatever the root. *)
Theorem file_path_ignores_root (root root' : pystr) (card : json) (c : pystr) :
  color_folder card = Ok c →
  startswith (lit "/") c = true →
  file_path root card = file_path root' card.
Proof.
  intros Hc Habs. unfold file_path, target_dir. rewrite Hc. cbn [bind].
  destruct (super_type_folder card) as [sup|]; [|done].
  destruct (sub_type_folder card) as [sub|]; [|done]. cbn [bind].
  cbn [os_path_join foldl]. by rewrite !(path_join2_absolute _ c).
Qed.

Lemma file_path_ignores_root_witness :
  let card := JObj [(lit "name", JStr (lit "x"));
                    (lit "colors", JArr [JStr (lit "/tmp")])] in
  file_path (lit "Scryfall_Organized") card = file_path (lit "elsewhere") card ∧
  file_path (lit "Scryfall_Organized") card =
    Ok (lit "/tmp/Normal/No_Subtype/x.json").
Proof.
  cbn zeta. split; [|vm_compute; reflexivity].
  apply (file_path_ignores_root _ _ _ (lit "/tmp")); reflexivity.
Defined.

Lemma endswith_slash_snoc s c :
  endswith (lit "/") (s ++ [c]) = bool_decide (c = 47).
Proof.
  unfold endswith. rewrite reverse_snoc. change (reverse (lit "/")) with [47].
  cbn [startswith]. case_decide; case_bool_decide; congruence.
Qed.

Lemma endswith_slash_segment p b :
  b ≠ [] → 47 ∉ b → endswith (lit "/") (p ++ b) = false.
Proof.
  intros Hne Hb. destruct b as [|x b _] using rev_ind; [done|].
  rewrite app_assoc, endswith_slash_snoc. apply bool_decide_eq_false_2.
  intros ->. apply Hb. set_solver.
Qed.

Lemma endswith_slash_slash p : endswith (lit "/") (p ++ lit "/") = true.
Proof. change (lit "/") with [47]. by rewrite endswith_slash_snoc. Qed.

(** Joining a segment to a path that does not end with a slash. *)
Lemma path_join2_segment path b :
  path ≠ [] → endswith (lit "/") path = false →
  startswith (lit "/") b = false →
  path_join2 path b = path ++ lit "/" ++ b.
Proof.
  intros Hne He Hb. unfold path_join2. rewrite Hb, He.
  by rewrite bool_decide_eq_false_2.
Qed.

Lemma super_type_folder_nonempty card s : super_type_folder card = Ok s → s ≠ [].
Proof.
  unfold super_type_folder. destruct (type_line_of card) as [tl|]; [|done].
  cbn [bind].
  destruct (filter_each _ super_type_list) as [found|] eqn:Hf; [|done].
  cbn [bind]. intros [= <-]. destruct found as [|d ds]; [done|].
  assert (d ∈ super_type_list) as Hd.
  { eapply filter_each_subset; [done|left]. }
  destruct (str_join_head (lit " ") d ds) as [tail ->].
  intros [Hnil _]%app_eq_nil. subst d. revert Hd. by_decide.
Qed.

(** X7. The hierarchy of the output.  For an output root and a color folder
    that are not empty and a root that does not end with a slash, a color
    folder without a slash: the file of a record is
    root/color/super-type/sub-type/name; when the sub-type folder is empty
    (a type line that stops at the separator) there is no sub-type level
    and the file lies in the super-type folder. *)
Theorem file_path_levels (root : pystr) (card : json) (c sup sub name : pystr) :
  color_folder card = Ok c →
  super_type_folder card = Ok sup →
  sub_type_folder card = Ok sub →
  file_name card = Ok name →
  root ≠ [] → endswith (lit "/") root = false →
  c ≠ [] → 47 ∉ c →
  file_path root card =
    Ok (root ++ lit "/" ++ c ++ lit "/" ++ sup ++ lit "/" ++
        match sub with [] => name | _ => sub ++ lit "/" ++ name end).
Proof.
  intros Hc Hsup Hsub Hname Hroot Hend Hcne Hcs.
  unfold file_path, target_dir. rewrite Hc, Hsup, Hsub, Hname. cbn [bind].
  cbn [os_path_join foldl].
  assert (legal_str name) as Hn.
  { destruct card as [| | | | | |kvs]; try done.
    by apply file_name_one_segment in Hname as [? _]. }
  pose proof (super_type_folder_legal _ _ Hsup) as Hsl.
  pose proof (super_type_folder_nonempty _ _ Hsup) as Hsne.
  destruct (sub_type_folder_one_segment _ _ Hsub) as [Hbl _].
  assert (startswith (lit "/") c = false) as Hcrel.
  { destruct (startswith _ c) eqn:Hs; [|done].
    by apply startswith_slash_elem in Hs. }
  rewrite (path_join2_segment root c) by done.
  rewrite (path_join2_segment _ sup);
    [|by destruct root|by rewrite app_assoc; apply endswith_slash_segment
     |by apply legal_relative].
  rewrite (path_join2_segment _ sub);
    [|by destruct root
     |rewrite !app_assoc; apply endswith_slash_segment;
        [done|by apply legal_no_slash]
     |by apply legal_relative].
  destruct sub as [|x sub].
  - unfold path_join2 at 1. rewrite legal_relative by done.
    rewrite app_nil_r, endswith_slash_slash, orb_true_r.
    by rewrite <- !app_assoc.
  - rewrite (path_join2_segment _ name);
      [|by destruct root
       |rewrite !app_assoc; apply endswith_slash_segment;
          [done|by apply legal_no_slash]
       |by apply legal_relative].
    by rewrite <- !app_assoc.
Qed.

Lemma file_path_levels_witness :
  file_path (lit "out") plains =
    Ok (lit "out/Colorless/Basic/Plains/Plains.json") ∧
  file_path (lit "out")
    (JObj [(lit "name", JStr (lit "Gap"));
           (lit "type_line", JStr (lit "Creature" ++ subtype_sep))]) =
    Ok (lit "out/Colorless/Normal/Gap.json").
Proof.
  split.
  - apply (file_path_levels (lit "out") plains (lit "Colorless") (lit "Basic")
             (lit "Plains") (lit "Plains.json")); try reflexivity;
      try discriminate. by_decide.
  - apply (file_path_levels (lit "out") _ (lit "Colorless") (lit "Normal")
             [] (lit "Gap.json")); try reflexivity; try discriminate.
    by_decide.
Defined.

Lemma color_folder_own_colors kvs strs :
  dict_lookup (lit "colors") kvs = Some (JArr (JStr <$> strs)) →
  strs ≠ [] →
  color_folder (JObj kvs) = Ok (concat (py_sorted strs)).
Proof.
  intros Hc Hne. unfold color_folder. cbn [py_get bind]. rewrite Hc.
  cbn [from_option id].
  assert (truthy (JArr (JStr <$> strs)) = true) as Ht by (by destruct strs).
  rewrite Ht. cbn [negb andb bind]. rewrite Ht.
  by rewrite join_sorted_strs, str_join_empty_sep.
Qed.

(** X8. The order of a record's colors does not matter: two records whose
    non-empty color lists hold the same strings, each as often, in any
    order, have the same color folder. *)
Theorem color_folder_order_irrelevant (kvs kvs' : list (pystr * json))
    (strs strs' : list pystr) :
  dict_lookup (lit "colors") kvs = Some (JArr (JStr <$> strs)) →
  dict_lookup (lit "colors") kvs' = Some (JArr (JStr <$> strs')) →
  strs ≠ [] →
  strs ≡ₚ strs' →
  color_folder (JObj kvs) = color_folder (JObj kvs').
Proof.
  intros Hc Hc' Hne Hp.
  rewrite (color_folder_own_colors _ _ Hc Hne).
  rewrite (color_folder_own_colors _ _ Hc').
  - by rewrite (py_sorted_order_irrelevant _ _ Hp).
  - intros ->. by apply Permutation_nil_r in Hp.
Qed.

Lemma color_folder_order_irrelevant_witness :
  color_folder (JObj [(lit "colors", JArr [JStr (lit "W"); JStr (lit "U")])]) =
  color_folder (JObj [(lit "name", JStr (lit "Azorius"));
                      (lit "colors", JArr [JStr (lit "U"); JStr (lit "W")])]).
Proof.
  apply (color_folder_order_irrelevant _ _ [lit "W"; lit "U"] [lit "U"; lit "W"]).
  - reflexivity.
  - reflexivity.
  - discriminate.
  - apply perm_swap.
Defined.

(** X9. The destination of a record depends on four of its fields only:
    two records that agree on [name], [colors], [card_faces] and
    [type_line] get the same path (and overwrite each other). *)
Theorem file_path_four_fields (root : pystr) (kvs kvs' : list (pystr * json)) :
  (∀ k, k ∈ [lit "name"; lit "colors"; lit "card_faces"; lit "type_line"] →
        dict_lookup k kvs = dict_lookup k kvs') →
  file_path root (JObj kvs) = file_path root (JObj kvs').
Proof.
  intros H.
  assert (dict_lookup (lit "name") kvs = dict_lookup (lit "name") kvs')
    as Hn by (apply H; set_solver).
  assert (dict_lookup (lit "colors") kvs = dict_lookup (lit "colors") kvs')
    as Hc by (apply H; set_solver).
  assert (dict_lookup (lit "card_faces") kvs =
          dict_lookup (lit "card_faces") kvs') as Hf by (apply H; set_solver).
  assert (dict_lookup (lit "type_line") kvs =
          dict_lookup (lit "type_line") kvs') as Ht by (apply H; set_solver).
  unfold file_path, target_dir, file_name, color_folder, super_type_folder,
    sub_type_folder, type_line_of, dict_has.
  cbn [py_get]. by rewrite Hn, Hc, Hf, Ht.
Qed.

Lemma file_path_four_fields_witness :
  file_path (lit "Scryfall_Organized") elemental_flying =
  file_path (lit "Scryfall_Organized") elemental_haste.
Proof.
  apply file_path_four_fields. intros k Hk.
  repeat (apply elem_of_cons in Hk as [->|Hk]; [reflexivity|]).
  by apply elem_of_nil in Hk.
Defined.

(** ** Runs, once more *)

(** A run that gets to the loop, as the operations of its records. *)
Lemma organize_run float_repr abspath input root w text cards items :
  files w !! input = Some text →
  json_loads float_repr text = Ok cards →
  py_iter cards = Ok items →
  organize_scryfall_data float_repr abspath input root w =
    match exec_then (cards_ops root items).1 (cards_ops root items).2
            (print (lit "Reading dataset... this may take a moment.") w) with
    | (w1, Ok _) =>
        (print (lit "Success! Data organized into: " ++ abspath root) w1, Ok tt)
    | (w1, Raise e) => (w1, Raise e)
    end.
Proof.
  intros Hin Hload Hiter. unfold organize_scryfall_data.
  assert (path_exists input w = true) as ->.
  { unfold path_exists. by rewrite Hin, bool_decide_true by eauto. }
  cbn [negb]. unfold read_text. cbn [print files]. rewrite Hin, Hload, Hiter.
  by rewrite process_cards_ops.
Qed.

(** What a run leaves when it does not get to the loop: the world it found
    and one more line. *)
Lemma organize_no_loop float_repr abspath input root w :
  (∃ text cards items,
     files w !! input = Some text ∧ json_loads float_repr text = Ok cards ∧
     py_iter cards = Ok items) ∨
  ∃ line r, organize_scryfall_data float_repr abspath input root w =
              (print line w, r).
Proof.
  unfold organize_scryfall_data.
  destruct (path_exists input w); cbn [negb]; [|right; by eexists _, _].
  unfold read_text. cbn [print files dirs].
  destruct (files w !! input) as [text|] eqn:Hin.
  - destruct (json_loads float_repr text) as [cards|e] eqn:Hl;
      [|right; by eexists _, _].
    destruct (py_iter cards) as [items|e] eqn:Hi; [|right; by eexists _, _].
    left. by exists text, cards, items.
  - right. destruct (bool_decide _); by eexists _, _.
Qed.







Lemma apply_op_only_adds w o w' r :
  apply_op w o = (w', r) →
  dirs w ⊆ dirs w' ∧ ∀ p, is_Some (files w !! p) → is_Some (files w' !! p).
Proof.
  destruct o as [q|q t]; cbn [apply_op].
  - intros (-> & _ & ? & _)%makedirs_keeps. done.
  - intros (-> & _ & [->|[_ ->]])%write_text_keeps; [done|].
    split; [done|]. intros p Hp. apply lookup_insert_is_Some.
    destruct (decide (q = p)); auto.
Qed.

Lemma exec_only_adds ops w w' r :
  exec ops w = (w', r) →
  dirs w ⊆ dirs w' ∧ ∀ p, is_Some (files w !! p) → is_Some (files w' !! p).
Proof.
  revert w. induction ops as [|o ops IH]; intros w; cbn [exec];
    [by intros [= <- <-]|].
  destruct (apply_op w o) as [wa [[]|e]] eqn:Ho.
  - intros [Hd Hf]%IH. apply apply_op_only_adds in Ho as [Hd' Hf'].
    split; [set_solver|auto].
  - intros [= <- <-]. by eapply apply_op_only_adds.
Qed.

Lemma exec_then_world ops r w w' r' :
  exec_then ops r w = (w', r') → ∃ r0, exec ops w = (w', r0).
Proof.
  unfold exec_then. destruct (exec ops w) as [wa [[]|e]]; intros [= <- _]; eauto.
Qed.

(** X10. What a run prints when the input exists: the line that announces
    the reading, and after it the line of success exactly when the run ends
    without an exception. *)
Theorem run_prints (float_repr abspath : list N → list N)
    (input_file output_root : pystr) (w w' : world) (r : res unit) :
  path_exists input_file w = true →
  organize_scryfall_data float_repr abspath input_file output_root w = (w', r) →
  stdout w' =
    stdout w ++
    lit "Reading dataset... this may take a moment." ::
    match r with
    | Ok _ => [lit "Success! Data organized into: " ++ abspath output_root]
    | Raise _ => []
    end.
Proof.
  intros Hex. unfold organize_scryfall_data. rewrite Hex. cbn [negb].
  destruct (read_text _ _) as [text|e]; [|by intros [= <- <-]].
  destruct (json_loads float_repr text) as [cards|e]; [|by intros [= <- <-]].
  destruct (py_iter cards) as [items|e]; [|by intros [= <- <-]].
  rewrite process_cards_ops.
  destruct (exec_then _ _ _) as [w1 r1] eqn:Hrun.
  destruct (exec_then_world _ _ _ _ _ Hrun) as [r0 Hexec].
  apply exec_stdout in Hexec. cbn [print stdout] in Hexec.
  destruct r1 as [[]|e]; intros Heq; apply pair_equal_spec in Heq as [<- <-];
    cbn [print stdout]; rewrite Hexec; by rewrite <- ?app_assoc.
Qed.

Lemma run_prints_witness :
  stdout (main demo_float_repr demo_abspath demo_world).1 =
    [lit "Reading dataset... this may take a moment.";
     lit "Success! Data organized into: /home/user/Scryfall_Organized"].
Proof.
  apply (run_prints demo_float_repr demo_abspath (lit "oracle-cards.json")
           (lit "Scryfall_Organized") demo_world _ (Ok tt)).
  - reflexivity.
  - vm_compute. reflexivity.
Defined.

Lemma card_ops_not_dict root card :
  (∀ kvs, card ≠ JObj kvs) → card_ops root card = ([], Raise AttributeError).
Proof.
  intros H. unfold card_ops, target_dir, color_folder.
  destruct card; try done. by destruct (H kvs).
Qed.

(** X11. The top-level value of the document is not checked.  When it is
    no array the run creates and writes nothing: a number, a boolean or
    null is a [TypeError]; an object with a key or a string with a
    character is an [AttributeError], as the loop runs over the keys or the
    characters; an empty object or string is a run without records. *)
Theorem document_not_an_array (float_repr abspath : list N → list N)
    (input_file output_root text : pystr) (v : json) (w : world) :
  files w !! input_file = Some text →
  json_loads float_repr text = Ok v →
  (∀ l, v ≠ JArr l) →
  ∃ w',
    organize_scryfall_data float_repr abspath input_file output_root w =
      (w', match v with
           | JObj (_ :: _) | JStr (_ :: _) => Raise AttributeError
           | JObj [] | JStr [] => Ok tt
           | _ => Raise TypeError
           end) ∧
    files w' = files w ∧ dirs w' = dirs w.
Proof.
  intros Hin Hload Hv.
  destruct v as [|b|n|t|s|l|kvs];
    try (by destruct (Hv l));
    try (unfold organize_scryfall_data;
         assert (path_exists input_file w = true) as ->
           by (unfold path_exists; by rewrite Hin, bool_decide_true by eauto);
         cbn [negb]; unfold read_text; cbn [print files]; rewrite Hin, Hload;
         by eexists).
  - rewrite (organize_run _ _ _ _ _ _ _ _ Hin Hload eq_refl).
    destruct s as [|c s]; [by eexists|].
    cbn [fmap list_fmap cards_ops].
    rewrite card_ops_not_dict by done. by eexists.
  - rewrite (organize_run _ _ _ _ _ _ _ _ Hin Hload eq_refl).
    destruct kvs as [|kv kvs]; [by eexists|].
    cbn [fmap list_fmap cards_ops].
    rewrite card_ops_not_dict by done. by eexists.
Qed.

Lemma document_not_an_array_witness :
  let w := World {[ lit "oracle-cards.json" := json_dumps plains ]} ∅ [] in
  ∃ w',
    main demo_float_repr demo_abspath w = (w', Raise AttributeError) ∧
    files w' = files w ∧ dirs w' = dirs w.
Proof.
  cbn zeta.
  apply (document_not_an_array demo_float_repr demo_abspath
           (lit "oracle-cards.json") (lit "Scryfall_Organized")
           (json_dumps plains) plains).
  - reflexivity.
  - vm_compute. reflexivity.
  - discriminate.
Defined.







(** X14. A run only adds: every directory that was there is there after
    the run, and every path that held a file still holds one (its text may
    have been overwritten), however the run ends. *)
Theorem run_only_adds (float_repr abspath : list N → list N)
    (input_file output_root : pystr) (w w' : world) (r : res unit) :
  organize_scryfall_data float_repr abspath input_file output_root w = (w', r) →
  dirs w ⊆ dirs w' ∧ ∀ p, is_Some (files w !! p) → is_Some (files w' !! p).
Proof.
  destruct (organize_no_loop float_repr abspath input_file output_root w)
    as [(text & cards & items & Hin & Hload & Hiter)|(line & r0 & ->)].
  - rewrite (organize_run _ _ _ _ _ _ _ _ Hin Hload Hiter).
    destruct (exec_then _ _ _) as [w1 r1] eqn:Hrun.
    destruct (exec_then_world _ _ _ _ _ Hrun) as [r2 Hexec].
    apply exec_only_adds in Hexec. cbn [print files dirs] in Hexec.
    destruct r1 as [[]|e]; intros Heq;
      apply pair_equal_spec in Heq as [<- <-]; done.
  - intros Hrun. by apply pair_equal_spec in Hrun as [<- <-].
Qed.

Lemma run_only_adds_witness :
  dirs tokens_world ⊆ dirs (main demo_float_repr demo_abspath tokens_world).1 ∧
  ∀ p, is_Some (files tokens_world !! p) →
       is_Some (files (main demo_float_repr demo_abspath tokens_world).1 !! p).
Proof.
  eapply (run_only_adds demo_float_repr demo_abspath). apply surjective_pairing.
Defined.



(** ** The text of a file, once more *)

Lemma ascii_text_app s t : ascii_text s → ascii_text t → ascii_text (s ++ t).
Proof. intros. by apply Forall_app. Qed.

Lemma hex_digit_ascii d : d < 16 → 32 ≤ hex_digit d ∧ hex_digit d ≤ 126.
Proof. unfold hex_digit. destruct (N.ltb_spec d 10); lia. Qed.

Lemma u_escape_ascii n : ascii_text (u_escape n).
Proof.
  unfold u_escape, ascii_text.
  repeat (apply Forall_cons; split; [right|]); try lia;
    try (apply hex_digit_ascii, N.mod_lt; lia).
  constructor.
Qed.

Lemma escape_char_ascii c : ascii_text (escape_char c).
Proof.
  unfold escape_char.
  repeat (case_decide; [by_decide|]).
  destruct ((32 <=? c) && (c <=? 126)) eqn:Hp.
  { apply andb_prop in Hp as [?%N.leb_le ?%N.leb_le].
    apply Forall_cons. split; [right; lia|constructor]. }
  repeat (case_decide; [by_decide|]).
  destruct (c <? 65536); [apply u_escape_ascii|].
  cbn zeta. apply ascii_text_app; apply u_escape_ascii.
Qed.

Lemma encode_str_ascii s : ascii_text (encode_str s).
Proof.
  unfold encode_str. apply ascii_text_app; [by_decide|].
  apply ascii_text_app; [|by_decide].
  induction s as [|c s IH]; [constructor|].
  change ((c :: s) ≫= escape_char) with (escape_char c ++ (s ≫= escape_char)).
  apply ascii_text_app; [apply escape_char_ascii|done].
Qed.

Lemma digits_ascii ds : Forall (λ c, is_digit c = true) ds → ascii_text ds.
Proof.
  intros H. eapply Forall_impl; [exact H|].
  intros c [?%N.leb_le ?%N.leb_le]%andb_prop. right. lia.
Qed.

Lemma uint_chars_digits u : Forall (λ c, is_digit c = true) (uint_chars u).
Proof. induction u; cbn [uint_chars]; by constructor. Qed.

Lemma int_repr_ascii n : ascii_text (int_repr n).
Proof.
  destruct n as [|p|p]; cbn [int_repr].
  - by_decide.
  - apply digits_ascii, uint_chars_digits.
  - apply ascii_text_app; [by_decide|apply digits_ascii, uint_chars_digits].
Qed.

(** The text [match_number] takes is at the head of the input, and is made
    of the characters of a number. *)
Lemma scan_number_token_text s t r :
  scan_number_token s = Some (FloatTok t, r) → s = t ++ r ∧ ascii_text t.
Proof.
  unfold scan_number_token.
  destruct (match s with
            | [] => (false, s)
            | c :: r => if decide (c = 45) then (true, r) else (false, s)
            end) as [neg s1] eqn:Hsign.
  assert (s = (if neg then [45] else []) ++ s1) as ->.
  { destruct s as [|c s']; [by injection Hsign as <- <-|].
    case_decide; injection Hsign as <- <-; by subst. }
  destruct (scan_int s1) as [[u r0]|] eqn:Hi; [|done].
  destruct (scan_frac r0) as [frac r1] eqn:Hf.
  destruct (scan_exp r1) as [exp r2] eqn:He.
  destruct (frac ++ exp) as [|x tail] eqn:Htail; [done|].
  intros [= <- <-]. rewrite <- Htail.
  apply scan_int_inv in Hi as (-> & _ & _).
  apply scan_frac_inv in Hf as (-> & Hfrac).
  apply scan_exp_inv in He as (-> & Hexp).
  split; [by rewrite <- !app_assoc|].
  apply ascii_text_app; [destruct neg; by_decide|].
  apply ascii_text_app; [apply digits_ascii, uint_chars_digits|].
  apply ascii_text_app.
  - destruct Hfrac as [->|(ds & -> & _ & Hds & _)]; [constructor|].
    apply Forall_cons. split; [right; lia|by apply digits_ascii].
  - destruct Hexp as [->|(e & sign & ds & -> & He & Hsign' & _ & Hds & _)];
      [constructor|].
    apply Forall_cons. split.
    { apply elem_of_cons in He as [->|He]; [right; lia|].
      apply list_elem_of_singleton in He as ->. right. lia. }
    apply ascii_text_app; [|by apply digits_ascii].
    destruct Hsign' as [->|[->| ->]]; by_decide.
Qed.

Section AsciiText.
Variable float_repr : list N → list N.

Lemma float_text_ascii r : canonical float_repr r → ascii_text (float_text r).
Proof.
  intros Hr. unfold float_text.
  destruct (decide (r = lit "inf")) as [->|?]; [by_decide|].
  destruct (decide (r = lit "-inf")) as [->|?]; [by_decide|].
  destruct Hr as [?|[?|Hr]]; [done..|].
  specialize (Hr [] I). rewrite app_nil_r in Hr. unfold scan_number in Hr.
  destruct (scan_number_token r) as [[[k|t] r']|] eqn:Htok.
  - by destruct (int_str_ok k).
  - injection Hr as Hrepr ->.
    apply scan_number_token_text in Htok as [Heq Ht].
    rewrite app_nil_r in Heq. by subst.
  - destruct (startswith (lit "NaN") r); [done|].
    destruct (startswith (lit "Infinity") r); [by injection Hr as <- _|].
    destruct (startswith (lit "-Infinity") r); [by injection Hr as <- _|done].
Qed.

Lemma newline_indent_ascii level : ascii_text (newline_indent level).
Proof.
  unfold newline_indent. apply Forall_cons. split; [by left|].
  apply Forall_replicate. right. lia.
Qed.

Lemma str_join_ascii sep parts :
  ascii_text sep → Forall ascii_text parts → ascii_text (str_join sep parts).
Proof.
  intros Hsep. induction 1 as [|p parts Hp Hparts IH]; [constructor|].
  destruct parts as [|q parts]; [done|].
  change (str_join sep (p :: q :: parts))
    with (p ++ sep ++ str_join sep (q :: parts)).
  apply ascii_text_app; [done|]. apply ascii_text_app; [done|]. by apply IH.
Qed.

Lemma dumps_at_ascii v :
  json_wf float_repr v → ∀ level, ascii_text (dumps_at level v).
Proof.
  induction v as [|b|n|t|s|l IH|kvs IH] using json_nested_ind;
    intros Hwf level.
  - by_decide.
  - destruct b; by_decide.
  - apply int_repr_ascii.
  - by apply float_text_ascii.
  - apply encode_str_ascii.
  - apply json_wf_arr in Hwf. destruct l as [|x l]; [by_decide|].
    change (dumps_at level (JArr (x :: l)))
      with (lit "[" ++ newline_indent (S level) ++
            str_join (lit "," ++ newline_indent (S level))
              (dumps_at (S level) <$> x :: l) ++
            newline_indent level ++ lit "]").
    apply ascii_text_app; [by_decide|].
    apply ascii_text_app; [apply newline_indent_ascii|].
    apply ascii_text_app;
      [|apply ascii_text_app; [apply newline_indent_ascii|by_decide]].
    apply str_join_ascii.
    + apply ascii_text_app; [by_decide|apply newline_indent_ascii].
    + apply Forall_fmap. rewrite Forall_forall in IH, Hwf |- *.
      intros y Hy. by apply IH, Hwf.
  - apply json_wf_obj in Hwf as [_ Hwf]. destruct kvs as [|kv kvs]; [by_decide|].
    change (dumps_at level (JObj (kv :: kvs)))
      with (lit "{" ++ newline_indent (S level) ++
            str_join (lit "," ++ newline_indent (S level))
              ((λ kv, encode_str kv.1 ++ lit ": " ++ dumps_at (S level) kv.2)
                 <$> kv :: kvs) ++
            newline_indent level ++ lit "}").
    apply ascii_text_app; [by_decide|].
    apply ascii_text_app; [apply newline_indent_ascii|].
    apply ascii_text_app;
      [|apply ascii_text_app; [apply newline_indent_ascii|by_decide]].
    apply str_join_ascii.
    + apply ascii_text_app; [by_decide|apply newline_indent_ascii].
    + apply Forall_fmap. rewrite Forall_forall in IH, Hwf |- *.
      intros y Hy. cbn beta.
      apply ascii_text_app; [apply encode_str_ascii|].
      apply ascii_text_app; [by_decide|]. by apply IH, Hwf.
Qed.

End AsciiText.

(** X16. The text written for a record of the input is made of printable
    ASCII characters and line feeds only, whatever characters the record
    holds: [json.dump] escapes the others. *)
Theorem file_text_is_ascii (float_repr : list N → list N) (text : pystr)
    (cards : json) (items : list json) (card : json) :
  repr_canonical float_repr →
  text_ok text →
  json_loads float_repr text = Ok cards →
  py_iter cards = Ok items →
  card ∈ items →
  ascii_text (json_dumps card).
Proof.
  intros Hrepr Ht Hload Hiter Hcard. apply (dumps_at_ascii float_repr).
  pose proof (py_iter_wf _ _ _ (json_loads_wf _ _ _ Hrepr Ht Hload) Hiter)
    as Hall.
  rewrite Forall_forall in Hall. by apply Hall.
Qed.

Lemma file_text_is_ascii_witness : ascii_text (json_dumps plains).
Proof.
  apply (file_text_is_ascii demo_float_repr
           (json_dumps (JArr [plains; kix_card]))
           (JArr [plains; kix_card]) [plains; kix_card] plains).
  - exact demo_float_repr_canonical.
  - by_decide.
  - vm_compute. reflexivity.
  - reflexivity.
  - left.
Defined.



Lemma dict_lookup_set k v d k' :
  dict_lookup k' (dict_set k v d) =
    if decide (k' = k) then Some v else dict_lookup k' d.
Proof.
  induction d as [|[k0 v0] d IH]; cbn [dict_set dict_lookup].
  - case_decide; case_decide; congruence.
  - destruct (decide (k0 = k)) as [->|Hne]; cbn [dict_lookup].
    + case_decide; case_decide; congruence.
    + rewrite IH. repeat case_decide; congruence.
Qed.

(** X18. A key that is repeated in an object of the input keeps its last
    value: the dict built from the members is the dict of the members
    before the last one, with the last one stored over it. *)
Theorem repeated_key_last_wins (pairs : list (pystr * json)) (k : pystr)
    (v : json) :
  dict_lookup k (dict_of_pairs (pairs ++ [(k, v)])) = Some v ∧
  ∀ k', k' ≠ k →
    dict_lookup k' (dict_of_pairs (pairs ++ [(k, v)])) =
    dict_lookup k' (dict_of_pairs pairs).
Proof.
  unfold dict_of_pairs. rewrite foldl_app. cbn [foldl fst snd]. split.
  - by rewrite dict_lookup_set, decide_True.
  - intros k' Hk. by rewrite dict_lookup_set, decide_False.
Qed.

(** X19. [str.split] loses nothing and cuts at every occurrence: joining
    the pieces with the separator gives the string back, and no piece
    holds the separator. *)
Theorem str_split_join (sep s : pystr) (parts : list pystr) :
  str_split sep s = Ok parts →
  str_join sep parts = s ∧ Forall (λ p, ¬ occurs_in sep p) parts.
Proof.
  destruct (decide (sep = [])) as [->|Hsep]; [done|].
  remember (length s) as n eqn:Hn. revert s parts Hn.
  induction n as [n IH] using lt_wf_ind. intros s parts Hn.
  rewrite str_split_unfold by done.
  destruct (find sep s) as [i|] eqn:Hf.
  - pose proof (find_lt _ _ _ Hf) as Hlt.
    destruct (find_Some _ _ _ Hf) as [Heq Hmin].
    assert (0 < length sep)%nat by (destruct sep; [done|simpl; lia]).
    destruct (str_split sep (drop (i + length sep) s)) as [more|] eqn:Hm;
      [|done].
    cbn [bind]. intros [= <-].
    destruct (IH (length (drop (i + length sep) s))
                ltac:(rewrite length_drop; lia) _ _ eq_refl Hm) as [Hj Hall].
    split.
    + rewrite str_join_cons_ne by (by eapply str_split_nonempty).
      by rewrite Hj, <- Heq.
    + constructor; [|done]. intros (pre & post & Hocc).
      assert (length pre < i)%nat as Hpre.
      { apply (f_equal length) in Hocc.
        rewrite length_take, !length_app in Hocc. lia. }
      specialize (Hmin _ Hpre).
      rewrite <- (take_drop i s), Hocc, <- !app_assoc in Hmin.
      by rewrite drop_app_length, startswith_app in Hmin.
  - intros [= <-]. split; [done|]. constructor; [|constructor].
    by apply find_None.
Qed.

Lemma str_split_join_witness :
  str_join subtype_sep
    [lit "Creature"; lit "Human // Creature"; lit "Werewolf"] =
    two_faced_type_line ∧
  Forall (λ p, ¬ occurs_in subtype_sep p)
    [lit "Creature"; lit "Human // Creature"; lit "Werewolf"].
Proof.
  apply (str_split_join subtype_sep two_faced_type_line). vm_compute.
  reflexivity.
Defined.

(** ** The order of the records *)

Lemma cards_ops_Ok root items :
  (∃ ops, cards_ops root items = (ops, Ok tt)) ↔
  Forall (λ card, (card_ops root card).2 = Ok tt) items.
Proof.
  induction items as [|c0 rest IH].
  - split; [constructor|by eexists].
  - cbn [cards_ops]. rewrite Forall_cons, <- IH.
    destruct (card_ops root c0) as [ops0 [[]|e]]; cbn [snd].
    + destruct (cards_ops root rest) as [ops' [[]|e]].
      * split; [intros _; split; by eexists|by eexists].
      * split; [by intros [? [=]]|by intros [_ [? [=]]]].
    + split; [by intros [? [=]]|by intros [[=] _]].
Qed.


















(** ** Inputs that are not read *)

(** X21. An input file that begins with a byte order mark is not read: the
    file is opened as UTF-8, the mark stays in the text, and [json.load]
    refuses it.  The run ends with a [JSONDecodeError] and has created and
    written nothing. *)
Theorem input_with_bom_rejected (float_repr abspath : list N → list N)
    (input_file output_root text : pystr) (w : world) :
  files w !! input_file = Some (65279 :: text) →
  organize_scryfall_data float_repr abspath input_file output_root w =
    (print (lit "Reading dataset... this may take a moment.") w,
     Raise JSONDecodeError).
Proof.
  intros Hin. unfold organize_scryfall_data.
  assert (path_exists input_file w = true) as ->.
  { unfold path_exists. by rewrite Hin, bool_decide_true by eauto. }
  cbn [negb]. unfold read_text. cbn [print files]. by rewrite Hin.
Qed.

Lemma input_with_bom_rejected_witness :
  let w := World {[ lit "oracle-cards.json" := 65279 :: lit "[]" ]} ∅ [] in
  main demo_float_repr demo_abspath w =
    (print (lit "Reading dataset... this may take a moment.") w,
     Raise JSONDecodeError).
Proof.
  cbn zeta.
  apply (input_with_bom_rejected demo_float_repr demo_abspath
           (lit "oracle-cards.json") (lit "Scryfall_Organized") (lit "[]")).
  reflexivity.
Defined.

(** X22. An input path that names a directory passes the test of
    existence; opening it fails.  The run ends with an
    [IsADirectoryError] and has created and written nothing. *)
Theorem input_is_a_directory (float_repr abspath : list N → list N)
    (input_file output_root : pystr) (w : world) :
  files w !! input_file = None →
  input_file ∈ dirs w →
  organize_scryfall_data float_repr abspath input_file output_root w =
    (print (lit "Reading dataset... this may take a moment.") w,
     Raise IsADirectoryError).
Proof.
  intros Hf Hd. unfold organize_scryfall_data, path_exists, read_text.
  cbn [print files dirs]. rewrite Hf.
  rewrite (bool_decide_true (input_file ∈ dirs w)) by done.
  by rewrite orb_true_r.
Qed.

Lemma input_is_a_directory_witness :
  let w := World ∅ {[ lit "oracle-cards.json" ]} [] in
  main demo_float_repr demo_abspath w =
    (print (lit "Reading dataset... this may take a moment.") w,
     Raise IsADirectoryError).
Proof.
  cbn zeta.
  apply (input_is_a_directory demo_float_repr demo_abspath
           (lit "oracle-cards.json") (lit "Scryfall_Organized")).
  - reflexivity.
  - set_solver.
Defined.

(** X23. Every value of [colors] that counts as false stands for "no
    colors": with null, false, 0, 0.0, an empty string, list or dict and no
    [card_faces], the color folder is "Colorless". *)
Theorem color_folder_falsy_colors (kvs : list (pystr * json)) (v : json) :
  dict_lookup (lit "colors") kvs = Some v →
  truthy v = false →
  dict_lookup (lit "card_faces") kvs = None →
  color_folder (JObj kvs) = Ok (lit "Colorless").
Proof.
  intros Hc Hv Hf. unfold color_folder, dict_has. cbn [py_get bind].
  rewrite Hc, Hf. cbn [from_option id]. rewrite Hv. cbn [negb andb].
  rewrite bool_decide_false by (by intros [? ?]). cbn [bind]. by rewrite Hv.
Qed.

Lemma color_folder_falsy_colors_witness :
  color_folder (JObj [(lit "name", JStr (lit "Ornithopter"));
                      (lit "colors", JNull)]) = Ok (lit "Colorless").
Proof.
  apply (color_folder_falsy_colors _ JNull); reflexivity.
Defined.

(** ** What [json.load] yields *)

(** X24. The values [json.load] builds from the text of a file are well
    formed: in every dict the keys are distinct, every string is a sequence
    of code points with no surrogate pair left in it, and every float is
    held by a canonical text. *)
Theorem loaded_value_well_formed (float_repr : list N → list N)
    (text : pystr) (v : json) :
  repr_canonical float_repr →
  text_ok text →
  json_loads float_repr text = Ok v →
  json_wf float_repr v.
Proof. apply json_loads_wf. Qed.

Lemma loaded_value_well_formed_witness : json_wf demo_float_repr plains.
Proof.
  apply (loaded_value_well_formed demo_float_repr (json_dumps plains)).
  - exact demo_float_repr_canonical.
  - by_decide.
  - vm_compute. reflexivity.
Defined.
